(** * Scalable NonZero Indicator (SNZI): a shallow embedding of the C++11 sources

    The development follows the sources file by file:
    - [StampedCounter] : [stamped_counter.hpp], a (stamp, counter) pair packed in 64 bits;
    - [Backoff]        : [backoff.hpp], the exponential back-off helper;
    - [Double]         : the IEEE-754 binary64 operations used by the constructors;
    - [Snzi]           : [snzi.hpp], the three SNZI trees, run by one thread;
    - [StampedReference] : the two proxies of [stamped_counter.hpp];
    - [PerfEval]       : [snzi_perf_eval_semi_contention.cpp], the job of a
                         benchmark thread;
    - [Affinity]       : [affinity.hpp], the table of threads and cores.

    [std::size_t] and [std::uint64_t] are 64-bit unsigned integers (the sources
    target x86-64: [backoff.hpp] emits the [pause] instruction); they are
    modelled by [Z] with the reduction modulo [2^64] written at every operation
    that can wrap around. *)

From Stdlib Require Import ZArith Zpower List Bool Lia SpecFloat.
From stdpp Require Import base list.
Import ListNotations.

#[local] Set Warnings "-notation-incompatible-prefix".
Local Open Scope Z_scope.

(** ** Machine integers *)

Module Word.

Definition SIZE_MAX : Z := 2 ^ 64 - 1.
Definition INT_MAX : Z := 2 ^ 31 - 1.

(** Reduction of an unsigned 64-bit result. *)
Definition wrap (z : Z) : Z := z mod 2 ^ 64.

(** Reduction of an unsigned 32-bit result. *)
Definition wrap32 (z : Z) : Z := z mod 2 ^ 32.

Definition in_range (z : Z) : Prop := 0 <= z <= SIZE_MAX.

End Word.

(** ** Outcomes of a call

    A call returns, throws a C++ exception, has undefined behaviour (an access
    outside an array, a read of an indeterminate value, a division by zero, a
    signed overflow, a conversion of an out-of-range [double]), or does not
    return within the fuel the model grants it. *)

Inductive exn : Set := invalid_argument | bad_alloc.

Inductive result (A : Type) : Type :=
| Ok (a : A)
| Throw (e : exn)
| Undefined
| OutOfFuel.

Arguments Ok {A} a.
Arguments Throw {A} e.
Arguments Undefined {A}.
Arguments OutOfFuel {A}.

Definition rbind {A B : Type} (r : result A) (k : A -> result B) : result B :=
  match r with
  | Ok a => k a
  | Throw e => Throw e
  | Undefined => Undefined
  | OutOfFuel => OutOfFuel
  end.

(** What a thread does besides reading and writing the atomics: the [pause]
    instruction, [std::this_thread::yield()], and the subscripts [others[i]]. *)
Inductive event : Set :=
| Pause
| Yield
| Touch (i : Z).

(** ** stamped_counter.hpp *)

Module StampedCounter.
Import Word.

(** [value_type] is [uint64_t]; [stamp_type] and [counter_type] are [uint32_t]. *)
Record stamped_counter : Set := { value : Z }.

(** [extract_stamp], lines 344-346; the result is converted to [stamp_type]. *)
Definition extract_stamp (val : Z) : Z :=
  wrap32 (Z.shiftr (Z.land val 0xFFFFFFFF00000000) 32).

(** [extract_counter], lines 351-353. *)
Definition extract_counter (val : Z) : Z :=
  wrap32 (Z.land val 0x00000000FFFFFFFF).

(** [pack], lines 358-360: [static_cast<value_type>(stamp) << 32 | counter]. *)
Definition pack (stamp counter : Z) : Z :=
  Z.lor (wrap (Z.shiftl stamp 32)) counter.

(** The two constructors, lines 303 and 308. *)
Definition make (stamp counter : Z) : stamped_counter :=
  {| value := pack stamp counter |}.

Definition of_value (val : Z) : stamped_counter := {| value := val |}.

(** The [const] accessors, lines 320, 326 and 331. *)
Definition stamp (sc : stamped_counter) : Z := extract_stamp (value sc).
Definition counter (sc : stamped_counter) : Z := extract_counter (value sc).
Definition get_value (sc : stamped_counter) : Z := value sc.

End StampedCounter.

(** ** backoff.hpp *)

Module Backoff.
Import Word.

Definition MAX_TRIES : Z := 16.

Record exponential_backoff : Set := { tries : Z }.

(** The default member initialiser [tries{1}]. *)
Definition fresh : exponential_backoff := {| tries := 1 |}.

(** The private [backoff(delay)], lines 26-30: [delay] times the [pause] instruction. *)
Definition spin (delay : Z) : list event := repeat Pause (Z.to_nat delay).

(** [backoff()], lines 11-19: the events of the call and the object after it. *)
Definition backoff (b : exponential_backoff) : list event * exponential_backoff :=
  if tries b <=? MAX_TRIES
  then (spin (tries b), {| tries := wrap (tries b * 2) |})
  else ([Yield], b).

(** [reset()], line 21. *)
Definition reset (b : exponential_backoff) : exponential_backoff := {| tries := 1 |}.

(** The object after [n] calls of [backoff()], and what call number [n]
    (counted from 0) does. *)
Definition after (n : nat) (b : exponential_backoff) : exponential_backoff :=
  Nat.iter n (fun b' => snd (backoff b')) b.

Definition nth_call (n : nat) (b : exponential_backoff) : list event :=
  fst (backoff (after n b)).

(** "The delay doubles from 1 up to [cap], then the call yields": call
    number [n] pauses [2^n] times while [2^n] does not exceed [cap], and
    yields afterwards. *)
Definition doubles_up_to (cap : Z) (b : exponential_backoff) : Prop :=
  forall n : nat,
    (2 ^ Z.of_nat n <= cap -> nth_call n b = repeat Pause (2 ^ n)%nat) /\
    (cap < 2 ^ Z.of_nat n -> nth_call n b = [Yield]).

End Backoff.

(** ** IEEE-754 binary64

    The constructors compute [threads_per_leaf] in [double]:
    [static_cast<size_type>(std::ceil((double)T/(double)total_leaf_nodes))].
    The conversions, the division and their rounding (to nearest, ties to
    even) are those of the Standard Library's specification of IEEE-754
    arithmetic, at precision 53 and maximal exponent 1024. *)

Module Double.
Import Word.

Definition prec : Z := 53.
Definition emax : Z := 1024.

(** [(double)n] for an unsigned 64-bit [n]. *)
Definition of_size_t (n : Z) : spec_float := binary_normalize prec emax n 0 false.

(** [x / y]. *)
Definition div (x y : spec_float) : spec_float := SFdiv prec emax x y.

(** The least integer not below [(-1)^s * m * 2^e]. *)
Definition ceil_finite (s : bool) (m : positive) (e : Z) : Z :=
  let v := if s then Z.neg m else Z.pos m in
  if 0 <=? e then v * 2 ^ e else - ((- v) / 2 ^ (- e)).

(** [std::ceil(x)]: zeros, infinities, NaN and floats without a fractional
    part are returned as they are. *)
Definition ceil (x : spec_float) : spec_float :=
  match x with
  | S754_finite s m e =>
      if 0 <=? e then x else binary_normalize prec emax (ceil_finite s m e) 0 s
  | _ => x
  end.

(** [static_cast<size_type>(x)]: the value truncated towards zero; the
    behaviour is undefined when that does not fit the unsigned 64-bit type,
    and for infinities and NaN. *)
Definition to_size_t (x : spec_float) : result Z :=
  match x with
  | S754_zero _ => Ok 0
  | S754_finite s m e =>
      let t := if 0 <=? e then Z.pos m * 2 ^ e else Z.pos m / 2 ^ (- e) in
      let v := if s then - t else t in
      if (0 <=? v) && (v <=? SIZE_MAX) then Ok v else Undefined
  | _ => Undefined
  end.

End Double.

(** ** snzi.hpp

    The three classes [no_contention_handling_snzi],
    [semi_contention_handling_snzi] and [full_contention_handling_snzi] repeat
    the same constructor, the same indexing helpers and the same facade; the
    nodes of the last two carry the [announce] flag, and the last one adds the
    direct operations on the root. One model serves the three, selected by a
    [variant]. *)

Module Snzi.
Import Word.

Inductive variant : Set :=
| no_contention_handling
| semi_contention_handling
| full_contention_handling.

(** Whether the nodes of the class have the [announce] member. *)
Definition has_announce (v : variant) : bool :=
  match v with
  | no_contention_handling => false
  | _ => true
  end.

(** [struct node]: the counter [X], the flag [announce] (never read nor
    written in [no_contention_handling_snzi], whose nodes do not have it) and
    the index [parent], indeterminate until the constructor assigns it. The
    back pointer [snzi_tree] always points to the enclosing object and is the
    [tree] of the [world] below. *)
Record node : Set := { X : Z; announce : bool; parent : option Z }.

(** The object: [root] is [root.X], the only member of [struct root_node]. *)
Record snzi : Set := {
  arity : Z;
  total_nodes : Z;
  total_leaf_nodes : Z;
  threads_per_leaf : Z;
  total_threads : Z;
  root : Z;
  others : list node
}.

(** [contention_status], lines 562-568. *)
Record contention_status : Set := {
  use_snzi_in_arrive : bool;
  use_snzi_in_depart : bool;
  use_snzi_tree_flag : bool
}.

Definition MaxContentionNumFailures : Z := 5.

Definition fresh_status : contention_status :=
  {| use_snzi_in_arrive := false; use_snzi_in_depart := false; use_snzi_tree_flag := false |}.

(** *** Indexing helpers *)

(** The loop of [pow_int], lines 283-287: [for (i = 1; i <= e; ++i) result *= b]. *)
Fixpoint pow_int_loop (fuel : nat) (b e i acc : Z) : result Z :=
  if i <=? e then
    match fuel with
    | O => OutOfFuel
    | S fuel' => pow_int_loop fuel' b e (wrap (i + 1)) (wrap (acc * b))
    end
  else Ok acc.

(** [pow_int], lines 282-288. The body runs [e] times when [e < SIZE_MAX];
    for [e = SIZE_MAX] the test [i <= e] never fails. *)
Definition pow_int (b e : Z) : result Z := pow_int_loop (Z.to_nat e) b e 1 1.

(** [nodes_count], lines 267-270. With [K = 1] the assertion fails (or, with
    assertions compiled out, the division is by zero). *)
Definition nodes_count (K H : Z) : result Z :=
  if K =? 1 then Undefined
  else rbind (pow_int K (wrap (H + 1))) (fun p => Ok (wrap (p - 1) / wrap (K - 1))).

(** [leaves_count], lines 275-277. *)
Definition leaves_count (K H : Z) : result Z := pow_int K H.

(** [parent], lines 260-262, with [arity] as an argument. *)
Definition parent_index (arity id : Z) : Z := wrap (id - 1) / arity.

(** The level-order layout of the perfect [K]-ary tree: [level_start K h],
    that is [1 + K + ... + K^(h-1)], is the index of the first node of level
    [h] (the root is level 0). It is used to state where the leaves are. *)
Fixpoint level_start (K : Z) (h : nat) : Z :=
  match h with
  | O => 0
  | S h' => 1 + K * level_start K h'
  end.

(** *** Construction *)

(** [node()], lines 79-81 and 326-329. *)
Definition new_node : node := {| X := 0; announce := false; parent := None |}.

(** The loop of the constructor, lines 178-181:
    [for (i = 1; i < total_nodes; ++i) others[i].parent = parent(i)]. *)
Definition set_parent (K : Z) (ns : list node) (i : nat) : list node :=
  alter (fun nd => {| X := X nd; announce := announce nd;
                      parent := Some (parent_index K (Z.of_nat i)) |}) i ns.

Definition set_parents (K n : Z) (ns : list node) : list node :=
  fold_left (set_parent K) (seq 1 (Z.to_nat n - 1)) ns.

(** The constructor, lines 152-182 (419-449, 719-749). [alloc n] tells whether
    [new node[n]] finds the memory; otherwise [std::bad_alloc] propagates. *)
Definition construct (alloc : Z -> bool) (K H T : Z) : result snzi :=
  if K <? 2 then Throw invalid_argument
  else
    rbind (nodes_count K H) (fun n =>
    rbind (leaves_count K H) (fun l =>
    rbind (Double.to_size_t
             (Double.ceil (Double.div (Double.of_size_t T) (Double.of_size_t l))))
          (fun r =>
    let r := if r =? 0 then 1 else r in
    if alloc n then
      Ok {| arity := K; total_nodes := n; total_leaf_nodes := l;
            threads_per_leaf := r; total_threads := T; root := 0;
            others := set_parents K n (replicate (Z.to_nat n) new_node) |}
    else Throw bad_alloc))).

(** *** One thread running on the object

    The state of a run: the object, the events of the thread so far (most
    recent first) and the outcomes of its future [compare_exchange_weak]
    calls: [true] makes the next one fail spuriously; an exhausted list means
    no further spurious failure. *)
Record world : Set := { tree : snzi; trace : list event; oracle : list bool }.

Definition M (A : Type) : Type := world -> result (A * world).

Definition ret {A : Type} (a : A) : M A := fun w => Ok (a, w).

Definition bind {A B : Type} (m : M A) (k : A -> M B) : M B :=
  fun w => match m w with
           | Ok (a, w') => k a w'
           | Throw e => Throw e
           | Undefined => Undefined
           | OutOfFuel => OutOfFuel
           end.

Definition undefined {A : Type} : M A := fun _ => Undefined.
Definition out_of_fuel {A : Type} : M A := fun _ => OutOfFuel.

Notation "x <- m ;; k" := (bind m (fun x => k))
  (at level 62, m at level 61, right associativity, only parsing).
Notation "' p <- m ;; k" := (bind m (fun p => k))
  (at level 62, p pattern, m at level 61, right associativity, only parsing).
Notation "m ;;; k" := (bind m (fun _ => k))
  (at level 62, right associativity, only parsing).

Definition get_tree : M snzi := fun w => Ok (tree w, w).

Definition put_tree (t : snzi) : M unit :=
  fun w => Ok (tt, {| tree := t; trace := trace w; oracle := oracle w |}).

Definition emit (es : list event) : M unit :=
  fun w => Ok (tt, {| tree := tree w; trace := es ++ trace w; oracle := oracle w |}).

(** The next [compare_exchange_weak] fails spuriously? *)
Definition flip : M bool :=
  fun w => match oracle w with
           | [] => Ok (false, w)
           | b :: o => Ok (b, {| tree := tree w; trace := trace w; oracle := o |})
           end.

Definition set_root (t : snzi) (x : Z) : snzi :=
  {| arity := arity t; total_nodes := total_nodes t;
     total_leaf_nodes := total_leaf_nodes t; threads_per_leaf := threads_per_leaf t;
     total_threads := total_threads t; root := x; others := others t |}.

Definition set_others (t : snzi) (ns : list node) : snzi :=
  {| arity := arity t; total_nodes := total_nodes t;
     total_leaf_nodes := total_leaf_nodes t; threads_per_leaf := threads_per_leaf t;
     total_threads := total_threads t; root := root t; others := ns |}.

(** The subscript [others[i]]: outside the allocated array it is undefined. *)
Definition subscript (i : Z) : M unit :=
  t <- get_tree ;;
  if i <? Z.of_nat (length (others t)) then emit [Touch i] else undefined.

(** The members of the node [others[i]]. *)
Definition get_node (i : Z) : M node :=
  t <- get_tree ;;
  match others t !! Z.to_nat i with
  | Some nd => ret nd
  | None => undefined
  end.

Definition put_node (i : Z) (nd : node) : M unit :=
  t <- get_tree ;; put_tree (set_others t (<[Z.to_nat i := nd]> (others t))).

Definition load_X (i : Z) : M Z := nd <- get_node i ;; ret (X nd).

Definition store_X (i x : Z) : M unit :=
  nd <- get_node i ;;
  put_node i {| X := x; announce := announce nd; parent := parent nd |}.

Definition load_announce (i : Z) : M bool := nd <- get_node i ;; ret (announce nd).

Definition store_announce (i : Z) (a : bool) : M unit :=
  nd <- get_node i ;;
  put_node i {| X := X nd; announce := a; parent := parent nd |}.

Definition load_parent (i : Z) : M Z :=
  nd <- get_node i ;;
  match parent nd with
  | Some p => ret p
  | None => undefined
  end.

(** [X.compare_exchange_weak(expected, desired)] on the counter of node [i]:
    the outcome and the new content of [expected]. *)
Definition node_cas_weak (i expected desired : Z) : M (bool * Z) :=
  spurious <- flip ;;
  cur <- load_X i ;;
  if negb spurious && (cur =? expected)
  then store_X i desired ;;; ret (true, expected)
  else ret (false, cur).

(** [X.compare_exchange_strong(expected, desired)] on the counter of node [i]. *)
Definition node_cas_strong (i expected desired : Z) : M (bool * Z) :=
  cur <- load_X i ;;
  if cur =? expected
  then store_X i desired ;;; ret (true, expected)
  else ret (false, cur).

(** *** [struct root_node] *)

Definition root_load : M Z := t <- get_tree ;; ret (root t).

Definition root_store (x : Z) : M unit := t <- get_tree ;; put_tree (set_root t x).

(** [Arrive], [Depart] and [Query] of the root, lines 60-70. *)
Definition root_Arrive : M unit := x <- root_load ;; root_store (wrap (x + 1)).
Definition root_Depart : M unit := x <- root_load ;; root_store (wrap (x - 1)).
Definition root_Query : M bool := x <- root_load ;; ret (negb (x =? 0)).

Definition root_cas_weak (expected desired : Z) : M (bool * Z) :=
  spurious <- flip ;;
  cur <- root_load ;;
  if negb spurious && (cur =? expected)
  then root_store desired ;;; ret (true, expected)
  else ret (false, cur).

(** [backoff.backoff()] on a local back-off object. *)
Definition do_backoff (b : Backoff.exponential_backoff) : M Backoff.exponential_backoff :=
  let '(es, b') := Backoff.backoff b in emit es ;;; ret b'.

(** The loop of [ArriveDirectly], lines 587-590; [num_failures] is an [int]. *)
Fixpoint ArriveDirectly_loop (spin : nat) (oldx : Z) (b : Backoff.exponential_backoff)
    (num_failures : Z) : M Z :=
  match spin with
  | O => out_of_fuel
  | S spin' =>
      '(ok, oldx') <- root_cas_weak oldx (wrap (oldx + 1)) ;;
      if ok : bool then ret num_failures
      else if num_failures <? INT_MAX then
        b' <- do_backoff b ;;
        ArriveDirectly_loop spin' oldx' b' (num_failures + 1)
      else undefined
  end.

(** [ArriveDirectly], lines 581-596. *)
Definition ArriveDirectly (spin : nat) (cont : contention_status) : M contention_status :=
  oldx <- root_load ;;
  num_failures <- ArriveDirectly_loop spin oldx Backoff.fresh 0 ;;
  if MaxContentionNumFailures <=? num_failures
  then ret {| use_snzi_in_arrive := use_snzi_in_arrive cont;
              use_snzi_in_depart := use_snzi_in_depart cont;
              use_snzi_tree_flag := true |}
  else ret cont.

(** [DepartDirectly], lines 598-604. *)
Definition DepartDirectly (cont : contention_status) : M contention_status :=
  root_Depart ;;;
  if use_snzi_tree_flag cont
  then ret {| use_snzi_in_arrive := true; use_snzi_in_depart := true;
              use_snzi_tree_flag := use_snzi_tree_flag cont |}
  else ret cont.

(** *** [struct node] *)

(** [switch(parent){ case 0: root-operation; default: others[parent].operation }]
    in a member function of node [i]. *)
Definition to_parent (root_op : M unit) (node_op : Z -> M unit) (i : Z) : M unit :=
  p <- load_parent i ;;
  if p =? 0 then root_op else subscript p ;;; node_op p.

(** The loop of [Depart]: lines 117 ([while (!X.compare_exchange_weak(oldx,
    oldx - 1)){}]) and 378-384 (the flag is cleared when [oldx == 1], and the
    exchange is the strong one). It returns the final [oldx]. *)
Fixpoint Depart_loop (ann : bool) (spin : nat) (i oldx : Z) : M Z :=
  match spin with
  | O => out_of_fuel
  | S spin' =>
      (if ann && (oldx =? 1) then store_announce i false else ret tt) ;;;
      '(ok, oldx') <- (if ann then node_cas_strong i oldx (wrap (oldx - 1))
                       else node_cas_weak i oldx (wrap (oldx - 1))) ;;
      if ok : bool then ret oldx' else Depart_loop ann spin' i oldx'
  end.

(** [node::Depart], lines 114-129 and 375-396. *)
Fixpoint node_Depart (ann : bool) (spin fuel : nat) (i : Z) : M unit :=
  match fuel with
  | O => out_of_fuel
  | S fuel' =>
      oldx <- load_X i ;;
      oldx <- Depart_loop ann spin i oldx ;;
      if oldx =? 1
      then to_parent root_Depart (node_Depart ann spin fuel') i
      else ret tt
  end.

(** The wait of [Arrive] while the flag is set, lines 342-346: at most
    [DelayAmount] reads of [X]; it returns [doArrive] and [oldx]. *)
Fixpoint announce_wait (n : nat) (i : Z) (b : Backoff.exponential_backoff) (oldx : Z)
    : M (bool * Z) :=
  match n with
  | O => ret (true, oldx)
  | S n' =>
      oldx' <- load_X i ;;
      if negb (oldx' =? 0) then ret (false, oldx')
      else b' <- do_backoff b ;; announce_wait n' i b' oldx'
  end.

Definition DelayAmount : nat := 16.

(** The body of the loop of [Arrive] before the exchange, lines 89-99 and
    337-360; [parent_Arrive] is the [switch(parent)] of lines 90-97. *)
Definition Arrive_body (ann : bool) (parent_Arrive : M unit) (i : Z)
    (pArrInv : bool) (oldx : Z) : M (bool * Z) :=
  if (oldx =? 0) && negb pArrInv then
    '(doArrive, oldx) <-
       (if ann then
          a <- load_announce i ;;
          if a : bool then announce_wait DelayAmount i Backoff.fresh oldx
          else ret (true, oldx)
        else ret (true, oldx)) ;;
    if doArrive : bool then
      (if ann then store_announce i true else ret tt) ;;;
      parent_Arrive ;;;
      ret (true, oldx)
    else ret (pArrInv, oldx)
  else ret (pArrInv, oldx).

(** The loop of [Arrive], lines 88-100 and 336-361:
    [do { body } while (!X.compare_exchange_weak(oldx, oldx + 1))]. *)
Fixpoint Arrive_loop (ann : bool) (parent_Arrive : M unit) (spin : nat) (i : Z)
    (pArrInv : bool) (oldx : Z) : M (bool * Z) :=
  match spin with
  | O => out_of_fuel
  | S spin' =>
      '(pArrInv', oldx1) <- Arrive_body ann parent_Arrive i pArrInv oldx ;;
      '(ok, oldx2) <- node_cas_weak i oldx1 (wrap (oldx1 + 1)) ;;
      if ok : bool then ret (pArrInv', oldx2)
      else Arrive_loop ann parent_Arrive spin' i pArrInv' oldx2
  end.

(** [node::Arrive], lines 83-112 and 331-373. *)
Fixpoint node_Arrive (ann : bool) (spin fuel : nat) (i : Z) : M unit :=
  match fuel with
  | O => out_of_fuel
  | S fuel' =>
      oldx <- load_X i ;;
      '(pArrInv, oldx) <-
         Arrive_loop ann (to_parent root_Arrive (node_Arrive ann spin fuel') i)
                     spin i false oldx ;;
      if pArrInv && negb (oldx =? 0)
      then to_parent root_Depart (node_Depart ann spin fuel') i
      else ret tt
  end.

(** *** The facade *)

(** [get_leaf_for_thread], lines 243-252. *)
Definition get_leaf_for_thread (tid : Z) : M Z :=
  t <- get_tree ;;
  if (threads_per_leaf t =? 0) || (total_leaf_nodes t =? 0) then undefined
  else ret (wrap (total_nodes t - total_leaf_nodes t
                  + (tid / threads_per_leaf t) mod total_leaf_nodes t)).

(** The fuel of a call: a loop on a weak exchange is left after at most as
    many rounds as there are spurious failures to come, plus one; a chain of
    parents is not longer than the array. *)
Definition spin_fuel (w : world) : nat := S (length (oracle w)).
Definition depth_fuel (w : world) : nat := length (others (tree w)).

(** [Arrive(tid)], lines 189-200 and 456-467, and the part of lines 762-771. *)
Definition tree_Arrive (ann : bool) (tid : Z) : M unit :=
  fun w =>
    (leaf <- get_leaf_for_thread tid ;;
     if leaf =? 0 then root_Arrive
     else subscript leaf ;;; node_Arrive ann (spin_fuel w) (depth_fuel w) leaf) w.

(** [Depart(tid)], lines 206-217 and 473-484, and the part of lines 784-793. *)
Definition tree_Depart (ann : bool) (tid : Z) : M unit :=
  fun w =>
    (leaf <- get_leaf_for_thread tid ;;
     if leaf =? 0 then root_Depart
     else subscript leaf ;;; node_Depart ann (spin_fuel w) (depth_fuel w) leaf) w.

(** [Arrive] of the three classes; only the last one reads and writes the
    status of the calling thread (lines 756-772). *)
Definition Arrive (v : variant) (tid : Z) (cont : contention_status) : M contention_status :=
  match v with
  | full_contention_handling =>
      if negb (use_snzi_in_arrive cont)
      then fun w => ArriveDirectly (spin_fuel w) cont w
      else tree_Arrive true tid ;;; ret cont
  | _ => tree_Arrive (has_announce v) tid ;;; ret cont
  end.

(** [Depart] of the three classes (lines 778-794 for the last one). *)
Definition Depart (v : variant) (tid : Z) (cont : contention_status) : M contention_status :=
  match v with
  | full_contention_handling =>
      if negb (use_snzi_in_depart cont)
      then DepartDirectly cont
      else tree_Depart true tid ;;; ret cont
  | _ => tree_Depart (has_announce v) tid ;;; ret cont
  end.

(** [Query], lines 224-226. *)
Definition Query : M bool := root_Query.

(** *** A client thread *)

Inductive call : Set :=
| CallArrive (tid : Z)
| CallDepart (tid : Z)
| CallQuery.

(** The private status of every thread identifier. *)
Definition statuses : Type := Z -> contention_status.

Definition fresh_statuses : statuses := fun _ => fresh_status.

Definition set_status (st : statuses) (tid : Z) (c : contention_status) : statuses :=
  fun tid' => if tid' =? tid then c else st tid'.

Definition step (v : variant) (c : call) (st : statuses) : M statuses :=
  match c with
  | CallArrive tid => c' <- Arrive v tid (st tid) ;; ret (set_status st tid c')
  | CallDepart tid => c' <- Depart v tid (st tid) ;; ret (set_status st tid c')
  | CallQuery => Query ;;; ret st
  end.

Fixpoint run (v : variant) (cs : list call) (st : statuses) : M statuses :=
  match cs with
  | [] => ret st
  | c :: cs' => st' <- step v c st ;; run v cs' st'
  end.

(** The world right after construction. *)
Definition start (t : snzi) (o : list bool) : world :=
  {| tree := t; trace := []; oracle := o |}.

End Snzi.

(** ** What the proofs speak about

    The definitions below are not in the sources: they name the properties
    that the theorems state and the summaries that the proofs go through. *)

Module SnziSpec.
Import Word Snzi.

(** The quotient of [a] by [b], rounded up. *)
Definition ceil_div (a b : Z) : Z := (a + b - 1) / b.

(** [wp m w Q]: from the world [w] the call [m] returns, with a result and a
    world that satisfy [Q]. *)
Definition wp {A : Type} (m : M A) (w : world) (Q : A -> world -> Prop) : Prop :=
  exists (a : A) (w' : world), m w = Ok (a, w') /\ Q a w'.

(** The shape that the constructor gives to the object and that no operation
    changes: the length of the array, the parent of every node but the one at
    index 0, positive leaf and thread counts. *)
Record shape (t : snzi) : Prop := {
  shape_arity : 1 <= arity t;
  shape_length : Z.of_nat (length (others t)) = total_nodes t;
  shape_leaves : 1 <= total_leaf_nodes t <= total_nodes t;
  shape_nodes : total_nodes t <= SIZE_MAX;
  shape_threads_per_leaf : 1 <= threads_per_leaf t;
  shape_parents :
    forall (i : nat) (nd : node),
      (1 <= i)%nat -> others t !! i = Some nd ->
      parent nd = Some (parent_index (arity t) (Z.of_nat i))
}.

(** An event that a call on a tree of [n] nodes may produce: every subscript
    of the array is in [[1, n)]. *)
Definition legal (n : Z) (e : event) : Prop :=
  match e with
  | Touch i => 1 <= i < n
  | _ => True
  end.

(** [steps w w']: [w'] is reached from [w] by operations that keep the shape,
    consume the oracle and add legal events only. *)
Record steps (w w' : world) : Prop := {
  steps_arity : arity (tree w') = arity (tree w);
  steps_nodes : total_nodes (tree w') = total_nodes (tree w);
  steps_leaves : total_leaf_nodes (tree w') = total_leaf_nodes (tree w);
  steps_threads_per_leaf : threads_per_leaf (tree w') = threads_per_leaf (tree w);
  steps_threads : total_threads (tree w') = total_threads (tree w);
  steps_parents : parent <$> others (tree w') = parent <$> others (tree w);
  steps_oracle : (length (oracle w') <= length (oracle w))%nat;
  steps_trace :
    exists es : list event,
      trace w' = es ++ trace w /\ Forall (legal (total_nodes (tree w))) es
}.

(** The world with another object, with another node at index [i], with
    more events, with the oracle advanced by one. *)
Definition with_tree (w : world) (t : snzi) : world :=
  {| tree := t; trace := trace w; oracle := oracle w |}.

Definition with_node (w : world) (i : Z) (nd : node) : world :=
  with_tree w (set_others (tree w) (<[Z.to_nat i := nd]> (others (tree w)))).

Definition with_root (w : world) (x : Z) : world :=
  with_tree w (set_root (tree w) x).

Definition with_events (w : world) (es : list event) : world :=
  {| tree := tree w; trace := es ++ trace w; oracle := oracle w |}.

Definition with_oracle (w : world) (o : list bool) : world :=
  {| tree := tree w; trace := trace w; oracle := o |}.

(** A world on which the operations of a node can run: the object has its
    shape, arity [K] and [N] nodes, and fewer spurious failures are to come
    than [spin]. *)
Definition ready (K N : Z) (spin : nat) (w : world) : Prop :=
  shape (tree w) /\ arity (tree w) = K /\ total_nodes (tree w) = N /\
  (length (oracle w) < spin)%nat.

(** The counters of an object: the root's and the nodes'. *)
Record counters : Set := { c_root : Z; c_nodes : list Z }.

Definition abs (t : snzi) : counters :=
  {| c_root := root t; c_nodes := X <$> others t |}.

Definition count_at (c : counters) (i : Z) : Z := default 0 (c_nodes c !! Z.to_nat i).

Definition set_count (c : counters) (i x : Z) : counters :=
  {| c_root := c_root c; c_nodes := <[Z.to_nat i := x]> (c_nodes c) |}.

(** Every counter is a 64-bit value. *)
Definition ranged (c : counters) : Prop :=
  0 <= c_root c <= SIZE_MAX /\ Forall (fun x => 0 <= x <= SIZE_MAX) (c_nodes c).

(** What an arrival at node [i] (the root when [i = 0]) of a tree of arity
    [K] does to the counters when one thread runs alone: the parent is
    visited first when the counter of the node is zero. *)
Fixpoint abs_Arrive (K : Z) (fuel : nat) (i : Z) (c : counters) : counters :=
  if i =? 0 then {| c_root := wrap (c_root c + 1); c_nodes := c_nodes c |}
  else
    match fuel with
    | O => c
    | S fuel' =>
        let x := count_at c i in
        let c' := if x =? 0 then abs_Arrive K fuel' (parent_index K i) c else c in
        set_count c' i (wrap (x + 1))
    end.

(** What a departure from node [i] does: the parent is visited after the
    counter of the node went from one to zero. *)
Fixpoint abs_Depart (K : Z) (fuel : nat) (i : Z) (c : counters) : counters :=
  if i =? 0 then {| c_root := wrap (c_root c - 1); c_nodes := c_nodes c |}
  else
    match fuel with
    | O => c
    | S fuel' =>
        let x := count_at c i in
        let c' := set_count c i (wrap (x - 1)) in
        if x =? 1 then abs_Depart K fuel' (parent_index K i) c' else c'
    end.


(** The leaf of a thread, as [get_leaf_for_thread] computes it when nothing
    wraps around. *)
Definition leaf_of (t : snzi) (tid : Z) : Z :=
  total_nodes t - total_leaf_nodes t
  + (tid / threads_per_leaf t) mod total_leaf_nodes t.

(** The node where the calls of a thread enter the tree while its status
    sends it to the direct operations of the full variant: the root itself.
    In the two other variants it is the leaf of the thread. *)
Definition entry (v : variant) (t : snzi) (tid : Z) : Z :=
  match v with
  | full_contention_handling => 0
  | _ => leaf_of t tid
  end.

(** The tree of arity 2 and height 1 built for 4 threads, used in examples. *)
Definition example_tree : snzi :=
  {| arity := 2; total_nodes := 3; total_leaf_nodes := 2; threads_per_leaf := 2;
     total_threads := 4; root := 0;
     others := [ {| X := 0; announce := false; parent := None |};
                 {| X := 0; announce := false; parent := Some 0 |};
                 {| X := 0; announce := false; parent := Some 0 |} ] |}.

(** The status of a thread never goes back: a flag that is set stays set. *)
Definition status_le (c c' : contention_status) : Prop :=
  (use_snzi_in_arrive c = true -> use_snzi_in_arrive c' = true) /\
  (use_snzi_in_depart c = true -> use_snzi_in_depart c' = true) /\
  (use_snzi_tree_flag c = true -> use_snzi_tree_flag c' = true).

(** The number of failures that the next loop on a weak exchange meets, and
    the oracle after the loop. *)
Fixpoint failures (o : list bool) : nat :=
  match o with
  | true :: o' => S (failures o')
  | _ => O
  end.

Fixpoint settle (o : list bool) : list bool :=
  match o with
  | true :: o' => settle o'
  | false :: o' => o'
  | [] => []
  end.

(** The events of [n] calls of [backoff()] on the object [b], most recent first. *)
Fixpoint backoff_events (n : nat) (b : Backoff.exponential_backoff) : list event :=
  match n with
  | O => []
  | S n' => backoff_events n' (snd (Backoff.backoff b)) ++ fst (Backoff.backoff b)
  end.

End SnziSpec.

(** ** stamped_counter.hpp: the proxies [stamp_reference] and [counter_reference]

    A proxy holds a reference to the packed value of its [stamped_counter];
    every member function below is modelled by the value it leaves in that
    object (and by what it returns, when it returns one of the parts). *)

Module StampedReference.
Import Word StampedCounter.

(** The ten compound assignments that both proxies overload. *)
Inductive compound : Set :=
| op_add | op_sub | op_mul | op_div | op_mod
| op_and | op_or | op_xor | op_shl | op_shr.

(** [tmp op= x] on two [uint32_t]: the arithmetic is that of [unsigned int];
    a division by zero and a shift by 32 or more have undefined behaviour. *)
Definition apply_op (op : compound) (tmp x : Z) : result Z :=
  match op with
  | op_add => Ok (wrap32 (tmp + x))
  | op_sub => Ok (wrap32 (tmp - x))
  | op_mul => Ok (wrap32 (tmp * x))
  | op_div => if x =? 0 then Undefined else Ok (tmp / x)
  | op_mod => if x =? 0 then Undefined else Ok (tmp mod x)
  | op_and => Ok (Z.land tmp x)
  | op_or => Ok (Z.lor tmp x)
  | op_xor => Ok (Z.lxor tmp x)
  | op_shl => if x <? 32 then Ok (wrap32 (Z.shiftl tmp x)) else Undefined
  | op_shr => if x <? 32 then Ok (Z.shiftr tmp x) else Undefined
  end.

(** [stamp_reference::operator=(stamp_type)], lines 78-81. *)
Definition stamp_assign (s : Z) (sc : stamped_counter) : stamped_counter :=
  {| value := pack s (extract_counter (value sc)) |}.

(** [stamp_reference::operator=(const stamp_reference&)], lines 82-84. *)
Definition stamp_assign_from (other sc : stamped_counter) : stamped_counter :=
  stamp_assign (extract_stamp (value other)) sc.

(** [stamp_reference::get_stamp] and the conversion to [stamp_type], lines 86 and 91. *)
Definition get_stamp (sc : stamped_counter) : Z := extract_stamp (value sc).

(** [stamp_reference::operator+=(stamp_type)] and the nine others, lines 96-135:
    [tmp = extract_stamp(value); tmp op= stamp; *this = tmp]. *)
Definition stamp_compound (op : compound) (s : Z) (sc : stamped_counter)
    : result stamped_counter :=
  rbind (apply_op op (extract_stamp (value sc)) s) (fun tmp => Ok (stamp_assign tmp sc)).

(** The same operators with a [stamp_reference] on the right, lines 137-146. *)
Definition stamp_compound_from (op : compound) (other sc : stamped_counter)
    : result stamped_counter :=
  stamp_compound op (extract_stamp (value other)) sc.

(** [++r], [r++], [--r] and [r--] on a [stamp_reference], lines 151-166; the
    postfix forms return the old stamp. *)
Definition stamp_pre_increment (sc : stamped_counter) : result stamped_counter :=
  stamp_compound op_add 1 sc.

Definition stamp_post_increment (sc : stamped_counter) : result (Z * stamped_counter) :=
  let old := get_stamp sc in
  rbind (stamp_pre_increment sc) (fun sc' => Ok (old, sc')).

Definition stamp_pre_decrement (sc : stamped_counter) : result stamped_counter :=
  stamp_compound op_sub 1 sc.

Definition stamp_post_decrement (sc : stamped_counter) : result (Z * stamped_counter) :=
  let old := get_stamp sc in
  rbind (stamp_pre_decrement sc) (fun sc' => Ok (old, sc')).

(** [counter_reference::operator=(counter_type)], lines 195-198. *)
Definition counter_assign (c : Z) (sc : stamped_counter) : stamped_counter :=
  {| value := pack (extract_stamp (value sc)) c |}.

(** [counter_reference::operator=(const counter_reference&)], lines 199-201. *)
Definition counter_assign_from (other sc : stamped_counter) : stamped_counter :=
  counter_assign (extract_counter (value other)) sc.

(** [counter_reference::get_counter] and the conversion to [counter_type],
    lines 204 and 209. *)
Definition get_counter (sc : stamped_counter) : Z := extract_counter (value sc).

(** The compound assignments of [counter_reference], lines 214-264. *)
Definition counter_compound (op : compound) (c : Z) (sc : stamped_counter)
    : result stamped_counter :=
  rbind (apply_op op (extract_counter (value sc)) c) (fun tmp => Ok (counter_assign tmp sc)).

Definition counter_compound_from (op : compound) (other sc : stamped_counter)
    : result stamped_counter :=
  counter_compound op (extract_counter (value other)) sc.

(** [++r], [r++], [--r] and [r--] on a [counter_reference], lines 269-284. *)
Definition counter_pre_increment (sc : stamped_counter) : result stamped_counter :=
  counter_compound op_add 1 sc.

Definition counter_post_increment (sc : stamped_counter) : result (Z * stamped_counter) :=
  let old := get_counter sc in
  rbind (counter_pre_increment sc) (fun sc' => Ok (old, sc')).

Definition counter_pre_decrement (sc : stamped_counter) : result stamped_counter :=
  counter_compound op_sub 1 sc.

Definition counter_post_decrement (sc : stamped_counter) : result (Z * stamped_counter) :=
  let old := get_counter sc in
  rbind (counter_pre_decrement sc) (fun sc' => Ok (old, sc')).

(** [operator==] and [operator!=], lines 366-375. *)
Definition equal (lhs rhs : stamped_counter) : bool := value lhs =? value rhs.
Definition not_equal (lhs rhs : stamped_counter) : bool := negb (equal lhs rhs).

(** A packed value of the 64-bit type. *)
Definition valid (sc : stamped_counter) : Prop := 0 <= value sc < 2 ^ 64.

(** [n] times [++r]. *)
Fixpoint counter_increments (n : nat) (sc : stamped_counter) : result stamped_counter :=
  match n with
  | O => Ok sc
  | S n' => rbind (counter_pre_increment sc) (counter_increments n')
  end.

End StampedReference.

(** ** Histories of calls

    The definitions below are not in the sources: they describe the calls
    that a client has made (which arrivals are still to be matched by a
    departure) and the way the counters of the tree record them. *)

Module SnziHistory.
Import Word Snzi SnziSpec.

(** The counter of node [i], the root being node 0. *)
Definition node_count (c : counters) (i : Z) : Z :=
  if i =? 0 then c_root c else count_at c i.

(** The children of node [i] in the level-order layout that [parent]
    inverts: the nodes [K*i + 1], ..., [K*i + K]. *)
Definition children (K i : Z) : list Z :=
  map (fun j : nat => K * i + Z.of_nat j) (seq 1 (Z.to_nat K)).

(** How many nodes of [l] have a non-zero counter. *)
Fixpoint nonzero_among (c : counters) (l : list Z) : Z :=
  match l with
  | [] => 0
  | j :: l' => (if count_at c j =? 0 then 0 else 1) + nonzero_among c l'
  end.

(** [s] with [d] added at [i]. *)
Definition upd (s : Z -> Z) (i d : Z) : Z -> Z :=
  fun j => if j =? i then s j + d else s j.

(** The counters record the surplus [s] (the arrivals made at each node that
    no departure has matched yet): the counter of a node is its own surplus
    plus the number of its children whose counter is not zero; and no
    counter exceeds [n]. *)
Record counted (K n : Z) (s : Z -> Z) (c : counters) : Prop := {
  counted_surplus : forall i : Z, 0 <= s i;
  counted_nodes :
    forall i : Z,
      0 <= i < Z.of_nat (length (c_nodes c)) ->
      node_count c i = s i + nonzero_among c (children K i);
  counted_bound :
    forall i : Z, 0 <= i < Z.of_nat (length (c_nodes c)) -> node_count c i <= n
}.

(** The thread identifiers whose arrivals are outstanding. A departure of
    [tid] matches one outstanding arrival of [tid]; there is none to match
    when the history is not well formed ("a thread cannot call Depart unless
    it has previously called Arrive"). *)
Fixpoint remove_one (tid : Z) (out : list Z) : option (list Z) :=
  match out with
  | [] => None
  | t :: out' =>
      if t =? tid then Some out'
      else match remove_one tid out' with
           | Some r => Some (t :: r)
           | None => None
           end
  end.

Fixpoint outstanding (cs : list call) (out : list Z) : option (list Z) :=
  match cs with
  | [] => Some out
  | CallArrive tid :: cs' => outstanding cs' (tid :: out)
  | CallDepart tid :: cs' =>
      match remove_one tid out with
      | Some out' => outstanding cs' out'
      | None => None
      end
  | CallQuery :: cs' => outstanding cs' out
  end.

(** The numbers of arrivals and of departures in a history. *)
Fixpoint arrivals (cs : list call) : Z :=
  match cs with
  | [] => 0
  | CallArrive _ :: cs' => 1 + arrivals cs'
  | _ :: cs' => arrivals cs'
  end.

Fixpoint departures (cs : list call) : Z :=
  match cs with
  | [] => 0
  | CallDepart _ :: cs' => 1 + departures cs'
  | _ :: cs' => departures cs'
  end.

(** How many of the outstanding arrivals entered the tree at node [i]. *)
Fixpoint waiting (v : variant) (t : snzi) (out : list Z) (i : Z) : Z :=
  match out with
  | [] => 0
  | tid :: out' => (if entry v t tid =? i then 1 else 0) + waiting v t out' i
  end.

End SnziHistory.

Module SnziStatus.
Import Word Snzi SnziSpec.

(** The states that a [contention_status] goes through: the two switches
    [use_snzi_in_arrive] and [use_snzi_in_depart] are set together, and only
    once [use_snzi_tree_flag] is set. *)
Definition paired (c : contention_status) : Prop :=
  use_snzi_in_arrive c = use_snzi_in_depart c /\
  (use_snzi_in_arrive c = true -> use_snzi_tree_flag c = true).


End SnziStatus.

Module SnziExamples.
Import Word Snzi SnziSpec.

(** The tree of arity 2 and height 1 after thread 0 arrived once and
    thread 2 arrived twice. *)
Definition busy_tree : snzi :=
  {| arity := 2; total_nodes := 3; total_leaf_nodes := 2; threads_per_leaf := 2;
     total_threads := 4; root := 2;
     others := [ {| X := 0; announce := false; parent := None |};
                 {| X := 1; announce := true; parent := Some 0 |};
                 {| X := 2; announce := true; parent := Some 0 |} ] |}.

End SnziExamples.

Module SnziFlags.
Import Word Snzi SnziSpec.

(** An event that is a subscript of the node array: neither a [pause] nor
    a yield. *)
Definition is_touch (e : event) : Prop :=
  match e with
  | Touch _ => True
  | _ => False
  end.

(** From [w] to [w'] the thread only subscripted the array. *)
Definition quiet (w w' : world) : Prop :=
  exists es : list event, trace w' = es ++ trace w /\ Forall is_touch es.

(** The nodes between node [i] and the root, from the parent of [i]
    upwards; the root, which is not in the array, is left out. *)
Fixpoint ancestors (K : Z) (fuel : nat) (i : Z) : list Z :=
  match fuel with
  | O => []
  | S fuel' =>
      let p := parent_index K i in
      if p =? 0 then [] else p :: ancestors K fuel' p
  end.

(** From [w] to [w'] the thread subscripted the array at the first
    ancestors of [i], bottom-up, and left no other event. *)
Definition climb (K : Z) (fuel : nat) (i : Z) (w w' : world) : Prop :=
  exists k : nat,
    trace w' = rev (map Touch (take k (ancestors K fuel i))) ++ trace w.

(** The nodes on the way of thread [tid]: its leaf, then the ancestors of
    the leaf; none when the leaf is the root (a tree of height 0). *)
Definition path (t : snzi) (tid : Z) : list Z :=
  let leaf := leaf_of t tid in
  if leaf =? 0 then []
  else leaf :: ancestors (arity t) (length (others t)) leaf.

(** From [w] to [w'] the thread subscripted the array at the first nodes
    of its way, bottom-up, each one once, and left no other event. *)
Definition visited (tid : Z) (w w' : world) : Prop :=
  exists k : nat,
    trace w' = rev (map Touch (take k (path (tree w) tid))) ++ trace w.

(** The nodes of index at most [m] whose flag [announce] is set have a
    counter between 1 and [n] (and belong to a class that has the flag). *)
Definition flagged (ann : bool) (n m : Z) (w : world) : Prop :=
  forall (j : nat) (nd : node),
    Z.of_nat j <= m -> others (tree w) !! j = Some nd -> announce nd = true ->
    ann = true /\ 1 <= X nd <= n.

(** The nodes of index above [m] are the same in [w] and [w']. *)
Definition framed (m : Z) (w w' : world) : Prop :=
  forall j : nat, m < Z.of_nat j -> others (tree w') !! j = others (tree w) !! j.

End SnziFlags.

(** ** snzi_perf_eval_semi_contention.cpp

    The benchmark builds a [semi_contention_handling_snzi] for every
    parameter setting and every number of threads, and has each thread
    visit the object until a clock says stop. What the thread reads from
    outside the object (the start flag and the clock) is given by the list
    of the answers it gets. *)

Module PerfEval.
Import Word Snzi.

(** [num_threads], line 25, and the parameters [K] and [H] of [main],
    lines 50-51. *)
Definition num_threads : list Z := [1; 2; 3; 4; 5; 6; 7; 8].
Definition K_params : list Z := [2; 2; 2; 4].
Definition H_params : list Z := [0; 1; 2; 1].

(** [while (!flag.load()){}], line 129. *)
Fixpoint wait_for_flag (flag : list bool) : M unit :=
  match flag with
  | [] => out_of_fuel
  | true :: _ => ret tt
  | false :: flag' => wait_for_flag flag'
  end.

(** The loop of lines 133-139:
    [while (now() < end_time){ Arrive(id); Depart(id); Query(); ++visits; }];
    [id] is an [int] converted to [size_type], [visits] an [unsigned long]. *)
Fixpoint visit_loop (clock : list bool) (id visits : Z) : M Z :=
  match clock with
  | [] => out_of_fuel
  | false :: _ => ret visits
  | true :: clock' =>
      tree_Arrive true (wrap id) ;;;
      tree_Depart true (wrap id) ;;;
      Query ;;;
      visit_loop clock' id (wrap (visits + 1))
  end.

(** The lambda [thread_job], lines 122-140; it returns [visits]. *)
Definition thread_job (flag clock : list bool) (id : Z) : M Z :=
  wait_for_flag flag ;;; visit_loop clock id 0.

End PerfEval.

(** ** affinity.hpp *)

Module Affinity.

(** What a call of [affinity::operator()] does: the thread is bound to one
    core, [std::runtime_error] is thrown, an assertion fails, or (with the
    assertions compiled out) nothing happens. *)
Inductive outcome : Set :=
| Pinned (core : Z)
| RuntimeError
| AssertionFailure
| Nothing.

(** [operator()(int core, pthread_t id)], lines 17-25; [os core] tells
    whether [pthread_setaffinity_np] accepts the set that holds [core] alone. *)
Definition set_affinity (os : Z -> bool) (core : Z) : outcome :=
  if os core then Pinned core else RuntimeError.

(** [assert(0); break;] in a [default] branch. *)
Definition unreachable (ndebug : bool) : outcome :=
  if ndebug then Nothing else AssertionFailure.

(** [operator()(int num_threads, int id, pthread_t tid)], lines 28-194. *)
Definition assign (ndebug : bool) (os : Z -> bool) (num_threads id : Z) : outcome :=
  match num_threads with
  | 1 => if negb ndebug && negb (id =? 0) then AssertionFailure else set_affinity os 0
  | 2 =>
      match id with
      | 0 => set_affinity os 0
      | 1 => set_affinity os 4
      | _ => unreachable ndebug
      end
  | 3 =>
      match id with
      | 0 => set_affinity os 0
      | 1 => set_affinity os 2
      | 2 => set_affinity os 4
      | _ => unreachable ndebug
      end
  | 4 =>
      match id with
      | 0 => set_affinity os 0
      | 1 => set_affinity os 2
      | 2 => set_affinity os 4
      | 3 => set_affinity os 6
      | _ => unreachable ndebug
      end
  | 5 =>
      match id with
      | 0 => set_affinity os 0
      | 1 => set_affinity os 1
      | 2 => set_affinity os 2
      | 3 => set_affinity os 4
      | 4 => set_affinity os 6
      | _ => unreachable ndebug
      end
  | 6 =>
      match id with
      | 0 => set_affinity os 0
      | 1 => set_affinity os 1
      | 2 => set_affinity os 2
      | 3 => set_affinity os 4
      | 4 => set_affinity os 5
      | 5 => set_affinity os 6
      | _ => unreachable ndebug
      end
  | 7 =>
      match id with
      | 0 => set_affinity os 0
      | 1 => set_affinity os 1
      | 2 => set_affinity os 2
      | 3 => set_affinity os 3
      | 4 => set_affinity os 4
      | 5 => set_affinity os 5
      | 6 => set_affinity os 6
      | _ => unreachable ndebug
      end
  | 8 =>
      match id with
      | 0 => set_affinity os 0
      | 1 => set_affinity os 1
      | 2 => set_affinity os 2
      | 3 => set_affinity os 3
      | 4 => set_affinity os 4
      | 5 => set_affinity os 5
      | 6 => set_affinity os 6
      | 7 => set_affinity os 7
      | _ => unreachable ndebug
      end
  | _ => unreachable ndebug
  end.

(** The cores that the branches of the switch name, by number of threads
    and by thread identifier; used to reason on [assign]. *)
Definition core_table : list (list Z) :=
  [ [0]; [0; 4]; [0; 2; 4]; [0; 2; 4; 6]; [0; 1; 2; 4; 6]; [0; 1; 2; 4; 5; 6];
    [0; 1; 2; 3; 4; 5; 6]; [0; 1; 2; 3; 4; 5; 6; 7] ].

Definition core_of (num_threads id : Z) : Z :=
  nth (Z.to_nat id) (nth (Z.to_nat (num_threads - 1)) core_table []) 0.

End Affinity.

Module SnziRuns.
Import Word Snzi SnziSpec.

(** What a history does to the counters when every call enters the tree at
    the leaf of its thread. *)
Fixpoint abs_run (K : Z) (fuel : nat) (leaf : Z -> Z) (cs : list call) (c : counters)
    : counters :=
  match cs with
  | [] => c
  | CallArrive tid :: cs' => abs_run K fuel leaf cs' (abs_Arrive K fuel (leaf tid) c)
  | CallDepart tid :: cs' => abs_run K fuel leaf cs' (abs_Depart K fuel (leaf tid) c)
  | CallQuery :: cs' => abs_run K fuel leaf cs' c
  end.

End SnziRuns.

Module SnziAlternation.
Import Word Snzi SnziSpec SnziHistory.

(** Whether [tid] is among the threads of [inside]. *)
Definition is_inside (tid : Z) (inside : list Z) : bool := existsb (Z.eqb tid) inside.

(** The threads that are inside (arrived and not departed yet) after a
    history in which no thread arrives while it is inside, and no thread
    departs while it is not. *)
Fixpoint alternating (cs : list call) (inside : list Z) : option (list Z) :=
  match cs with
  | [] => Some inside
  | CallArrive tid :: cs' =>
      if is_inside tid inside then None else alternating cs' (tid :: inside)
  | CallDepart tid :: cs' =>
      match remove_one tid inside with
      | Some inside' => alternating cs' inside'
      | None => None
      end
  | CallQuery :: cs' => alternating cs' inside
  end.

(** The node where the calls of a thread enter the tree in the full class:
    the root until the status of the thread sends it to the leaf. *)
Definition entry_of (t : snzi) (st : statuses) (tid : Z) : Z :=
  if use_snzi_in_depart (st tid) then leaf_of t tid else 0.

(** How many threads of [inside] entered the tree at node [i]. *)
Fixpoint waiting_at (e : Z -> Z) (inside : list Z) (i : Z) : Z :=
  match inside with
  | [] => 0
  | tid :: inside' => (if e tid =? i then 1 else 0) + waiting_at e inside' i
  end.

End SnziAlternation.

(** * Theorems *)

Section StampedCounterFacts.
Import Word StampedCounter.

Lemma high_mask_eq : 0xFFFFFFFF00000000 = Z.shiftl (Z.ones 32) 32.
Proof. reflexivity. Qed.

Lemma low_mask_eq : 0x00000000FFFFFFFF = Z.ones 32.
Proof. reflexivity. Qed.

Lemma extract_counter_mod (v : Z) : extract_counter v = v mod 2 ^ 32.
Proof.
  unfold extract_counter, wrap32.
  rewrite low_mask_eq, Z.land_ones by lia.
  apply Z.mod_mod. lia.
Qed.

Lemma extract_stamp_div (v : Z) :
  0 <= v < 2 ^ 64 -> extract_stamp v = v / 2 ^ 32.
Proof.
  intros Hv. unfold extract_stamp, wrap32.
  rewrite high_mask_eq, Z.shiftr_land, Z.shiftr_shiftl_l by lia.
  replace (32 - 32) with 0 by lia.
  rewrite Z.shiftl_0_r, Z.land_ones, Z.shiftr_div_pow2 by lia.
  rewrite Z.mod_mod by lia.
  apply Z.mod_small. split.
  - apply Z.div_pos; lia.
  - apply Z.div_lt_upper_bound; lia.
Qed.

Lemma land_shifted_low (s c : Z) :
  0 <= c < 2 ^ 32 -> Z.land (Z.shiftl s 32) c = 0.
Proof.
  intros Hc. apply Z.bits_inj'. intros n Hn.
  rewrite Z.land_spec, Z.bits_0.
  destruct (Z.lt_ge_cases n 32) as [Hlt | Hge].
  - rewrite Z.shiftl_spec_low by lia. reflexivity.
  - destruct (Z.eq_dec c 0) as [-> | Hc0].
    + rewrite Z.bits_0. apply andb_false_r.
    + rewrite (Z.bits_above_log2 c n); [apply andb_false_r | lia |].
      assert (2 ^ 32 <= 2 ^ n) by (apply Z.pow_le_mono_r; lia).
      apply Z.log2_lt_pow2; lia.
Qed.

Lemma pack_add (s c : Z) :
  0 <= s < 2 ^ 32 -> 0 <= c < 2 ^ 32 -> pack s c = s * 2 ^ 32 + c.
Proof.
  intros Hs Hc. unfold pack, wrap.
  rewrite Z.shiftl_mul_pow2 by lia.
  rewrite Z.mod_small by lia.
  rewrite <- Z.shiftl_mul_pow2 by lia.
  rewrite <- Z.lxor_lor by (apply land_shifted_low; exact Hc).
  symmetry. apply Z.add_nocarry_lxor. apply land_shifted_low; exact Hc.
Qed.

(** C10. Packing and extraction are mutually inverse: a stamped counter
    built from a 32-bit stamp [s] and a 32-bit counter [c] gives back [s]
    and [c]; a stamped counter built from a 64-bit value [v] gives back [v],
    and [v] is the packing of its own stamp and counter. *)
Theorem stamped_counter_pack_extract_inverse :
  (forall s c : Z, 0 <= s < 2 ^ 32 -> 0 <= c < 2 ^ 32 ->
     stamp (make s c) = s /\ counter (make s c) = c) /\
  (forall v : Z, 0 <= v < 2 ^ 64 ->
     get_value (of_value v) = v /\
     v = pack (extract_stamp v) (extract_counter v)).
Proof.
  split.
  - intros s c Hs Hc. unfold stamp, counter, make; simpl.
    rewrite extract_counter_mod.
    rewrite extract_stamp_div by (rewrite pack_add by assumption; lia).
    rewrite pack_add by assumption. split.
    + rewrite Z.div_add_l by lia. rewrite Z.div_small by lia. lia.
    + rewrite Z.add_comm, Z.mod_add by lia. apply Z.mod_small; lia.
  - intros v Hv. split; [reflexivity |].
    rewrite extract_counter_mod, extract_stamp_div by assumption.
    rewrite pack_add.
    + rewrite (Z.div_mod v (2 ^ 32)) at 1 by lia. lia.
    + split; [apply Z.div_pos; lia | apply Z.div_lt_upper_bound; lia].
    + apply Z.mod_pos_bound. lia.
Qed.

Lemma stamped_counter_pack_extract_inverse_witness :
  (stamp (make 7 9) = 7 /\ counter (make 7 9) = 9) /\
  (get_value (of_value 0xDEADBEEF00C0FFEE) = 0xDEADBEEF00C0FFEE /\
   0xDEADBEEF00C0FFEE =
     pack (extract_stamp 0xDEADBEEF00C0FFEE) (extract_counter 0xDEADBEEF00C0FFEE)).
Proof.
  split.
  - apply (proj1 stamped_counter_pack_extract_inverse 7 9); lia.
  - apply (proj2 stamped_counter_pack_extract_inverse 0xDEADBEEF00C0FFEE); lia.
Defined.

End StampedCounterFacts.

Section BackoffFacts.
Import Word Backoff.

Lemma after_S (n : nat) (b : exponential_backoff) :
  after (S n) b = snd (backoff (after n b)).
Proof. reflexivity. Qed.

Lemma after_saturated (n : nat) :
  after (5 + n) fresh = {| tries := 32 |}.
Proof.
  induction n as [| n IH].
  - reflexivity.
  - replace (5 + S n)%nat with (S (5 + n)) by lia.
    rewrite after_S, IH. reflexivity.
Qed.

Lemma nth_call_fresh (n : nat) :
  nth_call n fresh =
    if (n <=? 4)%nat then repeat Pause (2 ^ n)%nat else [Yield].
Proof.
  destruct (Nat.leb_spec n 4) as [Hle | Hgt].
  - do 5 (destruct n as [| n]; [reflexivity |]). lia.
  - replace n with (5 + (n - 5))%nat by lia.
    unfold nth_call. rewrite after_saturated. reflexivity.
Qed.

Lemma pow2_le_16 (n : nat) : 2 ^ Z.of_nat n <= 16 <-> (n <= 4)%nat.
Proof.
  split; intros H.
  - destruct (Nat.le_gt_cases n 4) as [|Hgt]; [assumption |].
    assert (2 ^ 5 <= 2 ^ Z.of_nat n) by (apply Z.pow_le_mono_r; lia).
    lia.
  - change 16 with (2 ^ 4). apply Z.pow_le_mono_r; lia.
Qed.

(** C5 (as amended). The delay of [backoff()] doubles from 1 up to a cap of
    16: counted from a new object, calls 0 to 4 execute 1, 2, 4, 8 and 16
    pause instructions; every later call yields the thread instead; and
    [reset()] restores the delay to 1. *)
Theorem backoff_doubles_up_to_16_then_yields :
  doubles_up_to 16 fresh /\
  forall b : exponential_backoff, reset b = fresh /\ tries (reset b) = 1.
Proof.
  split.
  - intros n. rewrite nth_call_fresh. split; intros H.
    + apply pow2_le_16 in H.
      destruct (Nat.leb_spec n 4); [reflexivity | lia].
    + destruct (Nat.leb_spec n 4) as [Hle |]; [| reflexivity].
      apply pow2_le_16 in Hle. lia.
  - intros b. split; reflexivity.
Qed.

(** C5 as stated fails: with a cap of [2^16] call number 5 would execute
    32 pause instructions, and the code yields there. *)
Lemma backoff_cap_is_not_2_pow_16 : ~ doubles_up_to (2 ^ 16) fresh.
Proof.
  intros H. destruct (H 5%nat) as [Hpause _].
  assert (Hle : 2 ^ Z.of_nat 5 <= 2 ^ 16) by (vm_compute; discriminate).
  specialize (Hpause Hle). vm_compute in Hpause. discriminate.
Qed.

End BackoffFacts.

Section IndexingFacts.
Import Word Snzi.

Lemma wrap_small (z : Z) : 0 <= z <= SIZE_MAX -> wrap z = z.
Proof. unfold wrap, SIZE_MAX. intros H. apply Z.mod_small. lia. Qed.

Lemma wrap_range (z : Z) : 0 <= wrap z <= SIZE_MAX.
Proof.
  unfold wrap, SIZE_MAX.
  pose proof (Z.mod_pos_bound z (2 ^ 64) ltac:(lia)). lia.
Qed.

Lemma wrap_mul_l (a b : Z) : wrap (wrap a * b) = wrap (a * b).
Proof. unfold wrap. apply Z.mul_mod_idemp_l. lia. Qed.

Lemma pow_int_loop_spec (fuel : nat) :
  forall b e i acc : Z,
    1 <= i <= e + 1 -> e < SIZE_MAX -> 0 <= acc <= SIZE_MAX ->
    (Z.to_nat (e + 1 - i) <= fuel)%nat ->
    pow_int_loop fuel b e i acc = Ok (wrap (acc * b ^ (e + 1 - i))).
Proof.
  induction fuel as [| fuel IH]; intros b e i acc Hi He Hacc Hfuel.
  - assert (i = e + 1) as -> by lia. simpl.
    destruct (Z.leb_spec (e + 1) e) as [|_]; [lia |].
    replace (e + 1 - (e + 1)) with 0 by lia.
    rewrite Z.pow_0_r, Z.mul_1_r, wrap_small by assumption. reflexivity.
  - simpl. destruct (Z.leb_spec i e) as [Hle | Hgt].
    + rewrite (wrap_small (i + 1)) by (unfold SIZE_MAX in *; lia).
      rewrite IH; [| lia | assumption | apply wrap_range | lia].
      f_equal. rewrite wrap_mul_l.
      replace (e + 1 - i) with (Z.succ (e + 1 - (i + 1))) by lia.
      rewrite Z.pow_succ_r by lia. f_equal. ring.
    + assert (i = e + 1) as -> by lia.
      replace (e + 1 - (e + 1)) with 0 by lia.
      rewrite Z.pow_0_r, Z.mul_1_r, wrap_small by assumption. reflexivity.
Qed.

Lemma pow_int_spec (b e : Z) :
  0 <= e < SIZE_MAX -> pow_int b e = Ok (wrap (b ^ e)).
Proof.
  intros He. unfold pow_int.
  rewrite pow_int_loop_spec; [| lia | lia | unfold SIZE_MAX; lia | lia].
  do 2 f_equal. replace (e + 1 - 1) with e by lia. lia.
Qed.

Lemma pow_int_loop_no_throw (fuel : nat) :
  forall (b e i acc : Z) (x : exn), pow_int_loop fuel b e i acc <> Throw x.
Proof.
  induction fuel as [| fuel IH]; intros b e i acc x; simpl;
    destruct (i <=? e); try discriminate. apply IH.
Qed.

Lemma nodes_count_no_throw (K H : Z) (x : exn) : nodes_count K H <> Throw x.
Proof.
  unfold nodes_count. destruct (K =? 1); [discriminate |].
  unfold pow_int.
  destruct (pow_int_loop _ K _ 1 1) eqn:E; simpl; try discriminate.
  exfalso. exact (pow_int_loop_no_throw _ _ _ _ _ _ E).
Qed.

Lemma leaves_count_no_throw (K H : Z) (x : exn) : leaves_count K H <> Throw x.
Proof. unfold leaves_count, pow_int. apply pow_int_loop_no_throw. Qed.

Lemma to_size_t_no_throw (f : spec_float) (x : exn) : Double.to_size_t f <> Throw x.
Proof.
  destruct f as [s | s | | s m e]; simpl; try discriminate.
  destruct (_ && _); discriminate.
Qed.

Lemma level_start_succ (K : Z) (h : nat) :
  level_start K (S h) = level_start K h + K ^ Z.of_nat h.
Proof.
  induction h as [| h IH].
  - simpl. lia.
  - change (level_start K (S (S h))) with (1 + K * level_start K (S h)).
    rewrite IH at 1. change (level_start K (S h)) with (1 + K * level_start K h).
    rewrite Nat2Z.inj_succ, Z.pow_succ_r by lia. ring.
Qed.

Lemma level_start_geometric (K : Z) (h : nat) :
  (K - 1) * level_start K h = K ^ Z.of_nat h - 1.
Proof.
  induction h as [| h IH].
  - simpl. lia.
  - rewrite level_start_succ, Nat2Z.inj_succ, Z.pow_succ_r by lia.
    rewrite Z.mul_add_distr_l, IH. ring.
Qed.

Lemma level_start_quotient (K : Z) (h : nat) :
  2 <= K -> (K ^ Z.of_nat h - 1) / (K - 1) = level_start K h.
Proof.
  intros HK. rewrite <- level_start_geometric.
  rewrite Z.mul_comm. apply Z.div_mul. lia.
Qed.

Lemma level_start_nonneg (K : Z) (h : nat) : 0 <= K -> 0 <= level_start K h.
Proof. intros HK. induction h; simpl; nia. Qed.

Lemma level_start_lt_pow (K : Z) (h : nat) :
  2 <= K -> level_start K h < K ^ Z.of_nat h.
Proof.
  intros HK. pose proof (level_start_geometric K h).
  pose proof (level_start_nonneg K h ltac:(lia)).
  assert (0 < K ^ Z.of_nat h) by (apply Z.pow_pos_nonneg; lia).
  nia.
Qed.

Lemma parent_index_small (K i : Z) :
  1 <= i <= SIZE_MAX -> parent_index K i = (i - 1) / K.
Proof.
  intros Hi. unfold parent_index. rewrite wrap_small by lia. reflexivity.
Qed.

Lemma parent_index_level (K : Z) (h : nat) (i : Z) :
  2 <= K -> i <= SIZE_MAX ->
  level_start K (S h) <= i < level_start K (S (S h)) ->
  level_start K h <= parent_index K i < level_start K (S h).
Proof.
  intros HK Hmax Hi.
  pose proof (level_start_nonneg K h ltac:(lia)) as H0.
  change (level_start K (S (S h))) with (1 + K * level_start K (S h)) in Hi.
  change (level_start K (S h)) with (1 + K * level_start K h) in Hi |- *.
  rewrite parent_index_small by lia. split.
  - apply Z.div_le_lower_bound; lia.
  - apply Z.div_lt_upper_bound; lia.
Qed.

Lemma parent_index_iter_root (K : Z) (h : nat) :
  2 <= K ->
  forall i : Z, i <= SIZE_MAX ->
    level_start K h <= i < level_start K (S h) ->
    Nat.iter h (parent_index K) i = 0.
Proof.
  intros HK. induction h as [| h IH]; intros i Hmax Hi.
  - simpl in *. lia.
  - rewrite Nat.iter_succ_r.
    pose proof (parent_index_level K h i HK Hmax Hi) as Hp.
    apply IH; [| exact Hp].
    pose proof (level_start_nonneg K h ltac:(lia)).
    rewrite parent_index_small by (change (level_start K (S h)) with (1 + K * level_start K h) in Hi; lia).
    assert ((i - 1) / K <= i - 1); [| lia].
    apply Z.div_le_upper_bound; [lia |].
    change (level_start K (S h)) with (1 + K * level_start K h) in Hi. nia.
Qed.

Lemma pow_height_bound (K H : Z) :
  2 <= K -> 0 <= H -> K ^ (H + 1) <= 2 ^ 64 -> H < 64 /\ K ^ H < 2 ^ 64.
Proof.
  intros HK HH Hpow.
  assert (Hlt : H < 64).
  { destruct (Z.lt_ge_cases H 64) as [| Hge]; [assumption |].
    assert (2 ^ 65 <= 2 ^ (H + 1)) by (apply Z.pow_le_mono_r; lia).
    assert (2 ^ (H + 1) <= K ^ (H + 1)) by (apply Z.pow_le_mono_l; lia).
    lia. }
  split; [assumption |].
  replace (H + 1) with (Z.succ H) in Hpow by lia.
  rewrite Z.pow_succ_r in Hpow by lia.
  assert (0 < K ^ H) by (apply Z.pow_pos_nonneg; lia). nia.
Qed.

Lemma leaves_count_spec (K H : Z) :
  2 <= K -> 0 <= H -> K ^ (H + 1) <= 2 ^ 64 -> leaves_count K H = Ok (K ^ H).
Proof.
  intros HK HH Hpow. destruct (pow_height_bound K H HK HH Hpow) as [Hlt Hsmall].
  unfold leaves_count. rewrite pow_int_spec by (unfold SIZE_MAX; lia).
  rewrite wrap_small; [reflexivity |].
  assert (0 < K ^ H) by (apply Z.pow_pos_nonneg; lia). unfold SIZE_MAX. lia.
Qed.

Lemma nodes_count_spec (K H : Z) :
  2 <= K -> 0 <= H -> K ^ (H + 1) <= 2 ^ 64 ->
  nodes_count K H = Ok ((K ^ (H + 1) - 1) / (K - 1)).
Proof.
  intros HK HH Hpow. destruct (pow_height_bound K H HK HH Hpow) as [Hlt _].
  assert (HKmax : K <= 2 ^ 64).
  { assert (K ^ 1 <= K ^ (H + 1)) by (apply Z.pow_le_mono_r; lia). lia. }
  unfold nodes_count.
  destruct (Z.eqb_spec K 1) as [| _]; [lia |].
  rewrite (wrap_small (H + 1)) by (unfold SIZE_MAX; lia).
  rewrite pow_int_spec by (unfold SIZE_MAX; lia). simpl.
  rewrite (wrap_small (K - 1)) by (unfold SIZE_MAX; lia).
  do 2 f_equal.
  assert (0 < K ^ (H + 1)) by (apply Z.pow_pos_nonneg; lia).
  destruct (Z.eq_dec (K ^ (H + 1)) (2 ^ 64)) as [E | NE].
  - rewrite E. reflexivity.
  - rewrite (wrap_small (K ^ (H + 1))) by (unfold SIZE_MAX; lia).
    apply wrap_small. unfold SIZE_MAX. lia.
Qed.

(** C3 (as amended). For every [K >= 2] and [H >= 0] whose power [K^(H+1)]
    does not exceed [2^64] (no wrap-around of [size_type]):
    [nodes_count(K,H) = (K^(H+1) - 1)/(K - 1)], [leaves_count(K,H) = K^H],
    [parent(i) = (i - 1)/K] for every index [i >= 1], and [H] applications of
    [parent] lead from every leaf index to index 0. *)
Theorem indexing_identities (K H : Z) :
  2 <= K -> 0 <= H -> K ^ (H + 1) <= 2 ^ 64 ->
  nodes_count K H = Ok ((K ^ (H + 1) - 1) / (K - 1)) /\
  leaves_count K H = Ok (K ^ H) /\
  (forall i : Z, 1 <= i <= SIZE_MAX -> parent_index K i = (i - 1) / K) /\
  (forall leaf : Z,
     (K ^ (H + 1) - 1) / (K - 1) - K ^ H <= leaf < (K ^ (H + 1) - 1) / (K - 1) ->
     Nat.iter (Z.to_nat H) (parent_index K) leaf = 0).
Proof.
  intros HK HH Hpow.
  split; [apply nodes_count_spec; assumption |].
  split; [apply leaves_count_spec; assumption |].
  split; [intros i Hi; apply parent_index_small; exact Hi |].
  intros leaf Hleaf.
  replace (H + 1) with (Z.of_nat (S (Z.to_nat H))) in Hleaf, Hpow by lia.
  rewrite level_start_quotient in Hleaf by assumption.
  replace (K ^ H) with (K ^ Z.of_nat (Z.to_nat H)) in Hleaf
    by (f_equal; lia).
  pose proof (level_start_succ K (Z.to_nat H)) as Hs.
  pose proof (level_start_lt_pow K (S (Z.to_nat H)) HK).
  apply parent_index_iter_root; [assumption | unfold SIZE_MAX; lia | lia].
Qed.

Lemma indexing_identities_witness :
  nodes_count 3 2 = Ok ((3 ^ (2 + 1) - 1) / (3 - 1)) /\
  leaves_count 3 2 = Ok (3 ^ 2) /\
  (forall i : Z, 1 <= i <= SIZE_MAX -> parent_index 3 i = (i - 1) / 3) /\
  (forall leaf : Z,
     (3 ^ (2 + 1) - 1) / (3 - 1) - 3 ^ 2 <= leaf < (3 ^ (2 + 1) - 1) / (3 - 1) ->
     Nat.iter (Z.to_nat 2) (parent_index 3) leaf = 0).
Proof. apply (indexing_identities 3 2); lia. Defined.

(** C3 as stated fails where the power wraps around: [leaves_count(2, 64)]
    is [2^64 mod 2^64 = 0]. *)
Lemma leaves_count_wraps_around :
  2 <= 2 /\ 0 <= 64 /\ leaves_count 2 64 = Ok 0 /\ leaves_count 2 64 <> Ok (2 ^ 64).
Proof.
  split; [lia |]. split; [lia |].
  assert (E : leaves_count 2 64 = Ok 0) by (vm_compute; reflexivity).
  split; [exact E |]. rewrite E. discriminate.
Qed.

(** The scenario S6 of the specification. *)
Example scenario_S6 :
  nodes_count 3 2 = Ok 13 /\ leaves_count 3 2 = Ok 9 /\
  parent_index 3 12 = 3 /\ parent_index 3 3 = 0.
Proof. vm_compute. repeat split. Qed.

End IndexingFacts.

(** ** The double-precision computation of [threads_per_leaf] *)

Section DoubleFacts.
Import Word Double.

Lemma digits2_pos_bounds (p : positive) :
  2 ^ (Z.pos (digits2_pos p) - 1) <= Z.pos p < 2 ^ Z.pos (digits2_pos p).
Proof.
  induction p as [p IH | p IH |]; simpl digits2_pos.
  - rewrite Pos2Z.inj_succ, (Pos2Z.inj_xI p).
    replace (Z.succ (Z.pos (digits2_pos p)) - 1)
      with (Z.succ (Z.pos (digits2_pos p) - 1)) by lia.
    rewrite !Z.pow_succ_r by lia. lia.
  - rewrite Pos2Z.inj_succ, (Pos2Z.inj_xO p).
    replace (Z.succ (Z.pos (digits2_pos p)) - 1)
      with (Z.succ (Z.pos (digits2_pos p) - 1)) by lia.
    rewrite !Z.pow_succ_r by lia. lia.
  - simpl. lia.
Qed.

Lemma Zdigits2_unique (m d : Z) :
  0 < m -> 2 ^ (d - 1) <= m < 2 ^ d -> Zdigits2 m = d.
Proof.
  intros Hm Hd. destruct m as [| p | p]; try lia. simpl.
  pose proof (digits2_pos_bounds p) as Hp.
  assert (Hd1 : 1 <= d).
  { destruct (Z.lt_ge_cases d 1) as [Hlt |]; [| assumption].
    assert (2 ^ d <= 2 ^ 0) by (apply Z.pow_le_mono_r; lia). simpl in *. lia. }
  destruct (Z.lt_trichotomy (Z.pos (digits2_pos p)) d) as [Hlt | [Heq | Hgt]].
  - assert (2 ^ Z.pos (digits2_pos p) <= 2 ^ (d - 1)) by (apply Z.pow_le_mono_r; lia).
    lia.
  - assumption.
  - assert (2 ^ d <= 2 ^ (Z.pos (digits2_pos p) - 1)) by (apply Z.pow_le_mono_r; lia).
    lia.
Qed.

Lemma Zdigits2_bounds (m : Z) :
  0 < m -> 2 ^ (Zdigits2 m - 1) <= m < 2 ^ Zdigits2 m /\ 1 <= Zdigits2 m.
Proof.
  intros Hm. destruct m as [| p | p]; try lia. simpl.
  split; [apply digits2_pos_bounds | lia].
Qed.

Lemma shift_pos_mul (k p : positive) :
  Z.pos (Pos.iter xO p k) = Z.pos p * 2 ^ Z.pos k.
Proof.
  change (Pos.iter xO p k) with (shift_pos k p).
  rewrite shift_pos_correct, Z.pow_pos_fold. ring.
Qed.

Lemma shr_1_spec (m : Z) (r s : bool) :
  0 <= m ->
  shr_1 {| shr_m := m; shr_r := r; shr_s := s |} =
    {| shr_m := m / 2; shr_r := Z.odd m; shr_s := r || s |}.
Proof.
  intros Hm. rewrite <- Z.div2_div.
  destruct m as [| [p | p |] | p]; try lia; reflexivity.
Qed.

Lemma pow2_xO (k : positive) : 2 ^ Z.pos k~0 = 2 ^ Z.pos k * 2 ^ Z.pos k.
Proof. rewrite (Pos2Z.inj_xO k), <- Z.pow_add_r by lia. f_equal. lia. Qed.

Lemma pow2_xI (k : positive) : 2 ^ Z.pos k~1 = 2 * (2 ^ Z.pos k * 2 ^ Z.pos k).
Proof.
  rewrite (Pos2Z.inj_xI k), <- Z.pow_add_r, <- Z.pow_succ_r by lia. f_equal. lia.
Qed.

Lemma iter_shr_1_m (k : positive) :
  forall mrs : shr_record,
    0 <= shr_m mrs ->
    shr_m (SpecFloat.iter_pos shr_1 k mrs) = shr_m mrs / 2 ^ Z.pos k.
Proof.
  assert (Hone : forall mrs, 0 <= shr_m mrs ->
            shr_m (shr_1 mrs) = shr_m mrs / 2 /\ 0 <= shr_m (shr_1 mrs)).
  { intros [m r s] Hm. simpl in Hm. rewrite shr_1_spec by assumption. simpl.
    split; [reflexivity | apply Z.div_pos; lia]. }
  assert (Hpos : forall k' : positive, 0 < 2 ^ Z.pos k')
    by (intros k'; apply Z.pow_pos_nonneg; lia).
  induction k as [k IH | k IH |]; intros mrs Hm; simpl SpecFloat.iter_pos.
  - destruct (Hone mrs Hm) as [E1 P1]. specialize (Hpos k).
    assert (P2 : 0 <= shr_m (SpecFloat.iter_pos shr_1 k (shr_1 mrs))).
    { rewrite IH by assumption. apply Z.div_pos; lia. }
    rewrite IH by assumption. rewrite IH by assumption. rewrite E1.
    rewrite !Z.div_div by lia. rewrite pow2_xI. reflexivity.
  - specialize (Hpos k).
    assert (P2 : 0 <= shr_m (SpecFloat.iter_pos shr_1 k mrs)).
    { rewrite IH by assumption. apply Z.div_pos; lia. }
    rewrite IH by assumption. rewrite IH by assumption.
    rewrite !Z.div_div by lia. rewrite pow2_xO. reflexivity.
  - destruct (Hone mrs Hm) as [E1 _]. rewrite E1. reflexivity.
Qed.

Lemma round_nearest_even_cases (m : Z) (l : location) :
  round_nearest_even m l = m \/ round_nearest_even m l = m + 1.
Proof.
  destruct l as [| [| |]]; simpl; auto.
  destruct (Z.even m); auto.
Qed.

Lemma fexp_normal (x : Z) : -1021 <= x -> fexp prec emax x = x - 53.
Proof. unfold fexp, emin, prec, emax. lia. Qed.

(** Rounding a mantissa that the first shift brings to 53 digits. *)
Lemma binary_round_aux_normal (s : bool) (m e : Z) (l : location)
    (mrs : shr_record) (e' : Z) :
  shr_fexp prec emax m e l = (mrs, e') ->
  2 ^ 52 <= shr_m mrs < 2 ^ 53 -> -1074 <= e' <= 970 ->
  binary_round_aux prec emax s m e l =
    let m0 := round_nearest_even (shr_m mrs) (loc_of_shr_record mrs) in
    if m0 <? 2 ^ 53 then S754_finite s (Z.to_pos m0) e'
    else S754_finite s (Z.to_pos (2 ^ 52)) (e' + 1).
Proof.
  intros Hshr Hm He. unfold binary_round_aux. rewrite Hshr.
  set (m0 := round_nearest_even (shr_m mrs) (loc_of_shr_record mrs)).
  cbv zeta.
  assert (Hm0 : 2 ^ 52 <= m0 <= 2 ^ 53).
  { subst m0. destruct (round_nearest_even_cases (shr_m mrs) (loc_of_shr_record mrs)) as [-> | ->]; lia. }
  destruct (Z.ltb_spec m0 (2 ^ 53)) as [Hlt | Hge].
  - unfold shr_fexp.
    rewrite (Zdigits2_unique m0 53) by (simpl; lia).
    rewrite fexp_normal by lia.
    replace (53 + e' - 53 - e') with 0 by lia. simpl shr.
    destruct m0 as [| p | p] eqn:E; try lia.
    simpl. unfold prec, emax.
    destruct (Z.leb_spec e' (1024 - 53)); [reflexivity | lia].
  - assert (m0 = 2 ^ 53) as -> by lia.
    unfold shr_fexp.
    rewrite (Zdigits2_unique (2 ^ 53) 54) by (simpl; lia).
    rewrite fexp_normal by lia.
    replace (54 + e' - 53 - e') with 1 by lia. simpl.
    unfold prec, emax.
    destruct (Z.leb_spec (e' + 1) (1024 - 53)); [reflexivity | lia].
Qed.


(** [(double)n] is a normal float; it is exact below [2^53]. *)
Lemma of_size_t_spec (n : Z) :
  1 <= n < 2 ^ 64 ->
  exists (m : positive) (e : Z),
    of_size_t n = S754_finite false m e /\
    2 ^ 52 <= Z.pos m < 2 ^ 53 /\ -52 <= e <= 12 /\
    (n < 2 ^ 53 -> e <= 0 /\ Z.pos m = n * 2 ^ (- e)) /\
    (2 ^ 53 <= n -> 1 <= e).
Proof.
  intros Hn. destruct n as [| p | p]; try lia.
  unfold of_size_t, binary_normalize, binary_round.
  pose proof (digits2_pos_bounds p) as Hd.
  set (d := Z.pos (digits2_pos p)) in *.
  assert (Hd1 : 1 <= d <= 64).
  { split; [subst d; lia |].
    destruct (Z.lt_ge_cases 64 d) as [Hlt |]; [| lia].
    assert (2 ^ 64 <= 2 ^ (d - 1)) by (apply Z.pow_le_mono_r; lia). lia. }
  rewrite fexp_normal by lia.
  destruct (Z.le_gt_cases d 53) as [Hsmall | Hlarge].
  - (* exact *)
    assert (Hlt53 : Z.pos p < 2 ^ 53).
    { assert (2 ^ d <= 2 ^ 53) by (apply Z.pow_le_mono_r; lia). lia. }
    assert (Hal : exists mz, shl_align p 0 (d + 0 - 53) = (mz, d - 53) /\
                             Z.pos mz = Z.pos p * 2 ^ (53 - d)).
    { unfold shl_align. destruct (d + 0 - 53 - 0) as [| k | k] eqn:Ek; try lia.
      - exists p. split; [f_equal; lia |].
        replace (53 - d) with 0 by lia. lia.
      - exists (Pos.iter xO p k). split; [f_equal; lia |].
        rewrite shift_pos_mul. f_equal. f_equal. lia. }
    destruct Hal as (mz & -> & Hmz).
    assert (Hmzr : 2 ^ 52 <= Z.pos mz < 2 ^ 53).
    { rewrite Hmz.
      assert (E52 : 2 ^ 52 = 2 ^ (d - 1) * 2 ^ (53 - d))
        by (rewrite <- Z.pow_add_r by lia; f_equal; lia).
      assert (E53 : 2 ^ 53 = 2 ^ d * 2 ^ (53 - d))
        by (rewrite <- Z.pow_add_r by lia; f_equal; lia).
      rewrite E52, E53.
      assert (0 < 2 ^ (53 - d)) by (apply Z.pow_pos_nonneg; lia).
      split; [apply Z.mul_le_mono_nonneg_r; lia | apply Z.mul_lt_mono_pos_r; lia]. }
    rewrite (binary_round_aux_normal false (Z.pos mz) (d - 53) loc_Exact
               {| shr_m := Z.pos mz; shr_r := false; shr_s := false |} (d - 53)).
    + simpl. destruct (Z.ltb_spec (Z.pos mz) (2 ^ 53)) as [_ | ?]; [| lia].
      exists mz, (d - 53). split; [reflexivity |].
      split; [assumption |]. split; [lia |]. split.
      * intros _. split; [lia |]. rewrite Hmz. f_equal. f_equal. lia.
      * intros Hbig. lia.
    + unfold shr_fexp. rewrite (Zdigits2_unique (Z.pos mz) 53) by (simpl; lia).
      rewrite fexp_normal by lia.
      replace (53 + (d - 53) - 53 - (d - 53)) with 0 by lia. reflexivity.
    + simpl. assumption.
    + lia.
  - (* rounded *)
    assert (Hge53 : 2 ^ 53 <= Z.pos p).
    { assert (2 ^ 53 <= 2 ^ (d - 1)) by (apply Z.pow_le_mono_r; lia). lia. }
    assert (Hal : shl_align p 0 (d + 0 - 53) = (p, 0)).
    { unfold shl_align. destruct (d + 0 - 53 - 0) as [| k | k] eqn:Ek; try lia.
      reflexivity. }
    rewrite Hal.
    destruct (d - 53) as [| k | k] eqn:Ek; try lia.
    assert (Hshr : shr_fexp prec emax (Z.pos p) 0 loc_Exact =
                   (SpecFloat.iter_pos shr_1 k
                      {| shr_m := Z.pos p; shr_r := false; shr_s := false |}, Z.pos k)).
    { unfold shr_fexp. change (Zdigits2 (Z.pos p)) with d.
      rewrite fexp_normal by lia.
      replace (d + 0 - 53 - 0) with (Z.pos k) by lia. reflexivity. }
    assert (Hm1 : 2 ^ 52 <=
                  shr_m (SpecFloat.iter_pos shr_1 k
                           {| shr_m := Z.pos p; shr_r := false; shr_s := false |})
                  < 2 ^ 53).
    { rewrite iter_shr_1_m by (simpl; lia). simpl shr_m.
      assert (0 < 2 ^ Z.pos k) by (apply Z.pow_pos_nonneg; lia).
      assert (E1 : 2 ^ (d - 1) = 2 ^ 52 * 2 ^ Z.pos k)
        by (rewrite <- Z.pow_add_r by lia; f_equal; lia).
      assert (E2 : 2 ^ d = 2 ^ 53 * 2 ^ Z.pos k)
        by (rewrite <- Z.pow_add_r by lia; f_equal; lia).
      split.
      - apply Z.div_le_lower_bound; lia.
      - apply Z.div_lt_upper_bound; lia. }
    rewrite (binary_round_aux_normal false (Z.pos p) 0 loc_Exact _ _ Hshr Hm1)
      by lia.
    cbv zeta.
    match goal with |- context [round_nearest_even ?a ?b] =>
      set (m0 := round_nearest_even a b);
      assert (Hm0 : 2 ^ 52 <= m0 <= 2 ^ 53)
        by (subst m0; destruct (round_nearest_even_cases a b) as [-> | ->]; lia)
    end.
    destruct (Z.ltb_spec m0 (2 ^ 53)) as [Hlt | Hge].
    + exists (Z.to_pos m0), (Z.pos k).
      split; [reflexivity |]. rewrite Z2Pos.id by lia.
      split; [lia |]. split; [lia |]. split; [intros; lia | intros; lia].
    + exists (Z.to_pos (2 ^ 52)), (Z.pos k + 1).
      split; [reflexivity |].
      split; [simpl; lia |]. split; [lia |]. split; [intros; lia | intros; lia].
Qed.

Lemma new_location_spec (nb r : Z) :
  0 < nb -> 0 <= r < nb ->
  new_location nb r =
    if r =? 0 then loc_Exact else loc_Inexact (2 * r ?= nb).
Proof.
  intros Hnb Hr. unfold new_location, new_location_even, new_location_odd.
  destruct (Z.even nb) eqn:Ev; [reflexivity |].
  destruct (r =? 0); [reflexivity |]. f_equal.
  assert (Hodd : Z.odd nb = true) by (rewrite <- Z.negb_even, Ev; reflexivity).
  apply Z.odd_spec in Hodd. destruct Hodd as [c Hc].
  destruct (Z.compare_spec (2 * r + 1) nb); destruct (Z.compare_spec (2 * r) nb);
    try reflexivity; lia.
Qed.


Lemma shr_record_of_loc_m (m : Z) (l : location) :
  shr_m (shr_record_of_loc m l) = m.
Proof. destruct l as [| [| |]]; reflexivity. Qed.

Lemma loc_of_shr_record_of_loc (m : Z) (l : location) :
  loc_of_shr_record (shr_record_of_loc m l) = l.
Proof. destruct l as [| [| |]]; reflexivity. Qed.

Lemma div_eucl_div_mod (a b : Z) : Z.div_eucl a b = (a / b, a mod b).
Proof. unfold Z.div, Z.modulo. destruct (Z.div_eucl a b). reflexivity. Qed.

Lemma SFdiv_core_binary_normal (m1 m2 : positive) (e1 e2 : Z) :
  2 ^ 52 <= Z.pos m1 < 2 ^ 53 -> 2 ^ 52 <= Z.pos m2 < 2 ^ 53 ->
  -52 <= e1 <= 12 -> -52 <= e2 <= 12 ->
  SFdiv_core_binary prec emax (Z.pos m1) e1 (Z.pos m2) e2 =
    ((Z.pos m1 * 2 ^ 53) / Z.pos m2, e1 - e2 - 53,
     new_location (Z.pos m2) ((Z.pos m1 * 2 ^ 53) mod Z.pos m2)).
Proof.
  intros H1 H2 He1 He2. unfold SFdiv_core_binary.
  rewrite (Zdigits2_unique (Z.pos m1) 53), (Zdigits2_unique (Z.pos m2) 53)
    by (simpl; lia).
  rewrite fexp_normal by lia.
  rewrite Z.min_l by lia.
  replace (e1 - e2 - (53 + e1 - (53 + e2) - 53)) with 53 by lia.
  cbv iota. rewrite Z.shiftl_mul_pow2 by lia.
  rewrite div_eucl_div_mod. do 2 f_equal. lia.
Qed.

(** The quotient of two normal floats of moderate exponent: the mantissa
    before normalisation, [m0], is a nearest integer to the exact quotient
    scaled by [2^(-e0)]. *)
Lemma div_spec (m1 m2 : positive) (e1 e2 : Z) :
  2 ^ 52 <= Z.pos m1 < 2 ^ 53 -> 2 ^ 52 <= Z.pos m2 < 2 ^ 53 ->
  -52 <= e1 <= 12 -> -52 <= e2 <= 12 ->
  exists (m : positive) (e m0 e0 t : Z),
    div (S754_finite false m1 e1) (S754_finite false m2 e2) = S754_finite false m e /\
    2 ^ 52 <= Z.pos m < 2 ^ 53 /\
    (t = 0 \/ t = 1) /\ e0 = e1 - e2 - 53 + t /\
    0 < m0 <= 2 ^ 53 /\
    2 * Z.abs (m0 * 2 ^ t * Z.pos m2 - Z.pos m1 * 2 ^ 53) <= 2 ^ t * Z.pos m2 /\
    ((Z.pos m = m0 /\ e = e0) \/ (m0 = 2 ^ 53 /\ Z.pos m = 2 ^ 52 /\ e = e0 + 1)).
Proof.
  intros H1 H2 He1 He2. unfold div, SFdiv.
  rewrite SFdiv_core_binary_normal by assumption.
  set (a := Z.pos m1 * 2 ^ 53). set (b := Z.pos m2).
  assert (Hb : 0 < b) by (subst b; lia).
  pose proof (Z.div_mod a b ltac:(lia)) as Hdm.
  pose proof (Z.mod_pos_bound a b Hb) as Hr.
  set (q := a / b) in *. set (r := a mod b) in *.
  assert (Ha : 2 ^ 52 * 2 ^ 53 <= a < 2 ^ 53 * 2 ^ 53) by (subst a; lia).
  assert (Hq : 2 ^ 52 <= q < 2 ^ 54).
  { subst q. split.
    - apply Z.div_le_lower_bound; [lia |]. subst b. nia.
    - apply Z.div_lt_upper_bound; [lia |]. subst b. nia. }
  rewrite (new_location_spec b r) by lia.
  set (l := if r =? 0 then loc_Exact else loc_Inexact (2 * r ?= b)).
  simpl xorb.
  destruct (Z.lt_ge_cases q (2 ^ 53)) as [Hsmall | Hbig].
  - (* the quotient has 53 digits *)
    assert (Hshr : shr_fexp prec emax q (e1 - e2 - 53) l =
                   (shr_record_of_loc q l, e1 - e2 - 53)).
    { unfold shr_fexp. rewrite (Zdigits2_unique q 53) by (simpl; lia).
      rewrite fexp_normal by lia.
      replace (53 + (e1 - e2 - 53) - 53 - (e1 - e2 - 53)) with 0 by lia.
      reflexivity. }
    rewrite (binary_round_aux_normal false q _ l _ _ Hshr)
      by (rewrite ?shr_record_of_loc_m; lia).
    cbv zeta. rewrite shr_record_of_loc_m, loc_of_shr_record_of_loc.
    set (m0 := round_nearest_even q l).
    assert (Hm0 : (m0 = q \/ m0 = q + 1) /\ 2 * Z.abs (m0 * b - a) <= b).
    { subst m0 l. destruct (Z.eqb_spec r 0) as [Hr0 | Hr0]; simpl.
      - split; [auto | lia].
      - destruct (Z.compare_spec (2 * r) b) as [Hc | Hc | Hc]; simpl.
        + destruct (Z.even q); (split; [auto | lia]).
        + split; [auto | lia].
        + split; [auto | lia]. }
    destruct Hm0 as [Hm0 Hnear].
    destruct (Z.ltb_spec m0 (2 ^ 53)) as [Hlt | Hge].
    + exists (Z.to_pos m0), (e1 - e2 - 53), m0, (e1 - e2 - 53), 0.
      split; [reflexivity |]. split; [rewrite ?Z2Pos.id by lia; simpl; lia |].
      split; [auto |]. split; [lia |].
      split; [lia |]. split; [rewrite Z.pow_0_r; fold b; fold a; lia |].
      left. rewrite Z2Pos.id by lia. auto.
    + exists (Z.to_pos (2 ^ 52)), (e1 - e2 - 53 + 1), m0, (e1 - e2 - 53), 0.
      split; [reflexivity |]. split; [rewrite ?Z2Pos.id by lia; simpl; lia |].
      split; [auto |]. split; [lia |].
      split; [lia |]. split; [rewrite Z.pow_0_r; fold b; fold a; lia |].
      right. split; [lia |]. split; [reflexivity | lia].
  - (* the quotient has 54 digits *)
    assert (Hshr : shr_fexp prec emax q (e1 - e2 - 53) l =
                   (shr_1 (shr_record_of_loc q l), e1 - e2 - 53 + 1)).
    { unfold shr_fexp. rewrite (Zdigits2_unique q 54) by (simpl; lia).
      rewrite fexp_normal by lia.
      replace (54 + (e1 - e2 - 53) - 53 - (e1 - e2 - 53)) with 1 by lia.
      reflexivity. }
    pose proof (Z.div2_odd q) as Hpar. rewrite Z.div2_div in Hpar.
    assert (Hh : 2 ^ 52 <= q / 2 < 2 ^ 53).
    { split; [apply Z.div_le_lower_bound; lia | apply Z.div_lt_upper_bound; lia]. }
    set (h := q / 2) in *.
    assert (Hrec : shr_1 (shr_record_of_loc q l) =
                   {| shr_m := h; shr_r := Z.odd q; shr_s := negb (r =? 0) |}).
    { subst l. destruct (r =? 0); [| destruct (2 * r ?= b)]; simpl shr_record_of_loc;
        rewrite shr_1_spec by lia; reflexivity. }
    rewrite Hrec in Hshr.
    rewrite (binary_round_aux_normal false q _ l _ _ Hshr)
      by (simpl shr_m; lia).
    cbv zeta. simpl shr_m.
    match goal with |- context [round_nearest_even h ?x] =>
      set (m0 := round_nearest_even h x) end.
    assert (Hm0 : (m0 = h \/ m0 = h + 1) /\ 2 * Z.abs (m0 * 2 * b - a) <= 2 * b).
    { subst m0. destruct (Z.odd q); destruct (Z.eqb_spec r 0) as [Hr0 | Hr0];
        simpl in Hpar |- *.
      - destruct (Z.even h); (split; [auto | nia]).
      - split; [auto | nia].
      - split; [auto | nia].
      - split; [auto | nia]. }
    destruct Hm0 as [Hm0 Hnear].
    destruct (Z.ltb_spec m0 (2 ^ 53)) as [Hlt | Hge].
    + exists (Z.to_pos m0), (e1 - e2 - 53 + 1), m0, (e1 - e2 - 53 + 1), 1.
      split; [reflexivity |]. split; [rewrite ?Z2Pos.id by lia; simpl; lia |].
      split; [auto |]. split; [lia |].
      split; [lia |]. split; [rewrite Z.pow_1_r; fold b; fold a; lia |].
      left. rewrite Z2Pos.id by lia. auto.
    + exists (Z.to_pos (2 ^ 52)), (e1 - e2 - 53 + 1 + 1), m0, (e1 - e2 - 53 + 1), 1.
      split; [reflexivity |]. split; [rewrite ?Z2Pos.id by lia; simpl; lia |].
      split; [auto |]. split; [lia |].
      split; [lia |]. split; [rewrite Z.pow_1_r; fold b; fold a; lia |].
      right. split; [lia |]. split; [reflexivity | lia].
Qed.


(** The value [m * 2^e] rounded up to an integer. *)
Lemma ceil_value_normalised (e0 : Z) :
  (if 0 <=? e0 + 1 then 2 ^ 52 * 2 ^ (e0 + 1) else - (- 2 ^ 52 / 2 ^ (- (e0 + 1)))) =
  (if 0 <=? e0 then 2 ^ 53 * 2 ^ e0 else - (- 2 ^ 53 / 2 ^ (- e0))).
Proof.
  destruct (Z.leb_spec 0 (e0 + 1)) as [H1 | H1];
    destruct (Z.leb_spec 0 e0) as [H0 | H0]; try lia.
  - rewrite Z.pow_add_r by lia. change (2 ^ 53) with (2 ^ 52 * 2 ^ 1). ring.
  - assert (e0 = -1) as -> by lia. reflexivity.
  - f_equal. replace (- e0) with (1 + - (e0 + 1)) by lia.
    rewrite Z.pow_add_r by lia.
    change (- 2 ^ 53) with (2 ^ 1 * - 2 ^ 52).
    symmetry. apply Z.div_mul_cancel_l; [| lia].
    apply Z.pow_nonzero; lia.
Qed.

Lemma to_size_t_ceil (m : positive) (e : Z) :
  2 ^ 52 <= Z.pos m < 2 ^ 53 -> e <= 11 ->
  to_size_t (ceil (S754_finite false m e)) =
    Ok (if 0 <=? e then Z.pos m * 2 ^ e else - (- Z.pos m / 2 ^ (- e))).
Proof.
  intros Hm He. unfold ceil.
  destruct (Z.leb_spec 0 e) as [Hpos | Hneg].
  - unfold to_size_t. destruct (Z.leb_spec 0 e) as [_ |]; [| lia].
    assert (0 < 2 ^ e) by (apply Z.pow_pos_nonneg; lia).
    assert (2 ^ e <= 2 ^ 11) by (apply Z.pow_le_mono_r; lia).
    destruct (Z.leb_spec 0 (Z.pos m * 2 ^ e)); [| nia].
    destruct (Z.leb_spec (Z.pos m * 2 ^ e) SIZE_MAX); [reflexivity |].
    unfold SIZE_MAX in *. nia.
  - unfold ceil_finite. destruct (Z.leb_spec 0 e) as [| _]; [lia |].
    set (B := 2 ^ (- e)).
    assert (HB : 1 <= B) by (subst B; apply (Z.pow_le_mono_r 2 0); lia).
    set (c := - (- Z.pos m / B)).
    assert (Hc : 1 <= c <= Z.pos m).
    { subst c. split.
      - assert (- Z.pos m / B < 0) by (apply Z.div_lt_upper_bound; lia). lia.
      - assert (- Z.pos m <= - Z.pos m / B) by (apply Z.div_le_lower_bound; nia).
        lia. }
    change (binary_normalize prec emax c 0 false) with (of_size_t c).
    destruct (of_size_t_spec c ltac:(lia)) as (m' & e' & -> & Hm' & He' & Hex & _).
    destruct (Hex ltac:(lia)) as [He0 Hval].
    unfold to_size_t.
    assert (0 < 2 ^ (- e')) by (apply Z.pow_pos_nonneg; lia).
    assert (Et : (if 0 <=? e' then Z.pos m' * 2 ^ e' else Z.pos m' / 2 ^ (- e')) = c).
    { destruct (Z.leb_spec 0 e').
      - assert (e' = 0) as -> by lia. simpl in Hval. simpl. lia.
      - rewrite Hval. apply Z.div_mul. lia. }
    rewrite Et.
    destruct (Z.leb_spec 0 c); [| lia].
    destruct (Z.leb_spec c SIZE_MAX); [reflexivity | unfold SIZE_MAX in *; lia].
Qed.

Lemma ceil_of_nearest (T L A m0 : Z) :
  1 <= T -> 1 <= L -> 1 <= A -> L < 2 * A -> 0 < m0 ->
  2 * Z.abs (m0 * L - T * A) <= L ->
  - (- m0 / A) = (T + L - 1) / L.
Proof.
  intros HT HL HA HLA Hm0 Hnear.
  set (c := (T + L - 1) / L).
  assert (Hc : L * c <= T + L - 1 < L * c + L).
  { subst c. pose proof (Z.div_mod (T + L - 1) L ltac:(lia)).
    pose proof (Z.mod_pos_bound (T + L - 1) L ltac:(lia)). lia. }
  assert (Hup : m0 <= c * A).
  { destruct (Z.le_gt_cases m0 (c * A)) as [| Hgt]; [assumption |].
    assert (c * A + 1 <= m0) by lia.
    assert ((c * A + 1) * L <= m0 * L) by (apply Z.mul_le_mono_nonneg_r; lia).
    assert (T * A <= L * c * A) by (apply Z.mul_le_mono_nonneg_r; lia).
    lia. }
  assert (Hlo : (c - 1) * A < m0).
  { destruct (Z.lt_ge_cases ((c - 1) * A) m0) as [| Hge]; [assumption |].
    assert (m0 * L <= (c - 1) * A * L) by (apply Z.mul_le_mono_nonneg_r; lia).
    assert ((L * c - L + 1) * A <= T * A) by (apply Z.mul_le_mono_nonneg_r; lia).
    lia. }
  symmetry. apply Z.opp_inj. rewrite Z.opp_involutive.
  apply (Z.div_unique (- m0) A (- c) (c * A - m0)); lia.
Qed.

(** [threads_per_leaf] before the correction of zero: for [T] below [2^53]
    the double-precision computation returns the exact quotient rounded up. *)
Lemma threads_per_leaf_exact (T L : Z) :
  1 <= T < 2 ^ 53 -> 1 <= L < 2 ^ 64 ->
  to_size_t (ceil (div (of_size_t T) (of_size_t L))) = Ok ((T + L - 1) / L).
Proof.
  intros HT HL.
  destruct (of_size_t_spec T ltac:(lia)) as (m1 & e1 & -> & Hm1 & He1 & Hex1 & _).
  destruct (Hex1 ltac:(lia)) as [He1' Hv1].
  destruct (of_size_t_spec L HL) as (m2 & e2 & -> & Hm2 & He2 & Hex2 & Hbig2).
  destruct (div_spec m1 m2 e1 e2 Hm1 Hm2 He1 He2)
    as (m & e & m0 & e0 & t & -> & Hm & Ht & He0 & Hm0 & Hnear & Hnorm).
  rewrite to_size_t_ceil by (try assumption; lia).
  f_equal.
  assert (Hval : (if 0 <=? e then Z.pos m * 2 ^ e else - (- Z.pos m / 2 ^ (- e))) =
                 - (- m0 / 2 ^ (- e0))).
  { assert (He0' : e0 <= 0) by lia.
    assert (Hgen : (if 0 <=? e0 then m0 * 2 ^ e0 else - (- m0 / 2 ^ (- e0))) =
                   - (- m0 / 2 ^ (- e0))).
    { destruct (Z.leb_spec 0 e0); [| reflexivity].
      assert (e0 = 0) as -> by lia. simpl. rewrite Z.div_1_r. lia. }
    destruct Hnorm as [[-> ->] | (-> & -> & ->)]; [exact Hgen |].
    rewrite <- Hgen. apply ceil_value_normalised. }
  rewrite Hval.
  destruct (Z.lt_ge_cases L (2 ^ 53)) as [Hsmall | Hlarge].
  - destruct (Hex2 Hsmall) as [He2' Hv2].
    set (A := 2 ^ (- e0)).
    set (c := 2 ^ t * 2 ^ (- e2)).
    assert (Hc : 0 < c).
    { subst c. apply Z.mul_pos_pos; apply Z.pow_pos_nonneg; lia. }
    assert (HA : 0 < A) by (subst A; apply Z.pow_pos_nonneg; lia).
    assert (EAc : A * c = 2 ^ 53 * 2 ^ (- e1)).
    { subst A c. rewrite <- !Z.pow_add_r by lia. f_equal. lia. }
    apply ceil_of_nearest; try lia.
    + (* L < 2 * A *)
      assert (E2A : 2 * A * 2 ^ (- e2) = 2 ^ 53 * 2 ^ (1 - t - e1)).
      { subst A. change 2 with (2 ^ 1) at 1.
        rewrite <- !Z.pow_add_r by lia. f_equal. lia. }
      assert (1 <= 2 ^ (1 - t - e1)) by (apply (Z.pow_le_mono_r 2 0); lia).
      assert (0 < 2 ^ (- e2)) by (apply Z.pow_pos_nonneg; lia).
      assert (L * 2 ^ (- e2) < 2 * A * 2 ^ (- e2)) by nia.
      apply (Z.mul_lt_mono_pos_r (2 ^ (- e2))); assumption.
    + (* nearest *)
      assert (E : m0 * 2 ^ t * Z.pos m2 - Z.pos m1 * 2 ^ 53 = c * (m0 * L - T * A)).
      { rewrite Hv1, Hv2. subst c.
        replace (T * 2 ^ (- e1) * 2 ^ 53) with (T * (2 ^ 53 * 2 ^ (- e1))) by ring.
        rewrite <- EAc. ring. }
      rewrite E, Z.abs_mul, (Z.abs_eq c) in Hnear by lia.
      replace (2 ^ t * Z.pos m2) with (c * L) in Hnear by (rewrite Hv2; subst c; ring).
      apply (Z.mul_le_mono_pos_l _ _ c); [assumption |]. lia.
  - specialize (Hbig2 Hlarge).
    assert (HB : 2 ^ 53 <= 2 ^ (- e0)) by (apply Z.pow_le_mono_r; lia).
    assert (E1 : (T + L - 1) / L = 1).
    { symmetry. apply (Z.div_unique (T + L - 1) L 1 (T - 1)); lia. }
    rewrite E1. apply Z.opp_inj. rewrite Z.opp_involutive. symmetry.
    apply (Z.div_unique (- m0) (2 ^ (- e0)) (-1) (2 ^ (- e0) - m0)); lia.
Qed.

End DoubleFacts.

(** ** One thread on the tree: the operations and the counters *)

Section SequentialRuns.
Import Word Snzi SnziSpec.

Lemma wp_ret {A : Type} (a : A) (w : world) (Q : A -> world -> Prop) :
  Q a w -> wp (ret a) w Q.
Proof. intros HQ. exists a, w. split; [reflexivity | exact HQ]. Qed.

Lemma wp_bind {A B : Type} (m : M A) (k : A -> M B) (w : world)
    (Q : B -> world -> Prop) :
  wp m w (fun a w' => wp (k a) w' Q) -> wp (bind m k) w Q.
Proof.
  intros (a & w' & Hm & b & w'' & Hk & HQ).
  exists b, w''. split; [| exact HQ]. unfold bind. rewrite Hm. exact Hk.
Qed.

Lemma wp_mono {A : Type} (m : M A) (w : world) (Q Q' : A -> world -> Prop) :
  wp m w Q -> (forall a w', Q a w' -> Q' a w') -> wp m w Q'.
Proof. intros (a & w' & Hm & HQ) H. exists a, w'. auto. Qed.

Lemma wp_seq {A B : Type} (m : M A) (k : A -> M B) (w : world)
    (R : A -> world -> Prop) (Q : B -> world -> Prop) :
  wp m w R -> (forall a w', R a w' -> wp (k a) w' Q) -> wp (bind m k) w Q.
Proof. intros Hm Hk. apply wp_bind. exact (wp_mono m w R _ Hm Hk). Qed.

Lemma wp_get_tree (w : world) (Q : snzi -> world -> Prop) :
  Q (tree w) w -> wp get_tree w Q.
Proof. intros HQ. exists (tree w), w. auto. Qed.

Lemma wp_emit (es : list event) (w : world) (Q : unit -> world -> Prop) :
  Q tt (with_events w es) -> wp (emit es) w Q.
Proof. intros HQ. exists tt, (with_events w es). auto. Qed.

Lemma wp_flip (w : world) (Q : bool -> world -> Prop) :
  Q (hd false (oracle w)) (with_oracle w (tl (oracle w))) -> wp flip w Q.
Proof.
  intros HQ. unfold wp, flip. destruct w as [t tr [| b o]]; simpl in *; eauto.
Qed.

Lemma wp_subscript (i : Z) (w : world) (Q : unit -> world -> Prop) :
  i < Z.of_nat (length (others (tree w))) ->
  Q tt (with_events w [Touch i]) -> wp (subscript i) w Q.
Proof.
  intros Hi HQ. unfold subscript. apply wp_bind, wp_get_tree.
  destruct (Z.ltb_spec i (Z.of_nat (length (others (tree w))))); [| lia].
  apply wp_emit. exact HQ.
Qed.

Lemma wp_get_node (i : Z) (nd : node) (w : world) (Q : node -> world -> Prop) :
  others (tree w) !! Z.to_nat i = Some nd -> Q nd w -> wp (get_node i) w Q.
Proof.
  intros Hnd HQ. unfold get_node. apply wp_bind, wp_get_tree.
  rewrite Hnd. apply wp_ret. exact HQ.
Qed.

Lemma wp_put_node (i : Z) (nd : node) (w : world) (Q : unit -> world -> Prop) :
  Q tt (with_node w i nd) -> wp (put_node i nd) w Q.
Proof.
  intros HQ. unfold put_node. apply wp_bind, wp_get_tree.
  exists tt, (with_node w i nd). auto.
Qed.

Lemma wp_load_X (i : Z) (nd : node) (w : world) (Q : Z -> world -> Prop) :
  others (tree w) !! Z.to_nat i = Some nd -> Q (X nd) w -> wp (load_X i) w Q.
Proof.
  intros Hnd HQ. unfold load_X. apply wp_bind, (wp_get_node i nd); [exact Hnd |].
  apply wp_ret. exact HQ.
Qed.

Lemma wp_load_announce (i : Z) (nd : node) (w : world) (Q : bool -> world -> Prop) :
  others (tree w) !! Z.to_nat i = Some nd -> Q (announce nd) w ->
  wp (load_announce i) w Q.
Proof.
  intros Hnd HQ. unfold load_announce.
  apply wp_bind, (wp_get_node i nd); [exact Hnd |]. apply wp_ret. exact HQ.
Qed.

Lemma wp_load_parent (i p : Z) (nd : node) (w : world) (Q : Z -> world -> Prop) :
  others (tree w) !! Z.to_nat i = Some nd -> parent nd = Some p -> Q p w ->
  wp (load_parent i) w Q.
Proof.
  intros Hnd Hp HQ. unfold load_parent.
  apply wp_bind, (wp_get_node i nd); [exact Hnd |]. rewrite Hp.
  apply wp_ret. exact HQ.
Qed.

Lemma wp_store_X (i x : Z) (nd : node) (w : world) (Q : unit -> world -> Prop) :
  others (tree w) !! Z.to_nat i = Some nd ->
  Q tt (with_node w i {| X := x; announce := announce nd; parent := parent nd |}) ->
  wp (store_X i x) w Q.
Proof.
  intros Hnd HQ. unfold store_X. apply wp_bind, (wp_get_node i nd); [exact Hnd |].
  apply wp_put_node. exact HQ.
Qed.

Lemma wp_store_announce (i : Z) (a : bool) (nd : node) (w : world)
    (Q : unit -> world -> Prop) :
  others (tree w) !! Z.to_nat i = Some nd ->
  Q tt (with_node w i {| X := X nd; announce := a; parent := parent nd |}) ->
  wp (store_announce i a) w Q.
Proof.
  intros Hnd HQ. unfold store_announce.
  apply wp_bind, (wp_get_node i nd); [exact Hnd |]. apply wp_put_node. exact HQ.
Qed.

Lemma wp_root_load (w : world) (Q : Z -> world -> Prop) :
  Q (root (tree w)) w -> wp root_load w Q.
Proof.
  intros HQ. unfold root_load. apply wp_bind, wp_get_tree, wp_ret. exact HQ.
Qed.

Lemma wp_root_store (x : Z) (w : world) (Q : unit -> world -> Prop) :
  Q tt (with_root w x) -> wp (root_store x) w Q.
Proof.
  intros HQ. unfold root_store. apply wp_bind, wp_get_tree.
  exists tt, (with_root w x). auto.
Qed.

(** *** The relation [steps] *)

Lemma steps_refl (w : world) : steps w w.
Proof.
  constructor; try reflexivity. exists []. split; [reflexivity | constructor].
Qed.

Lemma steps_trans (w1 w2 w3 : world) : steps w1 w2 -> steps w2 w3 -> steps w1 w3.
Proof.
  intros [a1 n1 l1 r1 t1 p1 o1 (es1 & E1 & F1)] [a2 n2 l2 r2 t2 p2 o2 (es2 & E2 & F2)].
  constructor; try congruence; try lia.
  exists (es2 ++ es1). split.
  - rewrite E2, E1, app_assoc. reflexivity.
  - apply Forall_app. split; [rewrite <- n1; exact F2 | exact F1].
Qed.

Lemma steps_with_node (w : world) (i : Z) (nd nd' : node) :
  others (tree w) !! Z.to_nat i = Some nd -> parent nd' = parent nd ->
  steps w (with_node w i nd').
Proof.
  intros Hnd Hp. constructor; try reflexivity; simpl.
  - rewrite list_fmap_insert, Hp. apply list_insert_id.
    rewrite list_lookup_fmap, Hnd. reflexivity.
  - exists []. split; [reflexivity | constructor].
Qed.

Lemma steps_with_root (w : world) (x : Z) : steps w (with_root w x).
Proof.
  constructor; try reflexivity. exists []. split; [reflexivity | constructor].
Qed.

Lemma steps_with_oracle_tl (w : world) : steps w (with_oracle w (tl (oracle w))).
Proof.
  constructor; try reflexivity; simpl.
  - destruct (oracle w); simpl; lia.
  - exists []. split; [reflexivity | constructor].
Qed.

Lemma steps_with_events (w : world) (es : list event) :
  Forall (legal (total_nodes (tree w))) es -> steps w (with_events w es).
Proof.
  intros Hes. constructor; try reflexivity. exists es. split; [reflexivity | exact Hes].
Qed.

Lemma steps_length (w w' : world) :
  steps w w' -> length (others (tree w')) = length (others (tree w)).
Proof.
  intros H. pose proof (steps_parents _ _ H) as Hp.
  apply (f_equal length) in Hp. rewrite !length_fmap in Hp. exact Hp.
Qed.

Lemma steps_shape (w w' : world) : steps w w' -> shape (tree w) -> shape (tree w').
Proof.
  intros Hs [Ha Hl Hv Hn Ht Hp].
  pose proof (steps_length _ _ Hs) as Hlen.
  destruct Hs as [a n l r t p o _].
  constructor; try (rewrite ?a, ?n, ?l, ?r, ?Hlen; assumption).
  intros i nd Hi Hnd. rewrite a.
  assert (Hpar : (parent <$> others (tree w')) !! i = Some (parent nd))
    by (rewrite list_lookup_fmap, Hnd; reflexivity).
  rewrite p, list_lookup_fmap in Hpar.
  destruct (others (tree w) !! i) as [nd0 |] eqn:E0; [| discriminate].
  simpl in Hpar. injection Hpar as <-. exact (Hp i nd0 Hi E0).
Qed.

Lemma steps_lookup (w w' : world) (i : nat) (nd : node) :
  steps w w' -> others (tree w) !! i = Some nd ->
  exists nd', others (tree w') !! i = Some nd' /\ parent nd' = parent nd.
Proof.
  intros Hs Hnd. pose proof (steps_parents _ _ Hs) as Hp.
  assert (Hpar : (parent <$> others (tree w)) !! i = Some (parent nd))
    by (rewrite list_lookup_fmap, Hnd; reflexivity).
  rewrite <- Hp, list_lookup_fmap in Hpar.
  destruct (others (tree w') !! i) as [nd' |]; [| discriminate].
  simpl in Hpar. injection Hpar as E. eauto.
Qed.

(** *** The counters of a world *)

Lemma abs_with_node (w : world) (i : Z) (nd' : node) :
  abs (tree (with_node w i nd')) = set_count (abs (tree w)) i (X nd').
Proof. unfold abs, set_count. simpl. rewrite list_fmap_insert. reflexivity. Qed.

Lemma abs_with_node_same (w : world) (i : Z) (nd nd' : node) :
  others (tree w) !! Z.to_nat i = Some nd -> X nd' = X nd ->
  abs (tree (with_node w i nd')) = abs (tree w).
Proof.
  intros Hnd HX. rewrite abs_with_node. unfold set_count, abs. simpl. f_equal.
  apply list_insert_id. rewrite list_lookup_fmap, Hnd, HX. reflexivity.
Qed.

Lemma count_at_abs (w : world) (i : Z) (nd : node) :
  others (tree w) !! Z.to_nat i = Some nd -> count_at (abs (tree w)) i = X nd.
Proof.
  intros Hnd. unfold count_at, abs. simpl. rewrite list_lookup_fmap, Hnd.
  reflexivity.
Qed.


(** *** The exchanges and the loops on them *)

Lemma wp_node_cas_weak (i expected desired : Z) (nd : node) (w : world)
    (Q : bool * Z -> world -> Prop) :
  others (tree w) !! Z.to_nat i = Some nd -> X nd = expected ->
  (hd false (oracle w) = true ->
   Q (false, expected) (with_oracle w (tl (oracle w)))) ->
  (hd false (oracle w) = false ->
   Q (true, expected)
     (with_node (with_oracle w (tl (oracle w))) i
        {| X := desired; announce := announce nd; parent := parent nd |})) ->
  wp (node_cas_weak i expected desired) w Q.
Proof.
  intros Hnd HX Hfail Hok. unfold node_cas_weak.
  apply wp_bind, wp_flip.
  apply wp_bind, (wp_load_X i nd); [exact Hnd |].
  rewrite HX, Z.eqb_refl, andb_true_r.
  destruct (hd false (oracle w)); simpl.
  - apply wp_ret. auto.
  - apply wp_bind, (wp_store_X i desired nd); [exact Hnd |].
    apply wp_ret. auto.
Qed.

Lemma wp_node_cas_strong (i expected desired : Z) (nd : node) (w : world)
    (Q : bool * Z -> world -> Prop) :
  others (tree w) !! Z.to_nat i = Some nd -> X nd = expected ->
  Q (true, expected)
    (with_node w i {| X := desired; announce := announce nd; parent := parent nd |}) ->
  wp (node_cas_strong i expected desired) w Q.
Proof.
  intros Hnd HX HQ. unfold node_cas_strong.
  apply wp_bind, (wp_load_X i nd); [exact Hnd |].
  rewrite HX, Z.eqb_refl.
  apply wp_bind, (wp_store_X i desired nd); [exact Hnd |].
  apply wp_ret. exact HQ.
Qed.

Lemma wp_root_cas_weak (expected desired : Z) (w : world)
    (Q : bool * Z -> world -> Prop) :
  root (tree w) = expected ->
  (hd false (oracle w) = true ->
   Q (false, expected) (with_oracle w (tl (oracle w)))) ->
  (hd false (oracle w) = false ->
   Q (true, expected) (with_root (with_oracle w (tl (oracle w))) desired)) ->
  wp (root_cas_weak expected desired) w Q.
Proof.
  intros HX Hfail Hok. unfold root_cas_weak.
  apply wp_bind, wp_flip. apply wp_bind, wp_root_load. simpl.
  rewrite HX, Z.eqb_refl, andb_true_r.
  destruct (hd false (oracle w)); simpl.
  - apply wp_ret. auto.
  - apply wp_bind, wp_root_store. apply wp_ret. auto.
Qed.

Lemma wp_do_backoff (b : Backoff.exponential_backoff) (w : world)
    (Q : Backoff.exponential_backoff -> world -> Prop) :
  Q (snd (Backoff.backoff b)) (with_events w (fst (Backoff.backoff b))) ->
  wp (do_backoff b) w Q.
Proof.
  intros HQ. unfold do_backoff. destruct (Backoff.backoff b) as [es b'].
  apply wp_bind, wp_emit. apply wp_ret. exact HQ.
Qed.

Lemma backoff_legal (n : Z) (b : Backoff.exponential_backoff) :
  Forall (legal n) (fst (Backoff.backoff b)).
Proof.
  unfold Backoff.backoff. destruct (_ <=? _); simpl.
  - unfold Backoff.spin. induction (Z.to_nat (Backoff.tries b)); simpl;
      constructor; simpl; auto.
  - repeat constructor.
Qed.

(** The loop of [Depart] leaves with the counter decremented. *)
Lemma Depart_loop_spec (ann : bool) (i : Z) (spin : nat) :
  forall (w : world) (nd : node),
    others (tree w) !! Z.to_nat i = Some nd ->
    (length (oracle w) < spin)%nat ->
    wp (Depart_loop ann spin i (X nd)) w
       (fun r w' => r = X nd /\ steps w w' /\
                    abs (tree w') = set_count (abs (tree w)) i (wrap (X nd - 1))).
Proof.
  induction spin as [| spin IH]; intros w nd Hnd Hspin; [lia |].
  simpl Depart_loop. destruct ann; simpl andb.
  - (* the flag is cleared, the exchange is strong *)
    set (nd0 := if X nd =? 1
                then {| X := X nd; announce := false; parent := parent nd |}
                else nd).
    set (w0 := if X nd =? 1 then with_node w i nd0 else w).
    assert (Hw0 : others (tree w0) !! Z.to_nat i = Some nd0 /\ steps w w0 /\
                  abs (tree w0) = abs (tree w) /\ X nd0 = X nd /\ parent nd0 = parent nd).
    { subst w0 nd0. destruct (X nd =? 1).
      - split; [| split; [| split; [| split]]]; try reflexivity.
        + simpl. apply list_lookup_insert_eq. eapply lookup_lt_Some; eassumption.
        + apply (steps_with_node w i nd); [assumption | reflexivity].
        + apply (abs_with_node_same w i nd); [assumption | reflexivity].
      - split; [assumption |]. split; [apply steps_refl |]. auto. }
    destruct Hw0 as (Hnd0 & Hs0 & Ha0 & HX0 & Hp0).
    apply (wp_seq _ _ _ (fun _ w' => w' = w0)).
    { subst w0 nd0. destruct (X nd =? 1).
      - apply (wp_store_announce i false nd); [assumption | reflexivity].
      - apply wp_ret. reflexivity. }
    intros _ w' ->.
    apply wp_bind, (wp_node_cas_strong i (X nd) _ nd0); [assumption | assumption |].
    apply wp_ret. split; [reflexivity |]. split.
    + eapply steps_trans; [exact Hs0 |].
      apply (steps_with_node w0 i nd0); [assumption | reflexivity].
    + rewrite abs_with_node, Ha0. reflexivity.
  - (* the exchange is weak *)
    apply wp_bind, wp_ret.
    apply wp_bind, (wp_node_cas_weak i (X nd) _ nd); [assumption | reflexivity | |].
    + intros Hfail.
      assert (Hlen : (length (oracle (with_oracle w (tl (oracle w)))) < spin)%nat).
      { simpl. destruct (oracle w); simpl in *; [discriminate | lia]. }
      eapply wp_mono; [apply (IH _ nd); [exact Hnd | exact Hlen] |].
      intros r w' (Hr & Hs & Ha). split; [exact Hr |]. split.
      * eapply steps_trans; [apply steps_with_oracle_tl | exact Hs].
      * exact Ha.
    + intros _. apply wp_ret. split; [reflexivity |]. split.
      * eapply steps_trans; [apply steps_with_oracle_tl |].
        apply (steps_with_node _ i nd); [assumption | reflexivity].
      * rewrite abs_with_node. reflexivity.
Qed.

(** The loop of [Arrive] once the parent has been visited, or when the
    counter is not zero: it leaves with the counter incremented. *)
Lemma Arrive_loop_settled (ann : bool) (pa : M unit) (i : Z) (spin : nat) :
  forall (w : world) (nd : node) (pArrInv : bool),
    others (tree w) !! Z.to_nat i = Some nd ->
    (X nd =? 0) && negb pArrInv = false ->
    (length (oracle w) < spin)%nat ->
    wp (Arrive_loop ann pa spin i pArrInv (X nd)) w
       (fun r w' => r = (pArrInv, X nd) /\ steps w w' /\
                    abs (tree w') = set_count (abs (tree w)) i (wrap (X nd + 1))).
Proof.
  induction spin as [| spin IH]; intros w nd pArrInv Hnd Hcond Hspin; [lia |].
  simpl Arrive_loop. unfold Arrive_body. rewrite Hcond.
  apply wp_bind, wp_ret.
  apply wp_bind, (wp_node_cas_weak i (X nd) _ nd); [assumption | reflexivity | |].
  - intros Hfail.
    assert (Hlen : (length (oracle (with_oracle w (tl (oracle w)))) < spin)%nat).
    { simpl. destruct (oracle w); simpl in *; [discriminate | lia]. }
    eapply wp_mono; [apply (IH _ nd pArrInv); [exact Hnd | exact Hcond | exact Hlen] |].
    intros r w' (Hr & Hs & Ha). split; [exact Hr |]. split.
    + eapply steps_trans; [apply steps_with_oracle_tl | exact Hs].
    + exact Ha.
  - intros _. apply wp_ret. split; [reflexivity |]. split.
    + eapply steps_trans; [apply steps_with_oracle_tl |].
      apply (steps_with_node _ i nd); [assumption | reflexivity].
    + rewrite abs_with_node. reflexivity.
Qed.

Lemma with_events_nil (w : world) : with_events w [] = w.
Proof. destruct w. reflexivity. Qed.

Lemma with_events_app (w : world) (es1 es2 : list event) :
  with_events (with_events w es1) es2 = with_events w (es2 ++ es1).
Proof. unfold with_events. simpl. rewrite app_assoc. reflexivity. Qed.

Lemma backoff_events_legal (n : Z) (k : nat) :
  forall b : Backoff.exponential_backoff, Forall (legal n) (backoff_events k b).
Proof.
  induction k as [| k IH]; intros b; simpl; [constructor |].
  apply Forall_app. split; [apply IH | apply backoff_legal].
Qed.

(** The wait on the flag reads a counter that stays zero: it ends after
    [n] back-offs and tells the caller to visit the parent. *)
Lemma announce_wait_spec (i : Z) (nd : node) (n : nat) :
  forall (b : Backoff.exponential_backoff) (w : world),
    others (tree w) !! Z.to_nat i = Some nd -> X nd = 0 ->
    wp (announce_wait n i b 0) w
       (fun r w' => r = (true, 0) /\ w' = with_events w (backoff_events n b)).
Proof.
  induction n as [| n IH]; intros b w Hnd HX; simpl announce_wait.
  - apply wp_ret. split; [reflexivity |]. simpl. symmetry. apply with_events_nil.
  - apply wp_bind, (wp_load_X i nd); [assumption |]. rewrite HX. simpl.
    apply wp_bind, wp_do_backoff.
    eapply wp_mono; [apply IH; [exact Hnd | exact HX] |].
    intros r w' [Hr ->]. split; [exact Hr |]. apply with_events_app.
Qed.


Lemma ready_steps (K N : Z) (spin : nat) (w w' : world) :
  ready K N spin w -> steps w w' -> ready K N spin w'.
Proof.
  intros (Hs & Ha & Hn & Ho) Hst. split; [eapply steps_shape; eassumption |].
  destruct Hst as [a n _ _ _ _ o _]. repeat split; try congruence. lia.
Qed.

Lemma ready_lookup (K N : Z) (spin : nat) (w : world) (i : Z) :
  ready K N spin w -> 0 <= i < N ->
  exists nd, others (tree w) !! Z.to_nat i = Some nd.
Proof.
  intros (Hs & _ & Hn & _) Hi.
  destruct (lookup_lt_is_Some_2 (others (tree w)) (Z.to_nat i)) as [nd Hnd].
  - pose proof (shape_length _ Hs). lia.
  - eauto.
Qed.

Lemma parent_index_bounds (K i : Z) :
  1 <= K -> 1 <= i <= SIZE_MAX -> 0 <= parent_index K i < i.
Proof.
  intros HK Hi. unfold parent_index. rewrite wrap_small by lia. split.
  - apply Z.div_pos; lia.
  - apply Z.div_lt_upper_bound; nia.
Qed.

(** The [switch(parent)] of a node: the root for parent 0, a node of smaller
    index otherwise, reached through a legal subscript. *)
Lemma to_parent_spec (root_op : M unit) (node_op : Z -> M unit) (K N : Z)
    (spin : nat) (i : Z) (w : world) (Q : unit -> world -> Prop) :
  ready K N spin w -> 1 <= i < N ->
  (parent_index K i = 0 -> wp root_op w Q) ->
  (1 <= parent_index K i < i ->
   wp (node_op (parent_index K i)) (with_events w [Touch (parent_index K i)]) Q) ->
  wp (to_parent root_op node_op i) w Q.
Proof.
  intros Hr Hi Hroot Hnode.
  destruct (ready_lookup K N spin w i Hr ltac:(lia)) as [nd Hnd].
  destruct Hr as (Hs & Ha & Hn & Ho).
  pose proof (shape_parents _ Hs (Z.to_nat i) nd ltac:(lia) Hnd) as Hp.
  rewrite Ha, Z2Nat.id in Hp by lia.
  pose proof (shape_arity _ Hs). pose proof (shape_nodes _ Hs).
  pose proof (parent_index_bounds K i ltac:(lia) ltac:(lia)) as Hb.
  unfold to_parent.
  apply wp_bind, (wp_load_parent i (parent_index K i) nd); [exact Hnd | exact Hp |].
  destruct (Z.eqb_spec (parent_index K i) 0) as [E | NE].
  - apply Hroot. exact E.
  - apply wp_bind, wp_subscript.
    + pose proof (shape_length _ Hs). lia.
    + apply Hnode. lia.
Qed.

Lemma steps_touch (K N : Z) (spin : nat) (w : world) (p : Z) :
  ready K N spin w -> 1 <= p < N -> steps w (with_events w [Touch p]).
Proof.
  intros (_ & _ & Hn & _) Hp. apply steps_with_events.
  constructor; [| constructor]. simpl. lia.
Qed.

Lemma abs_with_events (w : world) (es : list event) :
  abs (tree (with_events w es)) = abs (tree w).
Proof. reflexivity. Qed.

Lemma wp_root_Arrive (w : world) (Q : unit -> world -> Prop) :
  Q tt (with_root w (wrap (root (tree w) + 1))) -> wp root_Arrive w Q.
Proof.
  intros HQ. unfold root_Arrive. apply wp_bind, wp_root_load, wp_root_store, HQ.
Qed.

Lemma wp_root_Depart (w : world) (Q : unit -> world -> Prop) :
  Q tt (with_root w (wrap (root (tree w) - 1))) -> wp root_Depart w Q.
Proof.
  intros HQ. unfold root_Depart. apply wp_bind, wp_root_load, wp_root_store, HQ.
Qed.

Lemma abs_Arrive_root (K : Z) (fuel : nat) (c : counters) :
  abs_Arrive K fuel 0 c = {| c_root := wrap (c_root c + 1); c_nodes := c_nodes c |}.
Proof. destruct fuel; reflexivity. Qed.

Lemma abs_Depart_root (K : Z) (fuel : nat) (c : counters) :
  abs_Depart K fuel 0 c = {| c_root := wrap (c_root c - 1); c_nodes := c_nodes c |}.
Proof. destruct fuel; reflexivity. Qed.

Lemma abs_Arrive_node (K : Z) (fuel : nat) (i : Z) (c : counters) :
  i <> 0 ->
  abs_Arrive K (S fuel) i c =
    set_count (if count_at c i =? 0 then abs_Arrive K fuel (parent_index K i) c else c)
              i (wrap (count_at c i + 1)).
Proof.
  intros Hi. simpl. destruct (Z.eqb_spec i 0); [contradiction | reflexivity].
Qed.

Lemma abs_Depart_node (K : Z) (fuel : nat) (i : Z) (c : counters) :
  i <> 0 ->
  abs_Depart K (S fuel) i c =
    if count_at c i =? 1
    then abs_Depart K fuel (parent_index K i) (set_count c i (wrap (count_at c i - 1)))
    else set_count c i (wrap (count_at c i - 1)).
Proof.
  intros Hi. simpl. destruct (Z.eqb_spec i 0); [contradiction | reflexivity].
Qed.

(** [node::Depart] on node [i], run by one thread, does to the counters
    what [abs_Depart] says, and returns. *)
Lemma node_Depart_spec (ann : bool) (K N : Z) (spin : nat) (fuel : nat) :
  forall (i : Z) (w : world),
    ready K N spin w -> 1 <= i < N -> (Z.to_nat i <= fuel)%nat ->
    wp (node_Depart ann spin fuel i) w
       (fun _ w' => steps w w' /\
                    abs (tree w') = abs_Depart K fuel i (abs (tree w))).
Proof.
  induction fuel as [| fuel IH]; intros i w Hr Hi Hfuel; [lia |].
  destruct (ready_lookup K N spin w i Hr ltac:(lia)) as [nd Hnd].
  simpl node_Depart.
  apply wp_bind, (wp_load_X i nd); [exact Hnd |].
  eapply wp_seq.
  { apply (Depart_loop_spec ann i spin w nd Hnd). destruct Hr as (_ & _ & _ & Ho). exact Ho. }
  intros r w1 (-> & Hs1 & Ha1).
  rewrite abs_Depart_node, (count_at_abs w i nd Hnd) by lia.
  pose proof (ready_steps _ _ _ _ _ Hr Hs1) as Hr1.
  destruct (Z.eqb_spec (X nd) 1) as [E1 | NE1].
  - apply (to_parent_spec _ _ K N spin i w1); [exact Hr1 | exact Hi | |].
    + intros Hp0. apply wp_root_Depart. split.
      * eapply steps_trans; [exact Hs1 | apply steps_with_root].
      * rewrite Hp0, abs_Depart_root, <- Ha1. reflexivity.
    + intros Hp.
      eapply wp_mono.
      { apply IH; [| lia | lia].
        eapply ready_steps; [exact Hr1 |].
        apply (steps_touch K N spin); [exact Hr1 | lia]. }
      intros _ w2 [Hs2 Ha2]. split.
      * eapply steps_trans; [exact Hs1 |].
        eapply steps_trans; [| exact Hs2].
        apply (steps_touch K N spin); [exact Hr1 | lia].
      * rewrite Ha2, abs_with_events, Ha1. reflexivity.
  - apply wp_ret. split; [exact Hs1 | exact Ha1].
Qed.


(** An arrival at node [i] leaves the counters of the nodes after [i] alone. *)
Lemma abs_Arrive_frame (K : Z) (fuel : nat) :
  1 <= K ->
  forall (i : Z) (c : counters) (j : nat),
    0 <= i <= SIZE_MAX -> (Z.to_nat i < j)%nat ->
    c_nodes (abs_Arrive K fuel i c) !! j = c_nodes c !! j.
Proof.
  intros HK. induction fuel as [| fuel IH]; intros i c j Hi Hj.
  - simpl. destruct (i =? 0); reflexivity.
  - destruct (Z.eq_dec i 0) as [-> | Hi0]; [rewrite abs_Arrive_root; reflexivity |].
    rewrite abs_Arrive_node by assumption. unfold set_count. simpl.
    rewrite list_lookup_insert_ne by lia.
    destruct (count_at c i =? 0); [| reflexivity].
    pose proof (parent_index_bounds K i HK ltac:(lia)).
    apply IH; lia.
Qed.

Lemma abs_Depart_frame (K : Z) (fuel : nat) :
  1 <= K ->
  forall (i : Z) (c : counters) (j : nat),
    0 <= i <= SIZE_MAX -> (Z.to_nat i < j)%nat ->
    c_nodes (abs_Depart K fuel i c) !! j = c_nodes c !! j.
Proof.
  intros HK. induction fuel as [| fuel IH]; intros i c j Hi Hj.
  - simpl. destruct (i =? 0); reflexivity.
  - destruct (Z.eq_dec i 0) as [-> | Hi0]; [rewrite abs_Depart_root; reflexivity |].
    rewrite abs_Depart_node by assumption.
    pose proof (parent_index_bounds K i HK ltac:(lia)).
    destruct (count_at c i =? 1).
    + rewrite IH by lia. unfold set_count. simpl.
      apply list_lookup_insert_ne. lia.
    + unfold set_count. simpl. apply list_lookup_insert_ne. lia.
Qed.

(** The loop of [Arrive] on a counter that is zero: the flag is waited for
    and set where there is one, the parent is visited once, and the loop
    leaves with the counter at one. *)
Lemma Arrive_loop_zero (ann : bool) (pa : M unit) (f : counters -> counters)
    (P : world -> Prop) (i : Z) (spin : nat) (w : world) (nd : node) :
  (forall w0 w1, P w0 -> steps w0 w1 -> P w1) ->
  (forall w0, P w0 ->
     wp pa w0 (fun _ w1 => steps w0 w1 /\ abs (tree w1) = f (abs (tree w0)))) ->
  (forall c, c_nodes (f c) !! Z.to_nat i = c_nodes c !! Z.to_nat i) ->
  others (tree w) !! Z.to_nat i = Some nd -> X nd = 0 -> P w ->
  (length (oracle w) < spin)%nat ->
  wp (Arrive_loop ann pa spin i false 0) w
     (fun r w' => r = (true, 0) /\ steps w w' /\
                  abs (tree w') = set_count (f (abs (tree w))) i (wrap (0 + 1))).
Proof.
  intros HP Hpa Hf Hnd HX HPw Hspin.
  destruct spin as [| spin]; [lia |].
  simpl Arrive_loop. unfold Arrive_body. simpl andb.
  (* the wait on the flag *)
  set (w0 := if ann && announce nd
             then with_events w (backoff_events DelayAmount Backoff.fresh) else w).
  assert (Hw0 : others (tree w0) = others (tree w) /\ steps w w0 /\
                abs (tree w0) = abs (tree w)).
  { subst w0. destruct (ann && announce nd).
    - split; [reflexivity |]. split; [| reflexivity].
      apply steps_with_events, backoff_events_legal.
    - split; [reflexivity |]. split; [apply steps_refl | reflexivity]. }
  destruct Hw0 as (Ho0 & Hs0 & Ha0).
  (* the flag is set *)
  set (nd1 := if ann then {| X := X nd; announce := true; parent := parent nd |} else nd).
  set (w1 := if ann then with_node w0 i nd1 else w0).
  assert (Hw1 : steps w0 w1 /\ abs (tree w1) = abs (tree w0)).
  { subst w1 nd1. destruct ann.
    - split.
      + apply (steps_with_node w0 i nd); [rewrite Ho0; assumption | reflexivity].
      + apply (abs_with_node_same w0 i nd); [rewrite Ho0; assumption | reflexivity].
    - split; [apply steps_refl | reflexivity]. }
  destruct Hw1 as (Hs1 & Ha1).
  assert (HP1 : P w1) by (eapply HP; [eapply HP; [exact HPw | exact Hs0] | exact Hs1]).
  apply wp_bind.
  apply (wp_seq _ _ _ (fun r w' => r = (true, 0) /\ w' = w0)).
  { subst w0. destruct ann; simpl andb.
    - apply wp_bind, (wp_load_announce i nd); [assumption |].
      destruct (announce nd).
      + apply (announce_wait_spec i nd); assumption.
      + apply wp_ret. auto.
    - apply wp_ret. auto. }
  intros r w' [-> ->].
  apply (wp_seq _ _ _ (fun _ w' => w' = w1)).
  { subst w1 nd1. destruct ann.
    - apply (wp_store_announce i true nd); [rewrite Ho0; assumption | reflexivity].
    - apply wp_ret. reflexivity. }
  intros _ w' ->.
  eapply wp_seq; [apply Hpa; exact HP1 |].
  intros _ w2 [Hs2 Ha2]. apply wp_ret.
  (* the exchange *)
  assert (Hnd2 : exists nd2, others (tree w2) !! Z.to_nat i = Some nd2 /\ X nd2 = 0).
  { assert (Hc : c_nodes (abs (tree w2)) !! Z.to_nat i = Some 0).
    { rewrite Ha2, Hf, Ha1, Ha0.
      change (c_nodes (abs (tree w))) with (X <$> others (tree w)).
      rewrite list_lookup_fmap, Hnd. simpl. rewrite HX. reflexivity. }
    change (c_nodes (abs (tree w2))) with (X <$> others (tree w2)) in Hc.
    rewrite list_lookup_fmap in Hc.
    destruct (others (tree w2) !! Z.to_nat i) as [nd2 |]; [| discriminate].
    simpl in Hc. injection Hc as Hc. eauto. }
  destruct Hnd2 as (nd2 & Hnd2 & HX2).
  assert (Hs02 : steps w w2)
    by (eapply steps_trans; [exact Hs0 | eapply steps_trans; eassumption]).
  assert (Hlen2 : (length (oracle w2) <= length (oracle w))%nat)
    by (apply (steps_oracle _ _ Hs02)).
  apply wp_bind, (wp_node_cas_weak i 0 _ nd2); [assumption | assumption | |].
  - intros Hfail.
    assert (Hlen : (length (oracle (with_oracle w2 (tl (oracle w2)))) < spin)%nat).
    { simpl. destruct (oracle w2); simpl in Hfail, Hlen2 |- *; [discriminate | lia]. }
    pose proof (Arrive_loop_settled ann pa i spin (with_oracle w2 (tl (oracle w2)))
                  nd2 true Hnd2) as Hloop.
    rewrite HX2 in Hloop.
    eapply wp_mono; [apply Hloop; [reflexivity | exact Hlen] |].
    intros r w' (Hr & Hs & Ha). split; [exact Hr |]. split.
    + eapply steps_trans; [exact Hs02 |].
      eapply steps_trans; [apply steps_with_oracle_tl | exact Hs].
    + rewrite Ha. simpl. rewrite Ha2, Ha1, Ha0. reflexivity.
  - intros _. apply wp_ret. split; [reflexivity |]. split.
    + eapply steps_trans; [exact Hs02 |].
      eapply steps_trans; [apply steps_with_oracle_tl |].
      apply (steps_with_node _ i nd2); [assumption | reflexivity].
    + rewrite abs_with_node. simpl. rewrite Ha2, Ha1, Ha0. reflexivity.
Qed.

(** [node::Arrive] on node [i], run by one thread, does to the counters
    what [abs_Arrive] says, and returns. *)
Lemma node_Arrive_spec (ann : bool) (K N : Z) (spin : nat) (fuel : nat) :
  forall (i : Z) (w : world),
    ready K N spin w -> 1 <= i < N -> (Z.to_nat i <= fuel)%nat ->
    wp (node_Arrive ann spin fuel i) w
       (fun _ w' => steps w w' /\
                    abs (tree w') = abs_Arrive K fuel i (abs (tree w))).
Proof.
  induction fuel as [| fuel IH]; intros i w Hr Hi Hfuel; [lia |].
  destruct (ready_lookup K N spin w i Hr ltac:(lia)) as [nd Hnd].
  assert (HK : 1 <= K).
  { destruct Hr as (Hs & Ha & _). rewrite <- Ha. apply (shape_arity _ Hs). }
  assert (HN : N <= SIZE_MAX).
  { destruct Hr as (Hs & _ & Hn & _). rewrite <- Hn. apply (shape_nodes _ Hs). }
  simpl node_Arrive.
  apply wp_bind, (wp_load_X i nd); [exact Hnd |].
  rewrite abs_Arrive_node, (count_at_abs w i nd Hnd) by lia.
  destruct (Z.eqb_spec (X nd) 0) as [E0 | NE0].
  - (* the counter is zero *)
    rewrite E0.
    eapply wp_seq.
    { apply (Arrive_loop_zero ann _ (abs_Arrive K fuel (parent_index K i))
               (fun w0 => ready K N spin w0) i spin w nd).
      - intros w0 w1. apply ready_steps.
      - intros w0 Hr0.
        apply (to_parent_spec _ _ K N spin i w0); [exact Hr0 | exact Hi | |].
        + intros Hp0. apply wp_root_Arrive. split; [apply steps_with_root |].
          rewrite Hp0, abs_Arrive_root. reflexivity.
        + intros Hp. eapply wp_mono.
          { apply IH; [| lia | lia].
            eapply ready_steps; [exact Hr0 |].
            apply (steps_touch K N spin); [exact Hr0 | lia]. }
          intros _ w2 [Hs2 Ha2]. split.
          * eapply steps_trans; [| exact Hs2].
            apply (steps_touch K N spin); [exact Hr0 | lia].
          * rewrite Ha2, abs_with_events. reflexivity.
      - intros c. pose proof (parent_index_bounds K i HK ltac:(lia)).
        apply abs_Arrive_frame; [exact HK | lia | lia].
      - exact Hnd.
      - exact E0.
      - exact Hr.
      - destruct Hr as (_ & _ & _ & Ho). exact Ho. }
    intros r w1 (-> & Hs1 & Ha1). simpl. apply wp_ret. split; assumption.
  - (* the counter is not zero *)
    eapply wp_seq.
    { apply (Arrive_loop_settled ann _ i spin w nd false Hnd).
      - apply Z.eqb_neq in NE0. rewrite NE0. reflexivity.
      - destruct Hr as (_ & _ & _ & Ho). exact Ho. }
    intros r w1 (-> & Hs1 & Ha1). simpl. apply wp_ret. split; assumption.
Qed.


(** *** The direct operations on the root *)

Lemma failures_le_length (o : list bool) : (failures o <= length o)%nat.
Proof. induction o as [| [|] o IH]; simpl; lia. Qed.

Lemma ArriveDirectly_loop_spec (oldx : Z) (spin : nat) :
  forall (w : world) (b : Backoff.exponential_backoff) (nf : Z),
    root (tree w) = oldx -> (length (oracle w) < spin)%nat ->
    nf + Z.of_nat (failures (oracle w)) <= INT_MAX ->
    wp (ArriveDirectly_loop spin oldx b nf) w
       (fun r w' =>
          r = nf + Z.of_nat (failures (oracle w)) /\
          w' = {| tree := set_root (tree w) (wrap (oldx + 1));
                  trace := backoff_events (failures (oracle w)) b ++ trace w;
                  oracle := settle (oracle w) |}).
Proof.
  induction spin as [| spin IH]; intros w b nf Hroot Hspin Hnf; [lia |].
  simpl ArriveDirectly_loop.
  apply wp_bind, wp_root_cas_weak; [exact Hroot | |].
  - intros Hfail. destruct w as [t tr [| [|] o]]; simpl in Hfail; try discriminate.
    simpl in Hspin, Hnf, Hroot |- *.
    destruct (Z.ltb_spec nf INT_MAX) as [_ |]; [| lia].
    apply wp_bind, wp_do_backoff.
    eapply wp_mono.
    { apply IH; simpl; [exact Hroot | lia | lia]. }
    simpl. intros r w' [-> ->]. split; [lia |].
    rewrite <- app_assoc. reflexivity.
  - intros Hok. apply wp_ret.
    destruct w as [t tr [| [|] o]]; simpl in Hok; try discriminate; simpl.
    + split; [lia | reflexivity].
    + split; [lia | reflexivity].
Qed.

Lemma ArriveDirectly_spec (spin : nat) (cont : contention_status) (w : world) :
  (length (oracle w) < spin)%nat ->
  Z.of_nat (failures (oracle w)) <= INT_MAX ->
  wp (ArriveDirectly spin cont) w
     (fun cont' w' =>
        cont' = {| use_snzi_in_arrive := use_snzi_in_arrive cont;
                   use_snzi_in_depart := use_snzi_in_depart cont;
                   use_snzi_tree_flag :=
                     use_snzi_tree_flag cont
                     || (MaxContentionNumFailures <=? Z.of_nat (failures (oracle w))) |} /\
        w' = {| tree := set_root (tree w) (wrap (root (tree w) + 1));
                trace := backoff_events (failures (oracle w)) Backoff.fresh ++ trace w;
                oracle := settle (oracle w) |}).
Proof.
  intros Hspin Hnf. unfold ArriveDirectly.
  apply wp_bind, wp_root_load.
  eapply wp_seq.
  { apply (ArriveDirectly_loop_spec (root (tree w)) spin w Backoff.fresh 0);
      [reflexivity | exact Hspin | lia]. }
  intros r w' [-> ->]. rewrite Z.add_0_l.
  destruct (MaxContentionNumFailures <=? Z.of_nat (failures (oracle w))).
  - apply wp_ret. rewrite orb_true_r. auto.
  - apply wp_ret. rewrite orb_false_r. destruct cont; auto.
Qed.

Lemma DepartDirectly_spec (cont : contention_status) (w : world) :
  wp (DepartDirectly cont) w
     (fun cont' w' =>
        cont' = {| use_snzi_in_arrive := use_snzi_in_arrive cont || use_snzi_tree_flag cont;
                   use_snzi_in_depart := use_snzi_in_depart cont || use_snzi_tree_flag cont;
                   use_snzi_tree_flag := use_snzi_tree_flag cont |} /\
        w' = with_root w (wrap (root (tree w) - 1))).
Proof.
  unfold DepartDirectly. apply wp_bind, wp_root_Depart.
  destruct cont as [a d [|]]; simpl; apply wp_ret;
    rewrite ?orb_true_r, ?orb_false_r; auto.
Qed.

(** *** The facade *)

Lemma leaf_of_range (t : snzi) (tid : Z) :
  shape t ->
  total_nodes t - total_leaf_nodes t <= leaf_of t tid < total_nodes t.
Proof.
  intros Hs. unfold leaf_of.
  pose proof (shape_leaves _ Hs).
  pose proof (Z.mod_pos_bound (tid / threads_per_leaf t) (total_leaf_nodes t) ltac:(lia)).
  lia.
Qed.

Lemma wp_get_leaf_for_thread (tid : Z) (w : world) (Q : Z -> world -> Prop) :
  shape (tree w) -> Q (leaf_of (tree w) tid) w -> wp (get_leaf_for_thread tid) w Q.
Proof.
  intros Hs HQ. unfold get_leaf_for_thread. apply wp_bind, wp_get_tree.
  pose proof (shape_leaves _ Hs). pose proof (shape_threads_per_leaf _ Hs).
  pose proof (shape_nodes _ Hs). pose proof (leaf_of_range _ tid Hs) as Hl.
  destruct (Z.eqb_spec (threads_per_leaf (tree w)) 0); [lia |].
  destruct (Z.eqb_spec (total_leaf_nodes (tree w)) 0); [lia |].
  simpl. apply wp_ret. fold (leaf_of (tree w) tid).
  rewrite wrap_small by lia. exact HQ.
Qed.

Lemma ready_start (w : world) :
  shape (tree w) ->
  ready (arity (tree w)) (total_nodes (tree w)) (spin_fuel w) w.
Proof.
  intros Hs. unfold ready, spin_fuel.
  split; [exact Hs |]. split; [reflexivity |]. split; [reflexivity | lia].
Qed.

Lemma tree_Arrive_spec (ann : bool) (tid : Z) (w : world) :
  shape (tree w) ->
  wp (tree_Arrive ann tid) w
     (fun _ w' =>
        steps w w' /\
        abs (tree w') =
          abs_Arrive (arity (tree w)) (depth_fuel w) (leaf_of (tree w) tid) (abs (tree w))).
Proof.
  intros Hs. unfold tree_Arrive.
  pose proof (leaf_of_range _ tid Hs) as Hl. pose proof (shape_leaves _ Hs).
  pose proof (shape_length _ Hs) as Hlen.
  pose proof (ready_start w Hs) as Hr.
  apply wp_bind, wp_get_leaf_for_thread; [exact Hs |].
  destruct (Z.eqb_spec (leaf_of (tree w) tid) 0) as [E | NE].
  - apply wp_root_Arrive. split; [apply steps_with_root |].
    rewrite E, abs_Arrive_root. reflexivity.
  - apply wp_bind, wp_subscript; [lia |].
    assert (Hst : steps w (with_events w [Touch (leaf_of (tree w) tid)])).
    { eapply steps_touch; [exact Hr | lia]. }
    eapply wp_mono.
    { eapply (node_Arrive_spec ann _ _ (spin_fuel w) (depth_fuel w)).
      - eapply ready_steps; [exact Hr | exact Hst].
      - lia.
      - unfold depth_fuel. lia. }
    intros _ w' [Hs' Ha']. split.
    + eapply steps_trans; eassumption.
    + rewrite Ha'. reflexivity.
Qed.

Lemma tree_Depart_spec (ann : bool) (tid : Z) (w : world) :
  shape (tree w) ->
  wp (tree_Depart ann tid) w
     (fun _ w' =>
        steps w w' /\
        abs (tree w') =
          abs_Depart (arity (tree w)) (depth_fuel w) (leaf_of (tree w) tid) (abs (tree w))).
Proof.
  intros Hs. unfold tree_Depart.
  pose proof (leaf_of_range _ tid Hs) as Hl. pose proof (shape_leaves _ Hs).
  pose proof (shape_length _ Hs) as Hlen.
  pose proof (ready_start w Hs) as Hr.
  apply wp_bind, wp_get_leaf_for_thread; [exact Hs |].
  destruct (Z.eqb_spec (leaf_of (tree w) tid) 0) as [E | NE].
  - apply wp_root_Depart. split; [apply steps_with_root |].
    rewrite E, abs_Depart_root. reflexivity.
  - apply wp_bind, wp_subscript; [lia |].
    assert (Hst : steps w (with_events w [Touch (leaf_of (tree w) tid)])).
    { eapply steps_touch; [exact Hr | lia]. }
    eapply wp_mono.
    { eapply (node_Depart_spec ann _ _ (spin_fuel w) (depth_fuel w)).
      - eapply ready_steps; [exact Hr | exact Hst].
      - lia.
      - unfold depth_fuel. lia. }
    intros _ w' [Hs' Ha']. split.
    + eapply steps_trans; eassumption.
    + rewrite Ha'. reflexivity.
Qed.

End SequentialRuns.

(** ** The counters alone *)

Section CounterFacts.
Import Word Snzi SnziSpec.

Lemma count_at_lookup (c : counters) (i x : Z) :
  c_nodes c !! Z.to_nat i = Some x -> count_at c i = x.
Proof. intros H. unfold count_at. rewrite H. reflexivity. Qed.

Lemma count_at_nonzero_lookup (c : counters) (i : Z) :
  count_at c i <> 0 -> c_nodes c !! Z.to_nat i = Some (count_at c i).
Proof.
  unfold count_at. destruct (c_nodes c !! Z.to_nat i); simpl; [reflexivity | lia].
Qed.

Lemma count_at_set_count_eq (c : counters) (i x : Z) :
  (Z.to_nat i < length (c_nodes c))%nat -> count_at (set_count c i x) i = x.
Proof.
  intros Hi. unfold count_at, set_count. simpl.
  rewrite list_lookup_insert_eq by exact Hi. reflexivity.
Qed.

Lemma count_at_set_count_ne (c : counters) (i j x : Z) :
  Z.to_nat i <> Z.to_nat j -> count_at (set_count c i x) j = count_at c j.
Proof.
  intros Hij. unfold count_at, set_count. simpl.
  rewrite list_lookup_insert_ne by exact Hij. reflexivity.
Qed.

Lemma set_count_same (c : counters) (i x : Z) :
  c_nodes c !! Z.to_nat i = Some x -> set_count c i x = c.
Proof.
  intros H. destruct c as [r ns]. unfold set_count. simpl in *. f_equal.
  apply list_insert_id. exact H.
Qed.

Lemma set_count_twice (c : counters) (i x y : Z) :
  set_count (set_count c i x) i y = set_count c i y.
Proof. unfold set_count. simpl. rewrite list_insert_insert_eq. reflexivity. Qed.

Lemma abs_Arrive_length (K : Z) (fuel : nat) :
  forall (i : Z) (c : counters),
    length (c_nodes (abs_Arrive K fuel i c)) = length (c_nodes c).
Proof.
  induction fuel as [| fuel IH]; intros i c.
  - simpl. destruct (i =? 0); reflexivity.
  - destruct (Z.eq_dec i 0) as [-> | Hi0]; [rewrite abs_Arrive_root; reflexivity |].
    rewrite abs_Arrive_node by assumption. unfold set_count. simpl.
    rewrite length_insert. destruct (count_at c i =? 0); [apply IH | reflexivity].
Qed.

Lemma wrap_succ_pred (x : Z) : 0 <= x <= SIZE_MAX -> wrap (wrap (x + 1) - 1) = x.
Proof.
  intros Hx. unfold wrap. rewrite Zminus_mod_idemp_l.
  replace (x + 1 - 1) with x by lia. apply Z.mod_small. unfold SIZE_MAX in Hx. lia.
Qed.

Lemma wrap_succ_not_one (x : Z) : 0 <= x <= SIZE_MAX -> x <> 0 -> wrap (x + 1) <> 1.
Proof.
  intros Hx Hx0. unfold wrap, SIZE_MAX in *.
  destruct (Z.eq_dec x (2 ^ 64 - 1)) as [-> | Hne].
  - vm_compute. discriminate.
  - rewrite Z.mod_small by lia. lia.
Qed.

(** A departure from node [i] undoes an arrival at node [i]. *)
Lemma abs_Depart_Arrive (K : Z) (fuel : nat) :
  1 <= K ->
  forall (i : Z) (c : counters),
    ranged c -> Z.of_nat (length (c_nodes c)) <= SIZE_MAX ->
    0 <= i < Z.of_nat (length (c_nodes c)) -> (Z.to_nat i <= fuel)%nat ->
    abs_Depart K fuel i (abs_Arrive K fuel i c) = c.
Proof.
  intros HK. induction fuel as [| fuel IH]; intros i c Hc Hlen Hi Hfuel.
  - assert (i = 0) as -> by lia. rewrite abs_Arrive_root, abs_Depart_root. simpl.
    destruct c as [r ns]. destruct Hc as [Hr _]. simpl in *.
    rewrite wrap_succ_pred by assumption. reflexivity.
  - destruct (Z.eq_dec i 0) as [-> | Hi0].
    + rewrite abs_Arrive_root, abs_Depart_root. simpl.
      destruct c as [r ns]. destruct Hc as [Hr _]. simpl in *.
      rewrite wrap_succ_pred by assumption. reflexivity.
    + destruct (lookup_lt_is_Some_2 (c_nodes c) (Z.to_nat i) ltac:(lia)) as [x Hx].
      assert (Hxr : 0 <= x <= SIZE_MAX).
      { destruct Hc as [_ Hall]. rewrite Forall_lookup in Hall. exact (Hall _ _ Hx). }
      pose proof (parent_index_bounds K i HK ltac:(lia)) as Hp.
      rewrite abs_Arrive_node, (count_at_lookup c i x Hx) by assumption.
      rewrite abs_Depart_node by assumption.
      destruct (Z.eqb_spec x 0) as [-> | Hx0].
      * (* the counter was zero *)
        set (c' := abs_Arrive K fuel (parent_index K i) c).
        assert (Hl' : length (c_nodes c') = length (c_nodes c))
          by (apply abs_Arrive_length).
        assert (Hx' : c_nodes c' !! Z.to_nat i = Some 0).
        { subst c'. rewrite abs_Arrive_frame by (try assumption; lia). exact Hx. }
        rewrite count_at_set_count_eq by lia.
        change (wrap (0 + 1)) with 1. simpl Z.eqb. cbv iota.
        change (wrap (1 - 1)) with 0.
        rewrite set_count_twice, (set_count_same c' i 0 Hx').
        subst c'. apply IH; try assumption; lia.
      * (* the counter was not zero *)
        rewrite count_at_set_count_eq by lia.
        pose proof (wrap_succ_not_one x Hxr Hx0) as Hne.
        destruct (Z.eqb_spec (wrap (x + 1)) 1) as [| _]; [contradiction |].
        rewrite set_count_twice, wrap_succ_pred by assumption.
        apply set_count_same. exact Hx.
Qed.





(** *** Sequences of arrivals and departures on the counters *)



End CounterFacts.

Section ConstructionFacts.
Import Word Snzi SnziSpec.

Lemma set_parent_length (K : Z) (ns : list node) (i : nat) :
  length (set_parent K ns i) = length ns.
Proof. unfold set_parent. apply length_alter. Qed.

Lemma fold_set_parent_length (K : Z) (l : list nat) :
  forall ns : list node, length (fold_left (set_parent K) l ns) = length ns.
Proof.
  induction l as [| a l IH]; intros ns; simpl; [reflexivity |].
  rewrite IH. apply set_parent_length.
Qed.

Lemma fold_set_parent_outside (K : Z) (len : nat) :
  forall (a : nat) (ns : list node) (i : nat),
    (i < a \/ a + len <= i)%nat ->
    fold_left (set_parent K) (seq a len) ns !! i = ns !! i.
Proof.
  induction len as [| len IH]; intros a ns i Hi; simpl; [reflexivity |].
  rewrite IH by lia. unfold set_parent. apply list_lookup_alter_ne. lia.
Qed.

Lemma fold_set_parent_inside (K : Z) (len : nat) :
  forall (a : nat) (ns : list node) (i : nat),
    (a <= i < a + len)%nat ->
    fold_left (set_parent K) (seq a len) ns !! i =
      (fun nd => {| X := X nd; announce := announce nd;
                    parent := Some (parent_index K (Z.of_nat i)) |}) <$> ns !! i.
Proof.
  induction len as [| len IH]; intros a ns i Hi; simpl; [lia |].
  destruct (Nat.eq_dec i a) as [-> | Hne].
  - rewrite fold_set_parent_outside by lia.
    unfold set_parent. apply list_lookup_alter_eq.
  - rewrite IH by lia. unfold set_parent.
    rewrite list_lookup_alter_ne by lia. reflexivity.
Qed.

Lemma set_parents_lookup (K n : Z) (i : nat) (nd : node) :
  set_parents K n (replicate (Z.to_nat n) new_node) !! i = Some nd ->
  (i < Z.to_nat n)%nat /\ X nd = 0 /\ announce nd = false /\
  parent nd = match i with
              | O => None
              | S _ => Some (parent_index K (Z.of_nat i))
              end.
Proof.
  intros Hnd. unfold set_parents in Hnd.
  assert (Hi : (i < Z.to_nat n)%nat).
  { apply lookup_lt_Some in Hnd.
    rewrite fold_set_parent_length, length_replicate in Hnd. exact Hnd. }
  split; [exact Hi |].
  destruct i as [| i].
  - rewrite fold_set_parent_outside in Hnd by lia.
    apply lookup_replicate in Hnd. destruct Hnd as [-> _]. auto.
  - rewrite fold_set_parent_inside in Hnd by lia.
    rewrite lookup_replicate_2 in Hnd by lia. simpl in Hnd.
    injection Hnd as <-. auto.
Qed.

Lemma set_parents_length (K n : Z) :
  length (set_parents K n (replicate (Z.to_nat n) new_node)) = Z.to_nat n.
Proof. unfold set_parents. rewrite fold_set_parent_length. apply length_replicate. Qed.

Lemma set_parents_counters (K n : Z) :
  X <$> set_parents K n (replicate (Z.to_nat n) new_node) = replicate (Z.to_nat n) 0.
Proof.
  apply list_eq. intros i. rewrite list_lookup_fmap.
  destruct (set_parents K n (replicate (Z.to_nat n) new_node) !! i) as [nd |] eqn:E.
  - destruct (set_parents_lookup K n i nd E) as (Hi & HX & _).
    simpl. rewrite HX. symmetry. apply lookup_replicate_2. exact Hi.
  - simpl. symmetry. apply lookup_ge_None_2.
    apply lookup_ge_None_1 in E. rewrite set_parents_length in E.
    rewrite length_replicate. exact E.
Qed.

Lemma ceil_div_pos (a b : Z) : 1 <= a -> 1 <= b -> 1 <= ceil_div a b.
Proof.
  intros Ha Hb. unfold ceil_div. apply Z.div_le_lower_bound; lia.
Qed.

Lemma nodes_count_value (K H : Z) :
  2 <= K -> 0 <= H ->
  (K ^ (H + 1) - 1) / (K - 1) = level_start K (S (Z.to_nat H)) /\
  level_start K (S (Z.to_nat H)) = level_start K (Z.to_nat H) + K ^ H /\
  0 <= level_start K (Z.to_nat H) /\ 1 <= K ^ H.
Proof.
  intros HK HH.
  replace (H + 1) with (Z.of_nat (S (Z.to_nat H))) by lia.
  rewrite level_start_quotient by assumption.
  split; [reflexivity |]. rewrite level_start_succ, Z2Nat.id by lia.
  split; [reflexivity |]. split; [apply level_start_nonneg; lia |].
  assert (0 < K ^ H) by (apply Z.pow_pos_nonneg; lia). lia.
Qed.

(** The object that the constructor returns for parameters that neither
    wrap around nor leave the exact range of [double]. *)
Lemma construct_spec (alloc : Z -> bool) (K H T : Z) :
  2 <= K -> 0 <= H -> K ^ (H + 1) <= 2 ^ 64 -> 1 <= T < 2 ^ 53 ->
  alloc ((K ^ (H + 1) - 1) / (K - 1)) = true ->
  construct alloc K H T =
    Ok {| arity := K;
          total_nodes := (K ^ (H + 1) - 1) / (K - 1);
          total_leaf_nodes := K ^ H;
          threads_per_leaf := Z.max 1 (ceil_div T (K ^ H));
          total_threads := T;
          root := 0;
          others := set_parents K ((K ^ (H + 1) - 1) / (K - 1))
                      (replicate (Z.to_nat ((K ^ (H + 1) - 1) / (K - 1))) new_node) |}.
Proof.
  intros HK HH Hpow HT Halloc. unfold construct.
  destruct (Z.ltb_spec K 2) as [| _]; [lia |].
  rewrite nodes_count_spec, leaves_count_spec by assumption. simpl rbind.
  destruct (pow_height_bound K H HK HH Hpow) as [_ Hsmall].
  destruct (nodes_count_value K H HK HH) as (_ & _ & _ & Hl).
  rewrite threads_per_leaf_exact by lia. simpl rbind.
  fold (ceil_div T (K ^ H)).
  pose proof (ceil_div_pos T (K ^ H) ltac:(lia) Hl).
  destruct (Z.eqb_spec (ceil_div T (K ^ H)) 0) as [| _]; [lia |].
  rewrite Halloc, Z.max_r by lia. reflexivity.
Qed.

Lemma construct_shape (K H T : Z) :
  2 <= K -> 0 <= H -> K ^ (H + 1) <= 2 ^ 64 -> 1 <= T ->
  shape {| arity := K;
           total_nodes := (K ^ (H + 1) - 1) / (K - 1);
           total_leaf_nodes := K ^ H;
           threads_per_leaf := Z.max 1 (ceil_div T (K ^ H));
           total_threads := T;
           root := 0;
           others := set_parents K ((K ^ (H + 1) - 1) / (K - 1))
                       (replicate (Z.to_nat ((K ^ (H + 1) - 1) / (K - 1))) new_node) |}.
Proof.
  intros HK HH Hpow HT.
  destruct (nodes_count_value K H HK HH) as (EN & ES & H0 & Hl).
  assert (HN : (K ^ (H + 1) - 1) / (K - 1) <= SIZE_MAX).
  { apply Z.div_le_upper_bound; [lia |]. unfold SIZE_MAX. nia. }
  constructor; simpl.
  - lia.
  - rewrite set_parents_length. lia.
  - lia.
  - exact HN.
  - lia.
  - intros i nd Hi Hnd. apply set_parents_lookup in Hnd.
    destruct Hnd as (_ & _ & _ & Hp). destruct i; [lia | exact Hp].
Qed.

End ConstructionFacts.

(** ** A client thread *)

Section ClientFacts.
Import Word Snzi SnziSpec.

Lemma settle_length (o : list bool) : (length (settle o) <= length o)%nat.
Proof. induction o as [| [|] o IH]; simpl; lia. Qed.

Lemma Query_eq (w : world) : Query w = Ok (negb (root (tree w) =? 0), w).
Proof. reflexivity. Qed.

Lemma bind_Ok_inv {A B : Type} (m : M A) (k : A -> M B) (w w'' : world) (b : B) :
  bind m k w = Ok (b, w'') ->
  exists (a : A) (w' : world), m w = Ok (a, w') /\ k a w' = Ok (b, w'').
Proof.
  unfold bind. destruct (m w) as [[a w'] | | |]; try discriminate. eauto.
Qed.

Lemma ret_Ok_inv {A : Type} (a b : A) (w w' : world) :
  ret a w = Ok (b, w') -> b = a /\ w' = w.
Proof. unfold ret. intros H. injection H as <- <-. auto. Qed.

(** [Arrive] through the tree: the status is not touched. *)
Lemma Arrive_tree_spec (v : variant) (tid : Z) (cont : contention_status) (w : world) :
  shape (tree w) ->
  (v = full_contention_handling -> use_snzi_in_arrive cont = true) ->
  wp (Arrive v tid cont) w
     (fun cont' w' =>
        cont' = cont /\ steps w w' /\
        abs (tree w') =
          abs_Arrive (arity (tree w)) (depth_fuel w) (leaf_of (tree w) tid) (abs (tree w))).
Proof.
  intros Hs Hv.
  assert (E : Arrive v tid cont =
              bind (tree_Arrive (has_announce v) tid) (fun _ => ret cont)).
  { destruct v; try reflexivity. simpl. rewrite Hv by reflexivity. reflexivity. }
  rewrite E. eapply wp_seq; [apply tree_Arrive_spec; exact Hs |].
  intros _ w' [Hst Ha]. apply wp_ret. auto.
Qed.

Lemma Depart_tree_spec (v : variant) (tid : Z) (cont : contention_status) (w : world) :
  shape (tree w) ->
  (v = full_contention_handling -> use_snzi_in_depart cont = true) ->
  wp (Depart v tid cont) w
     (fun cont' w' =>
        cont' = cont /\ steps w w' /\
        abs (tree w') =
          abs_Depart (arity (tree w)) (depth_fuel w) (leaf_of (tree w) tid) (abs (tree w))).
Proof.
  intros Hs Hv.
  assert (E : Depart v tid cont =
              bind (tree_Depart (has_announce v) tid) (fun _ => ret cont)).
  { destruct v; try reflexivity. simpl. rewrite Hv by reflexivity. reflexivity. }
  rewrite E. eapply wp_seq; [apply tree_Depart_spec; exact Hs |].
  intros _ w' [Hst Ha]. apply wp_ret. auto.
Qed.

Lemma steps_ArriveDirectly (w : world) (b : Backoff.exponential_backoff) (x : Z) :
  steps w {| tree := set_root (tree w) x;
             trace := backoff_events (failures (oracle w)) b ++ trace w;
             oracle := settle (oracle w) |}.
Proof.
  constructor; try reflexivity; simpl.
  - apply settle_length.
  - eexists. split; [reflexivity | apply backoff_events_legal].
Qed.

(** [Arrive] of the full variant while the status sends to the root. *)
Lemma Arrive_direct_spec (tid : Z) (cont : contention_status) (w : world) :
  use_snzi_in_arrive cont = false ->
  Z.of_nat (length (oracle w)) <= INT_MAX ->
  wp (Arrive full_contention_handling tid cont) w
     (fun cont' w' =>
        cont' = {| use_snzi_in_arrive := use_snzi_in_arrive cont;
                   use_snzi_in_depart := use_snzi_in_depart cont;
                   use_snzi_tree_flag :=
                     use_snzi_tree_flag cont
                     || (MaxContentionNumFailures <=? Z.of_nat (failures (oracle w))) |} /\
        steps w w' /\
        abs (tree w') = abs_Arrive (arity (tree w)) (depth_fuel w) 0 (abs (tree w))).
Proof.
  intros Hc Ho. unfold Arrive. rewrite Hc. simpl negb. cbv iota.
  pose proof (failures_le_length (oracle w)).
  eapply wp_mono.
  { apply (ArriveDirectly_spec (spin_fuel w) cont w); [unfold spin_fuel; lia | lia]. }
  intros cont' w' [-> ->]. split; [rewrite Hc; reflexivity |]. split.
  - apply steps_ArriveDirectly.
  - rewrite abs_Arrive_root. reflexivity.
Qed.

(** [Depart] of the full variant while the status sends to the root. *)
Lemma Depart_direct_spec (tid : Z) (cont : contention_status) (w : world) :
  use_snzi_in_depart cont = false ->
  wp (Depart full_contention_handling tid cont) w
     (fun cont' w' =>
        cont' = {| use_snzi_in_arrive := use_snzi_in_arrive cont || use_snzi_tree_flag cont;
                   use_snzi_in_depart := use_snzi_in_depart cont || use_snzi_tree_flag cont;
                   use_snzi_tree_flag := use_snzi_tree_flag cont |} /\
        steps w w' /\
        abs (tree w') = abs_Depart (arity (tree w)) (depth_fuel w) 0 (abs (tree w))).
Proof.
  intros Hc. unfold Depart. rewrite Hc. simpl negb. cbv iota.
  eapply wp_mono; [apply DepartDirectly_spec |].
  intros cont' w' [-> ->]. split; [rewrite Hc; reflexivity |]. split.
  - apply steps_with_root.
  - rewrite abs_Depart_root. reflexivity.
Qed.




Lemma steps_leaf_of (w0 w : world) (tid : Z) :
  steps w0 w -> leaf_of (tree w) tid = leaf_of (tree w0) tid.
Proof.
  intros [_ n l r _ _ _ _]. unfold leaf_of. rewrite n, l, r. reflexivity.
Qed.

Lemma steps_depth_fuel (w0 w : world) : steps w0 w -> depth_fuel w = depth_fuel w0.
Proof. apply steps_length. Qed.

Lemma set_status_same (st : statuses) (tid : Z) (c : contention_status) :
  set_status st tid c tid = c.
Proof. unfold set_status. rewrite Z.eqb_refl. reflexivity. Qed.




Lemma entry_range (v : variant) (t : snzi) (tid : Z) :
  shape t ->
  0 <= entry v t tid < Z.of_nat (length (others t)).
Proof.
  intros Hs. pose proof (leaf_of_range t tid Hs). pose proof (shape_leaves _ Hs).
  pose proof (shape_length _ Hs). destruct v; simpl; lia.
Qed.

End ClientFacts.

(** ** The claims *)

Section Claims.
Import Word Snzi SnziSpec.

Lemma construct_counters (K H T : Z) :
  abs {| arity := K;
         total_nodes := (K ^ (H + 1) - 1) / (K - 1);
         total_leaf_nodes := K ^ H;
         threads_per_leaf := Z.max 1 (ceil_div T (K ^ H));
         total_threads := T;
         root := 0;
         others := set_parents K ((K ^ (H + 1) - 1) / (K - 1))
                     (replicate (Z.to_nat ((K ^ (H + 1) - 1) / (K - 1))) new_node) |} =
  {| c_root := 0; c_nodes := replicate (Z.to_nat ((K ^ (H + 1) - 1) / (K - 1))) 0 |}.
Proof. unfold abs. simpl. rewrite set_parents_counters. reflexivity. Qed.



(** C2 (as amended). For every [K >= 2], [H >= 0] with [K^(H+1) <= 2^64] and
    [1 <= T < 2^53] (allocation succeeding) and every [tid] in [[0, T)]: the
    constructor sets [threads_per_leaf] to [max(1, ceil(T / leaf_count))], the
    leaf index of the thread is
    [node_count - leaf_count + ((tid / threads_per_leaf) mod leaf_count)],
    and it lies in [[node_count - leaf_count, node_count)], the last [K^H]
    indices of the node array. *)
Theorem leaf_index_of_thread (alloc : Z -> bool) (K H T tid : Z) (o : list bool) :
  2 <= K -> 0 <= H -> K ^ (H + 1) <= 2 ^ 64 -> 1 <= T < 2 ^ 53 ->
  alloc ((K ^ (H + 1) - 1) / (K - 1)) = true ->
  0 <= tid < T ->
  exists t : snzi,
    construct alloc K H T = Ok t /\
    Z.of_nat (length (others t)) = (K ^ (H + 1) - 1) / (K - 1) /\
    threads_per_leaf t = Z.max 1 (ceil_div T (K ^ H)) /\
    get_leaf_for_thread tid (start t o) =
      Ok ((K ^ (H + 1) - 1) / (K - 1) - K ^ H
          + (tid / Z.max 1 (ceil_div T (K ^ H))) mod K ^ H, start t o) /\
    (K ^ (H + 1) - 1) / (K - 1) - K ^ H
      <= (K ^ (H + 1) - 1) / (K - 1) - K ^ H
         + (tid / Z.max 1 (ceil_div T (K ^ H))) mod K ^ H
      < (K ^ (H + 1) - 1) / (K - 1).
Proof.
  intros HK HH Hpow HT Halloc Htid.
  rewrite (construct_spec alloc K H T HK HH Hpow HT Halloc).
  pose proof (construct_shape K H T HK HH Hpow ltac:(lia)) as Hs.
  set (t := {| arity := K; total_nodes := (K ^ (H + 1) - 1) / (K - 1) |}) in *.
  exists t. split; [reflexivity |].
  split; [exact (shape_length _ Hs) |]. split; [reflexivity |].
  pose proof (leaf_of_range t tid Hs) as Hr.
  split; [| exact Hr].
  destruct (wp_get_leaf_for_thread tid (start t o)
              (fun r w' => r = leaf_of t tid /\ w' = start t o) Hs (conj eq_refl eq_refl))
    as (r & w' & E & -> & ->).
  exact E.
Qed.



(** C6. In the full variant [ArriveDirectly] leaves the root counter
    incremented after a loop of weak compare-exchanges with one [backoff()]
    per failure, and sets [use_snzi_tree_flag] exactly when the failures of
    that call are at least [MaxContentionNumFailures = 5] (it writes no other
    field); [DepartDirectly] always decrements the root counter and, when
    [use_snzi_tree_flag] is set, sets [use_snzi_in_arrive] and
    [use_snzi_in_depart]. The failures counted in an [int] stay within its
    range. *)
Theorem direct_root_operations (cont : contention_status) (w : world) (spin : nat) :
  (length (oracle w) < spin)%nat ->
  Z.of_nat (failures (oracle w)) <= INT_MAX ->
  (exists (cont' : contention_status) (w' : world),
     ArriveDirectly spin cont w = Ok (cont', w') /\
     root (tree w') = wrap (root (tree w) + 1) /\
     trace w' = backoff_events (failures (oracle w)) Backoff.fresh ++ trace w /\
     use_snzi_tree_flag cont' =
       use_snzi_tree_flag cont || (5 <=? Z.of_nat (failures (oracle w))) /\
     use_snzi_in_arrive cont' = use_snzi_in_arrive cont /\
     use_snzi_in_depart cont' = use_snzi_in_depart cont) /\
  (exists (cont' : contention_status) (w' : world),
     DepartDirectly cont w = Ok (cont', w') /\
     root (tree w') = wrap (root (tree w) - 1) /\
     use_snzi_tree_flag cont' = use_snzi_tree_flag cont /\
     use_snzi_in_arrive cont' = use_snzi_in_arrive cont || use_snzi_tree_flag cont /\
     use_snzi_in_depart cont' = use_snzi_in_depart cont || use_snzi_tree_flag cont).
Proof.
  intros Hspin Hnf. split.
  - destruct (ArriveDirectly_spec spin cont w Hspin Hnf) as (cont' & w' & E & -> & ->).
    eexists _, _. split; [exact E |]. simpl. auto.
  - destruct (DepartDirectly_spec cont w) as (cont' & w' & E & -> & ->).
    eexists _, _. split; [exact E |]. simpl. auto.
Qed.

Lemma ArriveDirectly_status (spin : nat) (cont cont' : contention_status) (w w' : world) :
  ArriveDirectly spin cont w = Ok (cont', w') -> status_le cont cont'.
Proof.
  unfold ArriveDirectly. intros H.
  apply bind_Ok_inv in H. destruct H as (x & w1 & _ & H).
  apply bind_Ok_inv in H. destruct H as (nf & w2 & _ & H).
  destruct (MaxContentionNumFailures <=? nf);
    apply ret_Ok_inv in H; destruct H as [-> _]; unfold status_le; simpl; auto.
Qed.

Lemma DepartDirectly_status (cont cont' : contention_status) (w w' : world) :
  DepartDirectly cont w = Ok (cont', w') -> status_le cont cont'.
Proof.
  unfold DepartDirectly. intros H.
  apply bind_Ok_inv in H. destruct H as (x & w1 & _ & H).
  destruct (use_snzi_tree_flag cont) eqn:Ef;
    apply ret_Ok_inv in H; destruct H as [-> _]; unfold status_le; simpl; auto.
Qed.

Lemma status_le_refl (c : contention_status) : status_le c c.
Proof. unfold status_le. auto. Qed.

(** C7. In the full variant escalation is one-way: whatever call a client
    makes, [Arrive(tid, status)], [Depart(tid, status)] or [Query()], and in
    whatever state, no field of the status of any thread goes from true back
    to false when the call returns. *)
Theorem escalation_is_one_way (c : call) (st st' : statuses) (w w' : world) :
  step full_contention_handling c st w = Ok (st', w') ->
  forall tid : Z, status_le (st tid) (st' tid).
Proof.
  intros Hstep tid. destruct c as [tid0 | tid0 |]; simpl in Hstep.
  - apply bind_Ok_inv in Hstep. destruct Hstep as (c' & w1 & Hop & Hret).
    apply ret_Ok_inv in Hret. destruct Hret as [-> _].
    unfold set_status. destruct (tid =? tid0) eqn:E; [| apply status_le_refl].
    apply Z.eqb_eq in E. subst tid0.
    destruct (use_snzi_in_arrive (st tid)); simpl in Hop.
    + apply bind_Ok_inv in Hop. destruct Hop as (u & w2 & _ & Hret).
      apply ret_Ok_inv in Hret. destruct Hret as [-> _]. apply status_le_refl.
    + eapply ArriveDirectly_status. exact Hop.
  - apply bind_Ok_inv in Hstep. destruct Hstep as (c' & w1 & Hop & Hret).
    apply ret_Ok_inv in Hret. destruct Hret as [-> _].
    unfold set_status. destruct (tid =? tid0) eqn:E; [| apply status_le_refl].
    apply Z.eqb_eq in E. subst tid0.
    destruct (use_snzi_in_depart (st tid)); simpl in Hop.
    + apply bind_Ok_inv in Hop. destruct Hop as (u & w2 & _ & Hret).
      apply ret_Ok_inv in Hret. destruct Hret as [-> _]. apply status_le_refl.
    + eapply DepartDirectly_status. exact Hop.
  - apply bind_Ok_inv in Hstep. destruct Hstep as (b & w1 & _ & Hret).
    apply ret_Ok_inv in Hret. destruct Hret as [-> _]. apply status_le_refl.
Qed.

(** C8. The constructor of each variant throws [std::invalid_argument] if
    and only if [K < 2], whatever [H] and [T]; the only other exception a
    construction can end with is the [std::bad_alloc] of a failed
    allocation of the node array. *)
Theorem construct_invalid_argument_iff (alloc : Z -> bool) (K H T : Z) :
  (construct alloc K H T = Throw invalid_argument <-> K < 2) /\
  (forall e : exn,
     construct alloc K H T = Throw e ->
     (e = invalid_argument /\ K < 2) \/
     (e = bad_alloc /\ 2 <= K /\
      exists n : Z, nodes_count K H = Ok n /\ alloc n = false)).
Proof.
  unfold construct. destruct (Z.ltb_spec K 2) as [Hlt | Hge].
  - split; [split; auto |]. intros e He. injection He as <-. auto.
  - destruct (nodes_count K H) as [n | x | |] eqn:En; simpl;
      [| exfalso; exact (nodes_count_no_throw _ _ _ En)
       | split; [split; [discriminate | lia] | discriminate]
       | split; [split; [discriminate | lia] | discriminate]].
    destruct (leaves_count K H) as [l | x | |] eqn:El; simpl;
      [| exfalso; exact (leaves_count_no_throw _ _ _ El)
       | split; [split; [discriminate | lia] | discriminate]
       | split; [split; [discriminate | lia] | discriminate]].
    destruct (Double.to_size_t _) as [r | x | |] eqn:Er; simpl;
      [| exfalso; exact (to_size_t_no_throw _ _ Er)
       | split; [split; [discriminate | lia] | discriminate]
       | split; [split; [discriminate | lia] | discriminate]].
    destruct (alloc n) eqn:Ea.
    + split; [split; [discriminate | lia] | discriminate].
    + split; [split; [discriminate | lia] |].
      intros e He. injection He as <-. right. eauto.
Qed.


End Claims.

(** ** Instances: witnesses, counterexamples and scenarios *)

Section Instances.
Import Word Snzi SnziSpec.

Example construct_example_tree :
  construct (fun _ => true) 2 1 4 = Ok example_tree.
Proof. vm_compute. reflexivity. Qed.




(** The full variant and nested arrivals: when the first [ArriveDirectly]
    meets five failed exchanges, the second [Depart] goes through the tree,
    which the two arrivals never entered; the root keeps one arrival and
    [Query()] stays true. *)
Example full_variant_nested_arrivals :
  exists (st : statuses) (w : world),
    run full_contention_handling
        [CallArrive 0; CallArrive 0; CallDepart 0; CallDepart 0]
        fresh_statuses (start example_tree [true; true; true; true; true]) = Ok (st, w) /\
    Query w = Ok (true, w) /\ root (tree w) = 1 /\
    X <$> others (tree w) = [0; 18446744073709551615; 0].
Proof.
  eexists _, _. split; [vm_compute; reflexivity |].
  split; [vm_compute; reflexivity |]. split; reflexivity.
Qed.

(** The conversion of [T] to [double] rounds from [2^53] on, and the cast
    back is undefined from [2^64]. *)
Example threads_per_leaf_of_large_T :
  (exists t : snzi,
     construct (fun _ => true) 2 1 (2 ^ 54 + 2) = Ok t /\
     threads_per_leaf t = 2 ^ 53 /\ ceil_div (2 ^ 54 + 2) (2 ^ 1) = 2 ^ 53 + 1) /\
  construct (fun _ => true) 2 0 (2 ^ 64 - 1) = Undefined.
Proof.
  split; [eexists; split; [vm_compute; reflexivity | split; reflexivity] |].
  vm_compute. reflexivity.
Qed.

Lemma leaf_index_of_thread_witness :
  2 <= 3 /\ 0 <= 2 /\ 3 ^ (2 + 1) <= 2 ^ 64 /\ 1 <= 9 < 2 ^ 53 /\ 0 <= 8 < 9 /\
  exists t : snzi,
    construct (fun _ => true) 3 2 9 = Ok t /\
    Z.of_nat (length (others t)) = (3 ^ (2 + 1) - 1) / (3 - 1) /\
    threads_per_leaf t = Z.max 1 (ceil_div 9 (3 ^ 2)) /\
    get_leaf_for_thread 8 (start t []) =
      Ok ((3 ^ (2 + 1) - 1) / (3 - 1) - 3 ^ 2
          + (8 / Z.max 1 (ceil_div 9 (3 ^ 2))) mod 3 ^ 2, start t []) /\
    (3 ^ (2 + 1) - 1) / (3 - 1) - 3 ^ 2
      <= (3 ^ (2 + 1) - 1) / (3 - 1) - 3 ^ 2
         + (8 / Z.max 1 (ceil_div 9 (3 ^ 2))) mod 3 ^ 2
      < (3 ^ (2 + 1) - 1) / (3 - 1).
Proof.
  split; [lia |]. split; [lia |]. split; [vm_compute; discriminate |].
  split; [lia |]. split; [lia |].
  apply (leaf_index_of_thread (fun _ => true) 3 2 9 8 []);
    try lia; try reflexivity; vm_compute; discriminate.
Defined.

(** C2 as stated fails where the sizes wrap around: for [K = 2^32 + 1],
    [H = 1], [T = 1] the node array has 2 nodes and the leaf index of thread 0
    is [2^64 - 2^32 + 1], outside the array. *)
Lemma leaf_index_after_wrap_around :
  2 <= 4294967297 /\ 0 <= 1 /\ 1 <= 1 /\ 0 <= 0 < 1 /\
  exists t : snzi,
    construct (fun _ => true) 4294967297 1 1 = Ok t /\
    total_nodes t = 2 /\ total_leaf_nodes t = 4294967297 /\
    get_leaf_for_thread 0 (start t []) = Ok (18446744069414584321, start t []) /\
    ~ (total_nodes t - total_leaf_nodes t <= 18446744069414584321 < total_nodes t).
Proof.
  split; [lia |]. split; [lia |]. split; [lia |]. split; [lia |].
  eexists. split; [vm_compute; reflexivity |].
  split; [reflexivity |]. split; [reflexivity |].
  split; [vm_compute; reflexivity |]. simpl. lia.
Qed.



Lemma direct_root_operations_witness :
  (length (oracle (start example_tree [true; true; true; true; true; false])) < 7)%nat /\
  Z.of_nat (failures (oracle (start example_tree [true; true; true; true; true; false])))
    <= INT_MAX /\
  (exists (cont' : contention_status) (w' : world),
     ArriveDirectly 7 fresh_status
       (start example_tree [true; true; true; true; true; false]) = Ok (cont', w') /\
     root (tree w') = 1 /\ use_snzi_tree_flag cont' = true /\
     use_snzi_in_arrive cont' = false /\ use_snzi_in_depart cont' = false) /\
  (exists (cont' : contention_status) (w' : world),
     DepartDirectly fresh_status
       (start example_tree [true; true; true; true; true; false]) = Ok (cont', w') /\
     root (tree w') = SIZE_MAX /\ cont' = fresh_status).
Proof.
  assert (H1 : (length (oracle (start example_tree [true; true; true; true; true; false]))
                < 7)%nat) by (simpl; lia).
  assert (H2 : Z.of_nat (failures
                 (oracle (start example_tree [true; true; true; true; true; false])))
               <= INT_MAX) by (vm_compute; discriminate).
  split; [exact H1 |]. split; [exact H2 |].
  destruct (direct_root_operations fresh_status
              (start example_tree [true; true; true; true; true; false]) 7 H1 H2)
    as [(c1 & w1 & E1 & R1 & _ & F1 & A1 & D1) (c2 & w2 & E2 & R2 & F2 & A2 & D2)].
  split.
  - exists c1, w1. split; [exact E1 |]. split; [exact R1 |].
    split; [exact F1 |]. split; [exact A1 | exact D1].
  - exists c2, w2. split; [exact E2 |]. split; [exact R2 |].
    destruct c2. simpl in *. subst. reflexivity.
Defined.

Lemma escalation_is_one_way_witness :
  exists (st' : statuses) (w' : world),
    step full_contention_handling (CallDepart 0)
         (set_status fresh_statuses 0
            {| use_snzi_in_arrive := false; use_snzi_in_depart := false;
               use_snzi_tree_flag := true |})
         (start example_tree []) = Ok (st', w') /\
    status_le {| use_snzi_in_arrive := false; use_snzi_in_depart := false;
                 use_snzi_tree_flag := true |} (st' 0) /\
    st' 0 = {| use_snzi_in_arrive := true; use_snzi_in_depart := true;
               use_snzi_tree_flag := true |}.
Proof.
  assert (E : step full_contention_handling (CallDepart 0)
                (set_status fresh_statuses 0
                   {| use_snzi_in_arrive := false; use_snzi_in_depart := false;
                      use_snzi_tree_flag := true |})
                (start example_tree []) =
              Ok (set_status
                    (set_status fresh_statuses 0
                       {| use_snzi_in_arrive := false; use_snzi_in_depart := false;
                          use_snzi_tree_flag := true |}) 0
                    {| use_snzi_in_arrive := true; use_snzi_in_depart := true;
                       use_snzi_tree_flag := true |},
                  start (set_root example_tree SIZE_MAX) []))
    by (vm_compute; reflexivity).
  eexists _, _. split; [exact E |].
  split; [exact (escalation_is_one_way _ _ _ _ _ E 0) | reflexivity].
Defined.


Lemma construct_invalid_argument_iff_witness :
  construct (fun _ => true) 1 2 9 = Throw invalid_argument /\
  construct (fun _ => true) 2 2 9 <> Throw invalid_argument /\
  construct (fun n => n <? 7) 2 2 9 = Throw bad_alloc.
Proof.
  split; [apply (proj1 (construct_invalid_argument_iff (fun _ => true) 1 2 9)); lia |].
  split.
  - intros H. apply (proj1 (construct_invalid_argument_iff (fun _ => true) 2 2 9)) in H.
    lia.
  - vm_compute. reflexivity.
Defined.



(** The scenarios S1 and S5 of the specification, run by one thread. *)
Example scenario_S1 :
  exists (t : snzi) (st1 st2 : statuses) (w1 w2 : world),
    construct (fun _ => true) 2 0 1 = Ok t /\
    run no_contention_handling [CallArrive 0] fresh_statuses (start t []) = Ok (st1, w1) /\
    Query w1 = Ok (true, w1) /\
    run no_contention_handling [CallDepart 0] st1 w1 = Ok (st2, w2) /\
    Query w2 = Ok (false, w2).
Proof.
  eexists _, _, _, _, _. split; [vm_compute; reflexivity |].
  split; [vm_compute; reflexivity |]. split; [reflexivity |].
  split; [vm_compute; reflexivity |]. reflexivity.
Qed.

Example scenario_S5 :
  exists (t : snzi) (st1 st2 : statuses) (w1 w2 : world),
    construct (fun _ => true) 2 1 2 = Ok t /\
    run semi_contention_handling
        [CallArrive 0; CallArrive 0; CallArrive 0;
         CallArrive 1; CallArrive 1; CallDepart 1; CallDepart 1]
        fresh_statuses (start t []) = Ok (st1, w1) /\
    Query w1 = Ok (true, w1) /\
    run semi_contention_handling [CallDepart 0; CallDepart 0; CallDepart 0] st1 w1
      = Ok (st2, w2) /\
    Query w2 = Ok (false, w2) /\
    X <$> others (tree w2) = [0; 0; 0] /\ announce <$> others (tree w2) = [false; false; false].
Proof.
  eexists _, _, _, _, _. split; [vm_compute; reflexivity |].
  split; [vm_compute; reflexivity |]. split; [reflexivity |].
  split; [vm_compute; reflexivity |]. split; [reflexivity |]. split; reflexivity.
Qed.

End Instances.

(** * Further properties of the sources *)

Section StampedReferenceFacts.
Import Word StampedCounter StampedReference.

Lemma wrap32_range (z : Z) : 0 <= wrap32 z < 2 ^ 32.
Proof. unfold wrap32. apply Z.mod_pos_bound. lia. Qed.

Lemma extract_stamp_range (v : Z) : 0 <= extract_stamp v < 2 ^ 32.
Proof. unfold extract_stamp. apply wrap32_range. Qed.

Lemma extract_counter_range (v : Z) : 0 <= extract_counter v < 2 ^ 32.
Proof. unfold extract_counter. apply wrap32_range. Qed.

Lemma pack_range (s c : Z) :
  0 <= s < 2 ^ 32 -> 0 <= c < 2 ^ 32 -> 0 <= pack s c < 2 ^ 64.
Proof. intros Hs Hc. rewrite pack_add by assumption. lia. Qed.

Lemma extract_stamp_pack (s c : Z) :
  0 <= s < 2 ^ 32 -> 0 <= c < 2 ^ 32 -> extract_stamp (pack s c) = s.
Proof.
  intros Hs Hc. rewrite extract_stamp_div by (apply pack_range; assumption).
  rewrite pack_add by assumption.
  rewrite Z.div_add_l by lia. rewrite Z.div_small by lia. lia.
Qed.

Lemma extract_counter_pack (s c : Z) :
  0 <= s < 2 ^ 32 -> 0 <= c < 2 ^ 32 -> extract_counter (pack s c) = c.
Proof.
  intros Hs Hc. rewrite extract_counter_mod, pack_add by assumption.
  rewrite Z.add_comm, Z.mod_add by lia. apply Z.mod_small. lia.
Qed.

Lemma pack_extract (v : Z) :
  0 <= v < 2 ^ 64 -> pack (extract_stamp v) (extract_counter v) = v.
Proof.
  intros Hv.
  rewrite pack_add by (apply extract_stamp_range || apply extract_counter_range).
  rewrite extract_stamp_div, extract_counter_mod by assumption.
  pose proof (Z.div_mod v (2 ^ 32)). lia.
Qed.







Lemma stamp_assign_spec (s : Z) (sc : stamped_counter) :
  0 <= s < 2 ^ 32 ->
  valid (stamp_assign s sc) /\ stamp (stamp_assign s sc) = s /\
  counter (stamp_assign s sc) = counter sc.
Proof.
  intros Hs. pose proof (extract_counter_range (value sc)) as Hc.
  unfold valid, stamp, counter, stamp_assign. simpl.
  rewrite extract_stamp_pack, extract_counter_pack by assumption.
  split; [apply pack_range; assumption | auto].
Qed.

Lemma counter_assign_spec (c : Z) (sc : stamped_counter) :
  0 <= c < 2 ^ 32 ->
  valid (counter_assign c sc) /\ stamp (counter_assign c sc) = stamp sc /\
  counter (counter_assign c sc) = c.
Proof.
  intros Hc. pose proof (extract_stamp_range (value sc)) as Hs.
  unfold valid, stamp, counter, counter_assign. simpl.
  rewrite extract_stamp_pack, extract_counter_pack by assumption.
  split; [apply pack_range; assumption | auto].
Qed.

Lemma stamped_counter_ext (a b : stamped_counter) :
  valid a -> valid b -> stamp a = stamp b -> counter a = counter b -> a = b.
Proof.
  destruct a as [x], b as [y]. unfold valid, stamp, counter. simpl.
  intros Hx Hy Hs Hc. f_equal.
  rewrite <- (pack_extract x Hx), <- (pack_extract y Hy). congruence.
Qed.

Lemma counter_pre_increment_spec (sc : stamped_counter) :
  counter_pre_increment sc = Ok (counter_assign (wrap32 (counter sc + 1)) sc).
Proof. reflexivity. Qed.

Lemma counter_pre_decrement_spec (sc : stamped_counter) :
  counter_pre_decrement sc = Ok (counter_assign (wrap32 (counter sc - 1)) sc).
Proof. reflexivity. Qed.

Lemma stamp_pre_increment_spec (sc : stamped_counter) :
  stamp_pre_increment sc = Ok (stamp_assign (wrap32 (stamp sc + 1)) sc).
Proof. reflexivity. Qed.

Lemma stamp_pre_decrement_spec (sc : stamped_counter) :
  stamp_pre_decrement sc = Ok (stamp_assign (wrap32 (stamp sc - 1)) sc).
Proof. reflexivity. Qed.

Lemma wrap32_succ_pred (x : Z) : 0 <= x < 2 ^ 32 -> wrap32 (wrap32 (x + 1) - 1) = x.
Proof.
  intros Hx. unfold wrap32.
  rewrite Zminus_mod_idemp_l. replace (x + 1 - 1) with x by lia.
  apply Z.mod_small. lia.
Qed.

Lemma wrap32_pred_succ (x : Z) : 0 <= x < 2 ^ 32 -> wrap32 (wrap32 (x - 1) + 1) = x.
Proof.
  intros Hx. unfold wrap32.
  rewrite Zplus_mod_idemp_l. replace (x - 1 + 1) with x by lia.
  apply Z.mod_small. lia.
Qed.

(** X2. [n] increments of the counter part add [n] modulo [2^32]: the
    counter wraps around within its own 32 bits and the stamp is never
    carried into. *)
Theorem counter_increments_wrap_without_carry (n : nat) (sc : stamped_counter) :
  valid sc ->
  exists sc' : stamped_counter,
    counter_increments n sc = Ok sc' /\ valid sc' /\
    stamp sc' = stamp sc /\
    counter sc' = (counter sc + Z.of_nat n) mod 2 ^ 32.
Proof.
  revert sc. induction n as [| n IH]; intros sc Hv.
  - exists sc. split; [reflexivity |]. split; [exact Hv |]. split; [reflexivity |].
    rewrite Z.add_0_r. symmetry. apply Z.mod_small. apply extract_counter_range.
  - change (counter_increments (S n) sc)
      with (rbind (counter_pre_increment sc) (counter_increments n)).
    rewrite counter_pre_increment_spec. simpl rbind.
    destruct (counter_assign_spec (wrap32 (counter sc + 1)) sc (wrap32_range _))
      as (Hv1 & Hs1 & Hc1).
    destruct (IH _ Hv1) as (sc' & E & Hv' & Hs' & Hc').
    exists sc'. split; [exact E |]. split; [exact Hv' |].
    split; [congruence |].
    rewrite Hc', Hc1. unfold wrap32. rewrite Zplus_mod_idemp_l.
    f_equal. lia.
Qed.

Lemma counter_increments_wrap_without_carry_witness :
  valid (make 5 0xFFFFFFFE) /\
  exists sc' : stamped_counter,
    counter_increments 3 (make 5 0xFFFFFFFE) = Ok sc' /\ valid sc' /\
    stamp sc' = stamp (make 5 0xFFFFFFFE) /\
    counter sc' = (counter (make 5 0xFFFFFFFE) + Z.of_nat 3) mod 2 ^ 32.
Proof.
  assert (Hv : valid (make 5 0xFFFFFFFE)) by (vm_compute; split; [discriminate | reflexivity]).
  split; [exact Hv |].
  exact (counter_increments_wrap_without_carry 3 (make 5 0xFFFFFFFE) Hv).
Defined.

(** X3. On both proxies [++] and [--] undo each other, at the wrap-around
    too, and the postfix forms return the part as it was before. *)
Theorem increment_decrement_round_trip (sc : stamped_counter) :
  valid sc ->
  rbind (stamp_pre_increment sc) stamp_pre_decrement = Ok sc /\
  rbind (stamp_pre_decrement sc) stamp_pre_increment = Ok sc /\
  rbind (counter_pre_increment sc) counter_pre_decrement = Ok sc /\
  rbind (counter_pre_decrement sc) counter_pre_increment = Ok sc /\
  rbind (stamp_post_increment sc) (fun r => stamp_post_decrement (snd r))
    = Ok (wrap32 (stamp sc + 1), sc) /\
  rbind (counter_post_increment sc) (fun r => counter_post_decrement (snd r))
    = Ok (wrap32 (counter sc + 1), sc) /\
  (exists sc' : stamped_counter,
     stamp_post_increment sc = Ok (stamp sc, sc') /\ stamp sc' = wrap32 (stamp sc + 1)) /\
  (exists sc' : stamped_counter,
     counter_post_increment sc = Ok (counter sc, sc') /\
     counter sc' = wrap32 (counter sc + 1)).
Proof.
  intros Hv.
  pose proof (extract_stamp_range (value sc)) as Hs.
  pose proof (extract_counter_range (value sc)) as Hc.
  fold (stamp sc) in Hs. fold (counter sc) in Hc.
  destruct (stamp_assign_spec (wrap32 (stamp sc + 1)) sc (wrap32_range _)) as (Hv1 & Hs1 & Hc1).
  destruct (stamp_assign_spec (wrap32 (stamp sc - 1)) sc (wrap32_range _)) as (Hv2 & Hs2 & Hc2).
  destruct (counter_assign_spec (wrap32 (counter sc + 1)) sc (wrap32_range _))
    as (Hv3 & Hs3 & Hc3).
  destruct (counter_assign_spec (wrap32 (counter sc - 1)) sc (wrap32_range _))
    as (Hv4 & Hs4 & Hc4).
  assert (E1 : stamp_assign (wrap32 (stamp (stamp_assign (wrap32 (stamp sc + 1)) sc) - 1))
                 (stamp_assign (wrap32 (stamp sc + 1)) sc) = sc).
  { destruct (stamp_assign_spec
                (wrap32 (stamp (stamp_assign (wrap32 (stamp sc + 1)) sc) - 1))
                (stamp_assign (wrap32 (stamp sc + 1)) sc) (wrap32_range _)) as (Hv' & Hs' & Hc').
    apply stamped_counter_ext; [exact Hv' | exact Hv | |].
    - rewrite Hs', Hs1. apply wrap32_succ_pred. exact Hs.
    - rewrite Hc', Hc1. reflexivity. }
  assert (E2 : stamp_assign (wrap32 (stamp (stamp_assign (wrap32 (stamp sc - 1)) sc) + 1))
                 (stamp_assign (wrap32 (stamp sc - 1)) sc) = sc).
  { destruct (stamp_assign_spec
                (wrap32 (stamp (stamp_assign (wrap32 (stamp sc - 1)) sc) + 1))
                (stamp_assign (wrap32 (stamp sc - 1)) sc) (wrap32_range _)) as (Hv' & Hs' & Hc').
    apply stamped_counter_ext; [exact Hv' | exact Hv | |].
    - rewrite Hs', Hs2. apply wrap32_pred_succ. exact Hs.
    - rewrite Hc', Hc2. reflexivity. }
  assert (E3 : counter_assign
                 (wrap32 (counter (counter_assign (wrap32 (counter sc + 1)) sc) - 1))
                 (counter_assign (wrap32 (counter sc + 1)) sc) = sc).
  { destruct (counter_assign_spec
                (wrap32 (counter (counter_assign (wrap32 (counter sc + 1)) sc) - 1))
                (counter_assign (wrap32 (counter sc + 1)) sc) (wrap32_range _))
      as (Hv' & Hs' & Hc').
    apply stamped_counter_ext; [exact Hv' | exact Hv | |].
    - rewrite Hs', Hs3. reflexivity.
    - rewrite Hc', Hc3. apply wrap32_succ_pred. exact Hc. }
  assert (E4 : counter_assign
                 (wrap32 (counter (counter_assign (wrap32 (counter sc - 1)) sc) + 1))
                 (counter_assign (wrap32 (counter sc - 1)) sc) = sc).
  { destruct (counter_assign_spec
                (wrap32 (counter (counter_assign (wrap32 (counter sc - 1)) sc) + 1))
                (counter_assign (wrap32 (counter sc - 1)) sc) (wrap32_range _))
      as (Hv' & Hs' & Hc').
    apply stamped_counter_ext; [exact Hv' | exact Hv | |].
    - rewrite Hs', Hs4. reflexivity.
    - rewrite Hc', Hc4. apply wrap32_pred_succ. exact Hc. }
  split; [rewrite stamp_pre_increment_spec; simpl rbind;
          rewrite stamp_pre_decrement_spec, E1; reflexivity |].
  split; [rewrite stamp_pre_decrement_spec; simpl rbind;
          rewrite stamp_pre_increment_spec, E2; reflexivity |].
  split; [rewrite counter_pre_increment_spec; simpl rbind;
          rewrite counter_pre_decrement_spec, E3; reflexivity |].
  split; [rewrite counter_pre_decrement_spec; simpl rbind;
          rewrite counter_pre_increment_spec, E4; reflexivity |].
  split.
  { unfold stamp_post_increment. rewrite stamp_pre_increment_spec. simpl rbind.
    unfold stamp_post_decrement. rewrite stamp_pre_decrement_spec. simpl rbind.
    rewrite E1. unfold get_stamp. fold (stamp (stamp_assign (wrap32 (stamp sc + 1)) sc)).
    rewrite Hs1. reflexivity. }
  split.
  { unfold counter_post_increment. rewrite counter_pre_increment_spec. simpl rbind.
    unfold counter_post_decrement. rewrite counter_pre_decrement_spec. simpl rbind.
    rewrite E3. unfold get_counter.
    fold (counter (counter_assign (wrap32 (counter sc + 1)) sc)).
    rewrite Hc3. reflexivity. }
  split.
  - eexists. unfold stamp_post_increment. rewrite stamp_pre_increment_spec.
    split; [reflexivity | exact Hs1].
  - eexists. unfold counter_post_increment. rewrite counter_pre_increment_spec.
    split; [reflexivity | exact Hc3].
Qed.

Lemma increment_decrement_round_trip_witness :
  valid (make 0xFFFFFFFF 0) /\
  rbind (stamp_pre_increment (make 0xFFFFFFFF 0)) stamp_pre_decrement
    = Ok (make 0xFFFFFFFF 0) /\
  rbind (counter_pre_decrement (make 0xFFFFFFFF 0)) counter_pre_increment
    = Ok (make 0xFFFFFFFF 0).
Proof.
  assert (Hv : valid (make 0xFFFFFFFF 0)) by (vm_compute; split; [discriminate | reflexivity]).
  split; [exact Hv |].
  destruct (increment_decrement_round_trip (make 0xFFFFFFFF 0) Hv) as (H1 & _ & _ & H4 & _).
  split; [exact H1 | exact H4].
Defined.

(** X4. [operator==] holds exactly when the stamps are equal and the
    counters are equal, and [operator!=] is its negation. *)
Theorem equal_iff_same_parts (lhs rhs : stamped_counter) :
  valid lhs -> valid rhs ->
  (equal lhs rhs = true <-> stamp lhs = stamp rhs /\ counter lhs = counter rhs) /\
  (not_equal lhs rhs = true <-> stamp lhs <> stamp rhs \/ counter lhs <> counter rhs).
Proof.
  intros Hl Hr.
  assert (Heq : equal lhs rhs = true <-> stamp lhs = stamp rhs /\ counter lhs = counter rhs).
  { unfold equal. rewrite Z.eqb_eq. split.
    - intros E. unfold stamp, counter. rewrite E. auto.
    - intros [Hs Hc]. f_equal. apply stamped_counter_ext; assumption. }
  split; [exact Heq |].
  unfold not_equal. rewrite negb_true_iff, <- not_true_iff_false, Heq.
  destruct (Z.eq_dec (stamp lhs) (stamp rhs)), (Z.eq_dec (counter lhs) (counter rhs));
    tauto.
Qed.

Lemma equal_iff_same_parts_witness :
  valid (make 1 2) /\ valid (of_value 0x100000002) /\
  (equal (make 1 2) (of_value 0x100000002) = true <->
   stamp (make 1 2) = stamp (of_value 0x100000002) /\
   counter (make 1 2) = counter (of_value 0x100000002)).
Proof.
  assert (H1 : valid (make 1 2)) by (vm_compute; split; [discriminate | reflexivity]).
  assert (H2 : valid (of_value 0x100000002))
    by (vm_compute; split; [discriminate | reflexivity]).
  split; [exact H1 |]. split; [exact H2 |].
  exact (proj1 (equal_iff_same_parts (make 1 2) (of_value 0x100000002) H1 H2)).
Defined.

(** X5. Assigning the two parts through the proxies, in either order, gives
    the stamped counter built from those parts, whatever the object held
    before; and copying both parts of another object copies its value. *)
Theorem assignments_through_both_references (s c : Z) (sc other : stamped_counter) :
  0 <= s < 2 ^ 32 -> 0 <= c < 2 ^ 32 -> valid other ->
  stamp_assign s (counter_assign c sc) = make s c /\
  counter_assign c (stamp_assign s sc) = make s c /\
  counter_assign_from other (stamp_assign_from other sc) = other /\
  stamp_assign_from other (counter_assign_from other sc) = other.
Proof.
  intros Hs Hc Ho.
  pose proof (extract_stamp_range (value other)) as Hos.
  pose proof (extract_counter_range (value other)) as Hoc.
  unfold stamp_assign_from, counter_assign_from, stamp_assign, counter_assign, make.
  simpl value.
  rewrite !extract_counter_pack, !extract_stamp_pack
    by (assumption || apply extract_stamp_range || apply extract_counter_range).
  split; [reflexivity |]. split; [reflexivity |].
  rewrite (pack_extract (value other) Ho). destruct other; auto.
Qed.

Lemma assignments_through_both_references_witness :
  0 <= 3 < 2 ^ 32 /\ 0 <= 4 < 2 ^ 32 /\ valid (make 9 9) /\
  stamp_assign 3 (counter_assign 4 (of_value 0xFFFFFFFFFFFFFFFF)) = make 3 4 /\
  counter_assign 4 (stamp_assign 3 (of_value 0xFFFFFFFFFFFFFFFF)) = make 3 4 /\
  counter_assign_from (make 9 9) (stamp_assign_from (make 9 9) (of_value 0xFFFFFFFFFFFFFFFF))
    = make 9 9 /\
  stamp_assign_from (make 9 9) (counter_assign_from (make 9 9) (of_value 0xFFFFFFFFFFFFFFFF))
    = make 9 9.
Proof.
  assert (Hv : valid (make 9 9)) by (vm_compute; split; [discriminate | reflexivity]).
  split; [lia |]. split; [lia |]. split; [exact Hv |].
  apply (assignments_through_both_references 3 4 (of_value 0xFFFFFFFFFFFFFFFF) (make 9 9));
    [lia | lia | exact Hv].
Defined.

End StampedReferenceFacts.

Section HistoryFacts.
Import Word Snzi SnziSpec SnziHistory.

Lemma in_children (K i j : Z) :
  In j (children K i) <-> K * i + 1 <= j <= K * i + K.
Proof.
  unfold children. rewrite in_map_iff. split.
  - intros (m & <- & Hm). apply in_seq in Hm. lia.
  - intros Hj. exists (Z.to_nat (j - K * i)). split; [lia |].
    apply in_seq. lia.
Qed.

Lemma children_parent (K i j : Z) :
  1 <= K -> 0 <= i -> 1 <= j <= SIZE_MAX ->
  In j (children K i) <-> parent_index K j = i.
Proof.
  intros HK Hi Hj. rewrite in_children, parent_index_small by assumption.
  split.
  - intros H. symmetry. apply (Z.div_unique (j - 1) K i (j - 1 - K * i)); lia.
  - intros <-. pose proof (Z.mul_div_le (j - 1) K ltac:(lia)).
    pose proof (Z.mul_succ_div_gt (j - 1) K ltac:(lia)). lia.
Qed.

Lemma NoDup_children (K i : Z) : List.NoDup (children K i).
Proof.
  unfold children. generalize 1%nat as a.
  induction (Z.to_nat K) as [| n IH]; intros a; simpl; constructor.
  - rewrite in_map_iff. intros (m & E & Hm). apply in_seq in Hm. lia.
  - apply IH.
Qed.

Lemma nonzero_among_nonneg (c : counters) (l : list Z) : 0 <= nonzero_among c l.
Proof.
  induction l as [| j l IH]; simpl; [lia |]. destruct (count_at c j =? 0); lia.
Qed.

Lemma nonzero_among_le_length (c : counters) (l : list Z) :
  nonzero_among c l <= Z.of_nat (length l).
Proof.
  induction l as [| j l IH]; simpl length; simpl nonzero_among; [lia |].
  destruct (count_at c j =? 0); lia.
Qed.

Lemma nonzero_among_ext (c c' : counters) (l : list Z) :
  (forall j : Z, In j l -> count_at c' j = count_at c j) ->
  nonzero_among c' l = nonzero_among c l.
Proof.
  induction l as [| j l IH]; intros H; simpl; [reflexivity |].
  rewrite (H j) by (left; reflexivity). rewrite IH; [reflexivity |].
  intros j' Hj'. apply H. right. exact Hj'.
Qed.

Lemma nonzero_among_change (c c' : counters) (j : Z) (l : list Z) :
  List.NoDup l -> In j l ->
  (forall j' : Z, In j' l -> j' <> j -> count_at c' j' = count_at c j') ->
  nonzero_among c' l =
    nonzero_among c l + (if count_at c' j =? 0 then 0 else 1)
                      - (if count_at c j =? 0 then 0 else 1).
Proof.
  induction l as [| a l IH]; intros Hnd Hin Hsame; [destruct Hin |].
  inversion Hnd as [| a' l' Hnotin Hnd' ]; subst. simpl.
  destruct (Z.eq_dec a j) as [-> | Hne].
  - rewrite (nonzero_among_ext c c' l).
    + lia.
    + intros j' Hj'. apply Hsame; [right; exact Hj' |].
      intros ->. contradiction.
  - destruct Hin as [-> | Hin]; [contradiction |].
    rewrite (Hsame a) by (auto; left; reflexivity).
    rewrite IH; [lia | exact Hnd' | exact Hin |].
    intros j' Hj' Hjj. apply Hsame; [right; exact Hj' | exact Hjj].
Qed.

Lemma nonzero_among_pos (c : counters) (j : Z) (l : list Z) :
  In j l -> count_at c j <> 0 -> 1 <= nonzero_among c l.
Proof.
  induction l as [| a l IH]; intros Hin Hj; [destruct Hin |]. simpl.
  pose proof (nonzero_among_nonneg c l).
  destruct Hin as [-> | Hin].
  - destruct (Z.eqb_spec (count_at c j) 0); [contradiction | lia].
  - specialize (IH Hin Hj). destruct (count_at c a =? 0); lia.
Qed.

Lemma nonzero_among_exists (c : counters) (l : list Z) :
  1 <= nonzero_among c l -> exists j : Z, In j l /\ count_at c j <> 0.
Proof.
  induction l as [| a l IH]; simpl; [lia |].
  destruct (Z.eqb_spec (count_at c a) 0) as [E | Hne].
  - intros H. destruct (IH ltac:(lia)) as (j & Hin & Hj). exists j. auto.
  - intros _. exists a. auto.
Qed.

Lemma node_count_set_count (c : counters) (i j x : Z) :
  1 <= i -> 0 <= j -> (Z.to_nat i < length (c_nodes c))%nat ->
  node_count (set_count c i x) j = if j =? i then x else node_count c j.
Proof.
  intros Hi Hj Hlen. unfold node_count.
  destruct (Z.eqb_spec j 0) as [-> | Hj0].
  - destruct (Z.eqb_spec 0 i); [lia | reflexivity].
  - destruct (Z.eqb_spec j i) as [-> | Hji].
    + apply count_at_set_count_eq. exact Hlen.
    + apply count_at_set_count_ne. lia.
Qed.

(** The children of [j] after the counter of [i] is set to [x]. *)
Lemma nonzero_among_set_count (K : Z) (c : counters) (i j x : Z) :
  1 <= K -> 1 <= i <= SIZE_MAX -> 0 <= j ->
  (Z.to_nat i < length (c_nodes c))%nat ->
  nonzero_among (set_count c i x) (children K j) =
    if j =? parent_index K i
    then nonzero_among c (children K j) + (if x =? 0 then 0 else 1)
                                        - (if count_at c i =? 0 then 0 else 1)
    else nonzero_among c (children K j).
Proof.
  intros HK Hi Hj Hlen.
  destruct (Z.eqb_spec j (parent_index K i)) as [-> | Hne].
  - rewrite (nonzero_among_change c (set_count c i x) i).
    + rewrite count_at_set_count_eq by exact Hlen. reflexivity.
    + apply NoDup_children.
    + apply children_parent; [exact HK | exact Hj | exact Hi | reflexivity].
    + intros j' Hj' Hjj. apply count_at_set_count_ne.
      apply in_children in Hj'. lia.
  - apply nonzero_among_ext. intros j' Hj'.
    apply count_at_set_count_ne.
    assert (j' <> i).
    { intros ->. apply Hne. symmetry.
      apply children_parent; [exact HK | exact Hj | exact Hi | exact Hj']. }
    apply in_children in Hj'. lia.
Qed.

Lemma counted_nonneg (K n : Z) (s : Z -> Z) (c : counters) (i : Z) :
  counted K n s c -> 0 <= i < Z.of_nat (length (c_nodes c)) -> 0 <= node_count c i <= n.
Proof.
  intros Hc Hi. pose proof (counted_nodes _ _ _ _ Hc i Hi).
  pose proof (counted_surplus _ _ _ _ Hc i).
  pose proof (counted_bound _ _ _ _ Hc i Hi).
  pose proof (nonzero_among_nonneg c (children K i)). lia.
Qed.

Lemma counted_ext (K n : Z) (s s' : Z -> Z) (c : counters) :
  (forall i : Z, s' i = s i) -> counted K n s c -> counted K n s' c.
Proof.
  intros E [H1 H2 H3]. split.
  - intros i. rewrite E. apply H1.
  - intros i Hi. rewrite E. apply H2. exact Hi.
  - exact H3.
Qed.

Lemma counted_weaken (K n n' : Z) (s : Z -> Z) (c : counters) :
  n <= n' -> counted K n s c -> counted K n' s c.
Proof.
  intros Hn [H1 H2 H3]. split; [exact H1 | exact H2 |].
  intros i Hi. specialize (H3 i Hi). lia.
Qed.

Lemma count_at_Arrive_frame (K : Z) (fuel : nat) (p j : Z) (c : counters) :
  1 <= K -> 0 <= p <= SIZE_MAX -> p < j ->
  count_at (abs_Arrive K fuel p c) j = count_at c j.
Proof.
  intros HK Hp Hj. unfold count_at.
  rewrite abs_Arrive_frame by (try assumption; lia). reflexivity.
Qed.

Lemma nonzero_among_root (c : counters) (r : Z) (l : list Z) :
  nonzero_among {| c_root := r; c_nodes := c_nodes c |} l = nonzero_among c l.
Proof. apply nonzero_among_ext. reflexivity. Qed.

Lemma root_Arrive_counted (K n : Z) (s : Z -> Z) (c : counters) :
  counted K n s c -> 0 <= n < SIZE_MAX -> 1 <= Z.of_nat (length (c_nodes c)) ->
  counted K (n + 1) (upd s 0 1) {| c_root := wrap (c_root c + 1); c_nodes := c_nodes c |}.
Proof.
  intros Hc Hn Hlen.
  pose proof (counted_nonneg K n s c 0 Hc ltac:(lia)) as Hr.
  change (node_count c 0) with (c_root c) in Hr.
  rewrite wrap_small by lia.
  split.
  - intros i. unfold upd. pose proof (counted_surplus _ _ _ _ Hc i).
    destruct (i =? 0); lia.
  - simpl c_nodes. intros i Hi. rewrite nonzero_among_root.
    pose proof (counted_nodes _ _ _ _ Hc i Hi) as Hnode.
    unfold node_count, upd in *. simpl c_root.
    destruct (Z.eqb_spec i 0) as [-> | Hne]; [lia | exact Hnode].
  - simpl c_nodes. intros i Hi.
    pose proof (counted_bound _ _ _ _ Hc i Hi) as Hb.
    unfold node_count in *. simpl c_root.
    destruct (Z.eqb_spec i 0) as [-> | Hne]; [lia |].
    change (count_at {| c_root := c_root c + 1; c_nodes := c_nodes c |} i)
      with (count_at c i). lia.
Qed.

(** An arrival at node [i] adds one to the surplus of [i]. *)
Lemma abs_Arrive_counted (K : Z) (fuel : nat) :
  1 <= K ->
  forall (i n : Z) (s : Z -> Z) (c : counters),
    counted K n s c -> 0 <= n < SIZE_MAX ->
    Z.of_nat (length (c_nodes c)) <= SIZE_MAX ->
    0 <= i < Z.of_nat (length (c_nodes c)) -> (Z.to_nat i <= fuel)%nat ->
    counted K (n + 1) (upd s i 1) (abs_Arrive K fuel i c).
Proof.
  intros HK. induction fuel as [| fuel IH]; intros i n s c Hc Hn Hlen Hi Hfuel.
  - assert (i = 0) as -> by lia. rewrite abs_Arrive_root.
    apply root_Arrive_counted; [exact Hc | exact Hn | lia].
  - destruct (Z.eq_dec i 0) as [-> | Hi0].
    { rewrite abs_Arrive_root. apply root_Arrive_counted; [exact Hc | exact Hn | lia]. }
    destruct (lookup_lt_is_Some_2 (c_nodes c) (Z.to_nat i) ltac:(lia)) as [x Hx].
    pose proof (count_at_lookup c i x Hx) as Hcx.
    pose proof (parent_index_bounds K i HK ltac:(lia)) as Hp.
    pose proof (counted_nonneg K n s c i Hc Hi) as Hxr.
    pose proof (counted_nodes _ _ _ _ Hc i Hi) as Hxi.
    unfold node_count in Hxr, Hxi.
    destruct (Z.eqb_spec i 0) as [| _]; [contradiction |].
    rewrite Hcx in Hxr, Hxi.
    rewrite abs_Arrive_node, Hcx by assumption.
    set (p := parent_index K i) in *.
    set (c1 := if x =? 0 then abs_Arrive K fuel p c else c).
    set (s1 := if x =? 0 then upd s p 1 else s).
    assert (H1 : counted K (n + 1) s1 c1 /\
                 length (c_nodes c1) = length (c_nodes c) /\
                 count_at c1 i = x /\
                 nonzero_among c1 (children K i) = nonzero_among c (children K i)).
    { subst c1 s1. destruct (Z.eqb_spec x 0) as [-> | Hx0].
      - split; [apply IH; try assumption; lia |].
        split; [apply abs_Arrive_length |].
        split; [rewrite count_at_Arrive_frame by (try assumption; lia); exact Hcx |].
        apply nonzero_among_ext. intros j Hj. apply in_children in Hj.
        apply count_at_Arrive_frame; [exact HK | lia | nia].
      - split; [apply (counted_weaken K n); [lia | exact Hc] |]. auto. }
    destruct H1 as (Hc1 & Hl1 & Hx1 & Hnz1).
    rewrite wrap_small by lia.
    assert (Hs1p : s1 p = s p + (if x =? 0 then 1 else 0)).
    { subst s1. unfold upd. destruct (x =? 0); [rewrite Z.eqb_refl |]; lia. }
    assert (Hs1o : forall j : Z, j <> p -> s1 j = s j).
    { intros j Hj. subst s1. unfold upd. destruct (x =? 0); [| reflexivity].
      destruct (Z.eqb_spec j p); [contradiction | reflexivity]. }
    split.
    + intros j. unfold upd. pose proof (counted_surplus _ _ _ _ Hc j).
      destruct (j =? i); lia.
    + unfold set_count at 1. simpl c_nodes. rewrite length_insert. intros j Hj.
      rewrite node_count_set_count by lia.
      rewrite (nonzero_among_set_count K c1 i j (x + 1)) by lia.
      fold p. rewrite Hx1.
      pose proof (counted_nodes _ _ _ _ Hc1 j ltac:(lia)) as Hj1.
      unfold upd.
      destruct (Z.eqb_spec j i) as [-> | Hji].
      * destruct (Z.eqb_spec i p) as [| _]; [lia |]. rewrite Hnz1. lia.
      * destruct (Z.eqb_spec j p) as [-> | Hjp].
        -- rewrite Hj1, Hs1p.
           destruct (Z.eqb_spec (x + 1) 0); [lia |]. destruct (x =? 0); lia.
        -- rewrite Hj1, Hs1o by exact Hjp. reflexivity.
    + unfold set_count at 1. simpl c_nodes. rewrite length_insert. intros j Hj.
      rewrite node_count_set_count by lia.
      destruct (Z.eqb_spec j i); [lia |].
      apply (counted_bound _ _ _ _ Hc1). lia.
Qed.

Lemma root_Depart_counted (K n : Z) (s : Z -> Z) (c : counters) :
  counted K n s c -> n <= SIZE_MAX -> 1 <= Z.of_nat (length (c_nodes c)) -> 1 <= s 0 ->
  counted K n (upd s 0 (-1)) {| c_root := wrap (c_root c - 1); c_nodes := c_nodes c |}.
Proof.
  intros Hc Hn Hlen Hs.
  pose proof (counted_nonneg K n s c 0 Hc ltac:(lia)) as Hr.
  pose proof (counted_nodes _ _ _ _ Hc 0 ltac:(lia)) as H0.
  pose proof (nonzero_among_nonneg c (children K 0)) as Hnn.
  change (node_count c 0) with (c_root c) in Hr, H0.
  rewrite wrap_small by lia.
  split.
  - intros i. unfold upd. pose proof (counted_surplus _ _ _ _ Hc i).
    destruct (Z.eqb_spec i 0) as [-> |]; lia.
  - simpl c_nodes. intros i Hi. rewrite nonzero_among_root.
    pose proof (counted_nodes _ _ _ _ Hc i Hi) as Hnode.
    unfold node_count, upd in *. simpl c_root.
    destruct (Z.eqb_spec i 0) as [-> | Hne]; [lia | exact Hnode].
  - simpl c_nodes. intros i Hi.
    pose proof (counted_bound _ _ _ _ Hc i Hi) as Hb.
    unfold node_count in *. simpl c_root.
    destruct (Z.eqb_spec i 0) as [-> | Hne]; [lia |].
    change (count_at {| c_root := c_root c - 1; c_nodes := c_nodes c |} i)
      with (count_at c i). lia.
Qed.

(** A departure from node [i], which has a surplus, takes one from it. *)
Lemma abs_Depart_counted (K : Z) (fuel : nat) :
  1 <= K ->
  forall (i n : Z) (s : Z -> Z) (c : counters),
    counted K n s c -> n <= SIZE_MAX ->
    Z.of_nat (length (c_nodes c)) <= SIZE_MAX ->
    0 <= i < Z.of_nat (length (c_nodes c)) -> (Z.to_nat i <= fuel)%nat ->
    1 <= s i ->
    counted K n (upd s i (-1)) (abs_Depart K fuel i c).
Proof.
  intros HK. induction fuel as [| fuel IH]; intros i n s c Hc Hn Hlen Hi Hfuel Hsi.
  - assert (i = 0) as -> by lia. rewrite abs_Depart_root.
    apply root_Depart_counted; [exact Hc | exact Hn | lia | exact Hsi].
  - destruct (Z.eq_dec i 0) as [-> | Hi0].
    { rewrite abs_Depart_root.
      apply root_Depart_counted; [exact Hc | exact Hn | lia | exact Hsi]. }
    destruct (lookup_lt_is_Some_2 (c_nodes c) (Z.to_nat i) ltac:(lia)) as [x Hx].
    pose proof (count_at_lookup c i x Hx) as Hcx.
    pose proof (parent_index_bounds K i HK ltac:(lia)) as Hp.
    pose proof (counted_nonneg K n s c i Hc Hi) as Hxr.
    pose proof (counted_nodes _ _ _ _ Hc i Hi) as Hxi.
    pose proof (nonzero_among_nonneg c (children K i)) as Hnn.
    unfold node_count in Hxr, Hxi.
    destruct (Z.eqb_spec i 0) as [| _]; [contradiction |].
    rewrite Hcx in Hxr, Hxi.
    rewrite abs_Depart_node, Hcx by assumption.
    set (p := parent_index K i) in *.
    rewrite wrap_small by lia.
    set (c1 := set_count c i (x - 1)).
    set (s1 := if x =? 1 then upd (upd s i (-1)) p 1 else upd s i (-1)).
    assert (Hl1 : length (c_nodes c1) = length (c_nodes c)).
    { subst c1. unfold set_count. simpl. apply length_insert. }
    assert (Hs1 : forall j : Z,
               s1 j = (if j =? i then s j - 1 else s j)
                      + (if (x =? 1) && (j =? p) then 1 else 0)).
    { intros j. subst s1. unfold upd.
      destruct (x =? 1); destruct (j =? i); destruct (j =? p); simpl; lia. }
    assert (Hc1 : counted K n s1 c1).
    { split.
      - intros j. rewrite Hs1. pose proof (counted_surplus _ _ _ _ Hc j).
        assert (j = i -> 1 <= s j) by (intros ->; exact Hsi).
        destruct (Z.eqb_spec j i); destruct ((x =? 1) && (j =? p)); lia.
      - rewrite Hl1. intros j Hj. subst c1.
        rewrite node_count_set_count by lia.
        rewrite (nonzero_among_set_count K c i j (x - 1)) by lia.
        fold p. rewrite Hcx, Hs1.
        pose proof (counted_nodes _ _ _ _ Hc j Hj) as Hjc.
        destruct (Z.eqb_spec j i) as [-> | Hji].
        + destruct (Z.eqb_spec i p) as [| _]; [lia |].
          rewrite andb_false_r. lia.
        + destruct (Z.eqb_spec j p) as [-> | Hjp].
          * rewrite Hjc, andb_true_r. destruct (Z.eqb_spec x 0); [lia |].
            destruct (Z.eqb_spec x 1) as [-> | Hx1].
            -- simpl. lia.
            -- destruct (Z.eqb_spec (x - 1) 0); lia.
          * rewrite Hjc, andb_false_r. lia.
      - rewrite Hl1. intros j Hj. subst c1.
        rewrite node_count_set_count by lia.
        pose proof (counted_bound _ _ _ _ Hc j Hj).
        destruct (Z.eqb_spec j i); lia. }
    destruct (Z.eqb_spec x 1) as [-> | Hx1].
    + apply (counted_ext K n (upd s1 p (-1))).
      * intros j. unfold upd at 2. rewrite Hs1. unfold upd. simpl.
        destruct (Z.eqb_spec j p); destruct (Z.eqb_spec j i); lia.
      * apply IH; try assumption; try lia.
        rewrite Hs1, Z.eqb_refl. simpl.
        pose proof (counted_surplus _ _ _ _ Hc p).
        destruct (Z.eqb_spec p i); lia.
    + apply (counted_ext K n s1); [| exact Hc1].
      intros j. subst s1. reflexivity.
Qed.

(** Where the counters record a surplus, the root is non-zero exactly
    when some node has a surplus. *)
Lemma counted_upward (K n : Z) (s : Z -> Z) (c : counters) :
  1 <= K -> Z.of_nat (length (c_nodes c)) <= SIZE_MAX -> counted K n s c ->
  forall i : Z,
    0 <= i < Z.of_nat (length (c_nodes c)) -> node_count c i <> 0 -> c_root c <> 0.
Proof.
  intros HK Hlen Hc.
  assert (H : forall (m : nat) (i : Z),
             i <= Z.of_nat m -> 0 <= i < Z.of_nat (length (c_nodes c)) ->
             node_count c i <> 0 -> c_root c <> 0).
  { induction m as [| m IH]; intros i Him Hi Hci.
    - assert (i = 0) as -> by lia. exact Hci.
    - destruct (Z.eq_dec i 0) as [-> | Hi0]; [exact Hci |].
      pose proof (parent_index_bounds K i HK ltac:(lia)) as Hp.
      assert (Hin : In i (children K (parent_index K i))).
      { apply children_parent; [exact HK | lia | lia | reflexivity]. }
      assert (Hcount : count_at c i <> 0).
      { unfold node_count in Hci. destruct (Z.eqb_spec i 0); [contradiction | exact Hci]. }
      pose proof (nonzero_among_pos c i _ Hin Hcount) as Hpos.
      pose proof (counted_nodes _ _ _ _ Hc (parent_index K i) ltac:(lia)) as Hnode.
      pose proof (counted_surplus _ _ _ _ Hc (parent_index K i)) as Hsur.
      apply (IH (parent_index K i)); lia. }
  intros i Hi Hci. apply (H (Z.to_nat i) i); [lia | exact Hi | exact Hci].
Qed.

Lemma counted_downward (K n : Z) (s : Z -> Z) (c : counters) :
  1 <= K -> counted K n s c ->
  forall i : Z,
    0 <= i < Z.of_nat (length (c_nodes c)) -> node_count c i <> 0 ->
    exists j : Z, i <= j < Z.of_nat (length (c_nodes c)) /\ 1 <= s j.
Proof.
  intros HK Hc.
  assert (H : forall (m : nat) (i : Z),
             Z.of_nat (length (c_nodes c)) - i <= Z.of_nat m ->
             0 <= i < Z.of_nat (length (c_nodes c)) -> node_count c i <> 0 ->
             exists j : Z, i <= j < Z.of_nat (length (c_nodes c)) /\ 1 <= s j).
  { induction m as [| m IH]; intros i Him Hi Hci; [lia |].
    pose proof (counted_nodes _ _ _ _ Hc i Hi) as Hnode.
    pose proof (counted_surplus _ _ _ _ Hc i) as Hsur.
    pose proof (nonzero_among_nonneg c (children K i)) as Hnn.
    destruct (Z_le_gt_dec 1 (s i)) as [Hs | Hs]; [exists i; lia |].
    destruct (nonzero_among_exists c (children K i) ltac:(lia)) as (j & Hin & Hj).
    apply in_children in Hin.
    assert (Hjl : j < Z.of_nat (length (c_nodes c))).
    { apply count_at_nonzero_lookup in Hj. apply lookup_lt_Some in Hj. lia. }
    assert (Hij : i < j) by nia.
    destruct (IH j ltac:(lia) ltac:(lia)) as (j' & Hj' & Hsj').
    - unfold node_count. destruct (Z.eqb_spec j 0); [lia | exact Hj].
    - exists j'. lia. }
  intros i Hi Hci.
  apply (H (Z.to_nat (Z.of_nat (length (c_nodes c)) - i)) i); [lia | exact Hi | exact Hci].
Qed.

Lemma counted_root_iff (K n : Z) (s : Z -> Z) (c : counters) :
  1 <= K -> 1 <= Z.of_nat (length (c_nodes c)) <= SIZE_MAX -> counted K n s c ->
  c_root c <> 0 <->
  exists i : Z, 0 <= i < Z.of_nat (length (c_nodes c)) /\ 1 <= s i.
Proof.
  intros HK Hlen Hc. split.
  - intros Hr. destruct (counted_downward K n s c HK Hc 0 ltac:(lia) Hr) as (j & Hj & Hs).
    exists j. split; [lia | exact Hs].
  - intros (i & Hi & Hs).
    apply (counted_upward K n s c HK ltac:(lia) Hc i Hi).
    pose proof (counted_nodes _ _ _ _ Hc i Hi).
    pose proof (nonzero_among_nonneg c (children K i)). lia.
Qed.

(** *** The outstanding arrivals *)

Lemma waiting_nonneg (v : variant) (t : snzi) (out : list Z) (i : Z) :
  0 <= waiting v t out i.
Proof.
  induction out as [| tid out IH]; simpl; [lia |]. destruct (entry v t tid =? i); lia.
Qed.

Lemma waiting_cons (v : variant) (t : snzi) (tid : Z) (out : list Z) (i : Z) :
  waiting v t (tid :: out) i = upd (waiting v t out) (entry v t tid) 1 i.
Proof.
  simpl. unfold upd. rewrite (Z.eqb_sym i). destruct (entry v t tid =? i); lia.
Qed.

Lemma waiting_remove_one (v : variant) (t : snzi) (tid : Z) :
  forall out out' : list Z,
    remove_one tid out = Some out' ->
    1 <= waiting v t out (entry v t tid) /\
    forall i : Z, waiting v t out' i = upd (waiting v t out) (entry v t tid) (-1) i.
Proof.
  induction out as [| a out IH]; intros out' H; simpl in H; [discriminate |].
  destruct (Z.eqb_spec a tid) as [-> | Hne].
  - injection H as <-. simpl. rewrite Z.eqb_refl.
    pose proof (waiting_nonneg v t out (entry v t tid)).
    split; [lia |]. intros i. unfold upd. rewrite (Z.eqb_sym i).
    destruct (entry v t tid =? i); lia.
  - destruct (remove_one tid out) as [r |] eqn:E; [| discriminate].
    injection H as <-. destruct (IH r eq_refl) as [H1 H2]. simpl.
    split; [destruct (entry v t a =? entry v t tid); lia |].
    intros i. rewrite H2. unfold upd. destruct (i =? entry v t tid); lia.
Qed.

Lemma remove_one_length (tid : Z) :
  forall out out' : list Z,
    remove_one tid out = Some out' -> length out = S (length out').
Proof.
  induction out as [| a out IH]; intros out' H; simpl in H; [discriminate |].
  destruct (a =? tid).
  - injection H as <-. reflexivity.
  - destruct (remove_one tid out) as [r |] eqn:E; [| discriminate].
    injection H as <-. simpl. rewrite (IH r eq_refl). reflexivity.
Qed.

Lemma outstanding_length (cs : list call) :
  forall out out' : list Z,
    outstanding cs out = Some out' ->
    Z.of_nat (length out') = Z.of_nat (length out) + arrivals cs - departures cs.
Proof.
  induction cs as [| c cs IH]; intros out out' H; simpl in H.
  - injection H as <-. simpl. lia.
  - destruct c as [tid | tid |]; simpl arrivals; simpl departures.
    + rewrite (IH _ _ H). simpl length. lia.
    + destruct (remove_one tid out) as [r |] eqn:E; [| discriminate].
      rewrite (IH _ _ H). rewrite (remove_one_length _ _ _ E). lia.
    + rewrite (IH _ _ H). lia.
Qed.

Lemma waiting_some_iff (v : variant) (t : snzi) (out : list Z) :
  shape t ->
  (exists i : Z, 0 <= i < Z.of_nat (length (others t)) /\ 1 <= waiting v t out i) <->
  out <> [].
Proof.
  intros Hs. split.
  - intros (i & _ & Hi) ->. simpl in Hi. lia.
  - destruct out as [| tid out]; [contradiction |]. intros _.
    exists (entry v t tid). split; [apply entry_range; exact Hs |].
    simpl. rewrite Z.eqb_refl. pose proof (waiting_nonneg v t out (entry v t tid)). lia.
Qed.

(** *** The calls of a client on the counters *)

Lemma Arrive_entry_spec (v : variant) (tid : Z) (cont : contention_status) (w : world) :
  shape (tree w) ->
  (v = full_contention_handling ->
   cont = fresh_status /\ (length (oracle w) < 5)%nat) ->
  wp (Arrive v tid cont) w
     (fun cont' w' =>
        cont' = cont /\ steps w w' /\
        abs (tree w') =
          abs_Arrive (arity (tree w)) (depth_fuel w) (entry v (tree w) tid) (abs (tree w))).
Proof.
  intros Hs Hv. destruct v.
  - apply Arrive_tree_spec; [exact Hs | discriminate].
  - apply Arrive_tree_spec; [exact Hs | discriminate].
  - destruct (Hv eq_refl) as [-> Ho].
    eapply wp_mono; [apply Arrive_direct_spec; [reflexivity |] |].
    + unfold INT_MAX. lia.
    + intros c' w' (-> & H1 & H2). split; [| split; assumption].
      pose proof (failures_le_length (oracle w)) as Hf.
      unfold MaxContentionNumFailures.
      destruct (Z.leb_spec 5 (Z.of_nat (failures (oracle w)))); [lia | reflexivity].
Qed.

Lemma Depart_entry_spec (v : variant) (tid : Z) (cont : contention_status) (w : world) :
  shape (tree w) ->
  (v = full_contention_handling -> cont = fresh_status) ->
  wp (Depart v tid cont) w
     (fun cont' w' =>
        cont' = cont /\ steps w w' /\
        abs (tree w') =
          abs_Depart (arity (tree w)) (depth_fuel w) (entry v (tree w) tid) (abs (tree w))).
Proof.
  intros Hs Hv. destruct v.
  - apply Depart_tree_spec; [exact Hs | discriminate].
  - apply Depart_tree_spec; [exact Hs | discriminate].
  - rewrite (Hv eq_refl).
    eapply wp_mono; [apply Depart_direct_spec; reflexivity |].
    intros c' w' (-> & H1 & H2). split; [reflexivity | split; assumption].
Qed.

Lemma steps_entry (v : variant) (w0 w : world) (tid : Z) :
  steps w0 w -> entry v (tree w) tid = entry v (tree w0) tid.
Proof. intros Hst. destruct v; simpl; try apply steps_leaf_of; auto. Qed.

Lemma abs_length (t : snzi) : length (c_nodes (abs t)) = length (others t).
Proof. unfold abs. simpl. apply length_fmap. Qed.

(** A well-formed history, call by call: the counters record the
    outstanding arrivals. *)
Lemma run_counted (v : variant) (w0 : world) :
  shape (tree w0) ->
  forall (cs : list call) (out out' : list Z) (n : Z) (st : statuses) (w : world),
    steps w0 w ->
    counted (arity (tree w0)) n (waiting v (tree w0) out) (abs (tree w)) ->
    0 <= n -> n + arrivals cs <= SIZE_MAX ->
    (v = full_contention_handling ->
     (forall tid : Z, st tid = fresh_status) /\ (length (oracle w) < 5)%nat) ->
    outstanding cs out = Some out' ->
    wp (run v cs st) w
       (fun _ w' =>
          steps w w' /\
          counted (arity (tree w0)) (n + arrivals cs) (waiting v (tree w0) out')
                  (abs (tree w'))).
Proof.
  intros Hs0. induction cs as [| c cs IH]; intros out out' n st w Hst Hc Hn Hb Hv Hout.
  - simpl in Hout. injection Hout as <-. simpl. apply wp_ret.
    split; [apply steps_refl |]. rewrite Z.add_0_r. exact Hc.
  - pose proof (steps_shape _ _ Hst Hs0) as Hs.
    pose proof (shape_arity _ Hs0) as HK.
    pose proof (shape_length _ Hs) as Hlen. pose proof (shape_nodes _ Hs) as Hmax.
    pose proof (shape_leaves _ Hs) as Hleaves.
    assert (Harr : forall cs', 0 <= arrivals cs').
    { induction cs' as [| [? | ? |] cs' IH']; simpl; lia. }
    simpl run. apply wp_bind.
    destruct c as [tid | tid |]; simpl step; simpl in Hout; simpl arrivals in *.
    + (* Arrive *)
      pose proof (Harr cs).
      apply wp_bind. eapply wp_mono.
      { apply (Arrive_entry_spec v tid (st tid) w Hs).
        intros E. destruct (Hv E) as [Hfresh Ho]. auto. }
      intros c' w1 (-> & H1 & H2). apply wp_ret.
      rewrite (steps_arity _ _ Hst), (steps_entry v _ _ tid Hst) in H2.
      eapply wp_mono.
      { apply (IH (tid :: out) out' (n + 1) (set_status st tid (st tid)) w1).
        - eapply steps_trans; eassumption.
        - rewrite H2.
          apply (counted_ext _ _ (upd (waiting v (tree w0) out) (entry v (tree w0) tid) 1));
            [intros i; apply waiting_cons |].
          apply abs_Arrive_counted; try assumption; try lia.
          + rewrite abs_length. lia.
          + rewrite abs_length, (steps_length _ _ Hst).
            apply entry_range. exact Hs0.
          + unfold depth_fuel. pose proof (entry_range v (tree w0) tid Hs0).
            rewrite (steps_length _ _ Hst). lia.
        - lia.
        - lia.
        - intros E. destruct (Hv E) as [Hfresh Ho]. split.
          + intros tid'. unfold set_status. destruct (tid' =? tid); apply Hfresh.
          + pose proof (steps_oracle _ _ H1). lia.
        - exact Hout. }
      intros st' w' (H3 & H4). split; [eapply steps_trans; eassumption |].
      replace (n + (1 + arrivals cs)) with (n + 1 + arrivals cs) by lia. exact H4.
    + (* Depart *)
      destruct (remove_one tid out) as [r |] eqn:Er; [| discriminate].
      destruct (waiting_remove_one v (tree w0) tid out r Er) as [Hw1 Hw2].
      apply wp_bind. eapply wp_mono.
      { apply (Depart_entry_spec v tid (st tid) w Hs).
        intros E. destruct (Hv E) as [Hfresh Ho]. auto. }
      intros c' w1 (-> & H1 & H2). apply wp_ret.
      rewrite (steps_arity _ _ Hst), (steps_entry v _ _ tid Hst) in H2.
      eapply wp_mono.
      { apply (IH r out' n (set_status st tid (st tid)) w1).
        - eapply steps_trans; eassumption.
        - rewrite H2.
          apply (counted_ext _ _ (upd (waiting v (tree w0) out) (entry v (tree w0) tid) (-1)));
            [exact Hw2 |].
          pose proof (Harr cs).
          apply abs_Depart_counted; try assumption; try lia.
          + rewrite abs_length. lia.
          + rewrite abs_length, (steps_length _ _ Hst).
            apply entry_range. exact Hs0.
          + unfold depth_fuel. pose proof (entry_range v (tree w0) tid Hs0).
            rewrite (steps_length _ _ Hst). lia.
        - lia.
        - lia.
        - intros E. destruct (Hv E) as [Hfresh Ho]. split.
          + intros tid'. unfold set_status. destruct (tid' =? tid); apply Hfresh.
          + pose proof (steps_oracle _ _ H1). lia.
        - exact Hout. }
      intros st' w' (H3 & H4). split; [eapply steps_trans; eassumption | exact H4].
    + (* Query *)
      apply wp_bind. exists (negb (root (tree w) =? 0)), w.
      split; [reflexivity |]. apply wp_ret.
      apply (IH out out' n st w); assumption.
Qed.

Lemma nonzero_among_zero (c : counters) (l : list Z) :
  (forall j : Z, In j l -> count_at c j = 0) -> nonzero_among c l = 0.
Proof.
  induction l as [| j l IH]; intros H; simpl; [reflexivity |].
  rewrite (H j) by (left; reflexivity). simpl. apply IH.
  intros j' Hj'. apply H. right. exact Hj'.
Qed.

Lemma count_at_replicate (r : Z) (m : nat) (j : Z) :
  count_at {| c_root := r; c_nodes := replicate m 0 |} j = 0.
Proof.
  unfold count_at. simpl.
  destruct (replicate m 0 !! Z.to_nat j) as [x |] eqn:E; [| reflexivity].
  apply lookup_replicate in E. destruct E as [-> _]. reflexivity.
Qed.

Lemma counted_zero (K : Z) (m : nat) :
  counted K 0 (fun _ => 0) {| c_root := 0; c_nodes := replicate m 0 |}.
Proof.
  split.
  - intros i. lia.
  - intros i _. rewrite nonzero_among_zero by (intros; apply count_at_replicate).
    unfold node_count. rewrite count_at_replicate. simpl. destruct (i =? 0); reflexivity.
  - intros i _. unfold node_count. rewrite count_at_replicate. simpl.
    destruct (i =? 0); lia.
Qed.

Lemma arrivals_nonneg (cs : list call) : 0 <= arrivals cs.
Proof. induction cs as [| [? | ? |] cs IH]; simpl; lia. Qed.

(** A well-formed history on a freshly constructed tree. *)
Lemma history_counted (alloc : Z -> bool) (v : variant) (K H T : Z)
    (cs : list call) (o : list bool) (out : list Z) :
  2 <= K -> 0 <= H -> K ^ (H + 1) <= 2 ^ 64 -> 1 <= T < 2 ^ 53 ->
  alloc ((K ^ (H + 1) - 1) / (K - 1)) = true ->
  (v = full_contention_handling -> (length o < 5)%nat) ->
  arrivals cs <= SIZE_MAX ->
  outstanding cs [] = Some out ->
  exists (t : snzi) (st : statuses) (w : world),
    construct alloc K H T = Ok t /\
    run v cs fresh_statuses (start t o) = Ok (st, w) /\
    shape t /\ arity t = K /\
    total_nodes t = level_start K (S (Z.to_nat H)) /\
    total_leaf_nodes t = K ^ H /\
    steps (start t o) w /\
    counted K (arrivals cs) (waiting v t out) (abs (tree w)).
Proof.
  intros HK HH Hpow HT Halloc Ho Harr Hout.
  rewrite (construct_spec alloc K H T HK HH Hpow HT Halloc).
  pose proof (construct_shape K H T HK HH Hpow ltac:(lia)) as Hs.
  pose proof (construct_counters K H T) as Habs.
  destruct (nodes_count_value K H HK HH) as (HN & _).
  set (t := {| arity := K; total_nodes := (K ^ (H + 1) - 1) / (K - 1) |}) in *.
  destruct (run_counted v (start t o) Hs cs [] out 0 fresh_statuses (start t o))
    as (st & w & Hrun & Hst & Hc).
  - apply steps_refl.
  - simpl tree. rewrite Habs. apply counted_zero.
  - lia.
  - lia.
  - intros E. split; [reflexivity | exact (Ho E)].
  - exact Hout.
  - exists t, st, w. split; [reflexivity |]. split; [exact Hrun |].
    split; [exact Hs |]. split; [reflexivity |]. split; [exact HN |].
    split; [reflexivity |]. split; [exact Hst |]. exact Hc.
Qed.

(** X6. One thread at a time, on a freshly constructed tree of any of the
    three classes: after a history in which every departure matches an
    outstanding arrival of the same thread, [Query()] returns true exactly
    when the arrivals outnumber the departures. *)
Theorem query_tells_surplus_of_arrivals (alloc : Z -> bool) (v : variant) (K H T : Z)
    (cs : list call) (o : list bool) (out : list Z) :
  2 <= K -> 0 <= H -> K ^ (H + 1) <= 2 ^ 64 -> 1 <= T < 2 ^ 53 ->
  alloc ((K ^ (H + 1) - 1) / (K - 1)) = true ->
  (v = full_contention_handling -> (length o < 5)%nat) ->
  arrivals cs <= SIZE_MAX ->
  outstanding cs [] = Some out ->
  exists (t : snzi) (st : statuses) (w : world),
    construct alloc K H T = Ok t /\
    run v cs fresh_statuses (start t o) = Ok (st, w) /\
    Z.of_nat (length out) = arrivals cs - departures cs /\
    Query w = Ok (departures cs <? arrivals cs, w).
Proof.
  intros HK HH Hpow HT Halloc Ho Harr Hout.
  destruct (history_counted alloc v K H T cs o out HK HH Hpow HT Halloc Ho Harr Hout)
    as (t & st & w & Hcon & Hrun & Hs & HKt & _ & _ & Hst & Hc).
  exists t, st, w. split; [exact Hcon |]. split; [exact Hrun |].
  pose proof (outstanding_length cs [] out Hout) as Hlen. simpl length in Hlen.
  split; [lia |].
  rewrite Query_eq. do 2 f_equal.
  pose proof (steps_length _ _ Hst) as Hl. simpl tree in Hl.
  pose proof (shape_length _ Hs) as HN. pose proof (shape_nodes _ Hs) as Hmax.
  pose proof (shape_leaves _ Hs) as Hleaves.
  assert (Hroot : c_root (abs (tree w)) <> 0 <-> out <> []).
  { rewrite (counted_root_iff K (arrivals cs) (waiting v t out) (abs (tree w)));
      [| lia | rewrite abs_length; lia | exact Hc].
    rewrite abs_length, Hl. apply waiting_some_iff. exact Hs. }
  change (c_root (abs (tree w))) with (root (tree w)) in Hroot.
  destruct (Z.eqb_spec (root (tree w)) 0) as [E | E]; simpl.
  - symmetry. apply Z.ltb_ge.
    destruct out as [| a out]; [simpl in Hlen; lia |].
    exfalso. apply (proj2 Hroot); [discriminate | exact E].
  - symmetry. apply Z.ltb_lt.
    destruct out as [| a out]; [exfalso; apply (proj1 Hroot E); reflexivity |].
    simpl length in Hlen. lia.
Qed.

Lemma query_tells_surplus_of_arrivals_witness :
  exists (t : snzi) (st : statuses) (w : world),
    construct (fun _ => true) 2 2 8 = Ok t /\
    run semi_contention_handling
        [CallArrive 0; CallArrive 7; CallQuery; CallDepart 0; CallArrive 3; CallDepart 7]
        fresh_statuses (start t [true; false; true]) = Ok (st, w) /\
    Z.of_nat (length [3]) = 3 - 2 /\
    Query w = Ok (true, w).
Proof.
  apply (query_tells_surplus_of_arrivals (fun _ => true) semi_contention_handling 2 2 8
           [CallArrive 0; CallArrive 7; CallQuery; CallDepart 0; CallArrive 3; CallDepart 7]
           [true; false; true] [3]);
    try lia; try reflexivity; try discriminate.
Defined.



End HistoryFacts.

Section StatusFacts.
Import Word Snzi SnziSpec SnziStatus.






End StatusFacts.

Section LeafFacts.
Import Word Snzi SnziSpec.

Lemma ceil_div_covers (T L : Z) : 1 <= L -> T <= ceil_div T L * L.
Proof.
  intros HL. unfold ceil_div.
  pose proof (Z.mul_succ_div_gt (T + L - 1) L ltac:(lia)). lia.
Qed.

(** X9. The threads [0, ..., T-1] are dealt to the leaves in order, in
    blocks of [threads_per_leaf]: for them the modulo of
    [get_leaf_for_thread] never wraps the quotient, two threads that share a
    leaf are less than [threads_per_leaf] apart, and with no more threads
    than leaves every thread has a leaf of its own. *)
Theorem threads_spread_over_leaves (alloc : Z -> bool) (K H T : Z) (o : list bool) :
  2 <= K -> 0 <= H -> K ^ (H + 1) <= 2 ^ 64 -> 1 <= T < 2 ^ 53 ->
  alloc ((K ^ (H + 1) - 1) / (K - 1)) = true ->
  exists t : snzi,
    construct alloc K H T = Ok t /\
    (T <= K ^ H -> threads_per_leaf t = 1) /\
    (forall tid : Z,
       0 <= tid < T ->
       get_leaf_for_thread tid (start t o) =
         Ok (total_nodes t - total_leaf_nodes t + tid / threads_per_leaf t, start t o)) /\
    (forall tid1 tid2 leaf : Z,
       0 <= tid1 < T -> 0 <= tid2 < T ->
       get_leaf_for_thread tid1 (start t o) = Ok (leaf, start t o) ->
       get_leaf_for_thread tid2 (start t o) = Ok (leaf, start t o) ->
       Z.abs (tid1 - tid2) < threads_per_leaf t).
Proof.
  intros HK HH Hpow HT Halloc.
  rewrite (construct_spec alloc K H T HK HH Hpow HT Halloc).
  pose proof (construct_shape K H T HK HH Hpow ltac:(lia)) as Hs.
  destruct (nodes_count_value K H HK HH) as (_ & _ & _ & HL).
  set (t := {| arity := K; total_nodes := (K ^ (H + 1) - 1) / (K - 1) |}) in *.
  set (r := Z.max 1 (ceil_div T (K ^ H))).
  assert (Hr : 1 <= r) by (subst r; lia).
  assert (Hcov : T <= r * K ^ H).
  { pose proof (ceil_div_covers T (K ^ H) HL). subst r.
    assert (ceil_div T (K ^ H) * K ^ H <= Z.max 1 (ceil_div T (K ^ H)) * K ^ H)
      by (apply Z.mul_le_mono_nonneg_r; lia).
    lia. }
  assert (Hleaf : forall tid : Z,
             0 <= tid < T ->
             get_leaf_for_thread tid (start t o) =
               Ok (total_nodes t - total_leaf_nodes t + tid / r, start t o)).
  { intros tid Htid.
    destruct (wp_get_leaf_for_thread tid (start t o)
                (fun x w' => x = leaf_of t tid /\ w' = start t o) Hs (conj eq_refl eq_refl))
      as (x & w' & E & -> & ->).
    rewrite E. unfold leaf_of. simpl threads_per_leaf. simpl total_leaf_nodes. fold r.
    rewrite (Z.mod_small (tid / r)); [reflexivity |].
    split; [apply Z.div_pos; lia |].
    apply Z.div_lt_upper_bound; lia. }
  exists t. split; [reflexivity |]. split; [| split].
  - intros HTL. simpl. unfold ceil_div.
    assert ((T + K ^ H - 1) / K ^ H = 1).
    { symmetry. apply (Z.div_unique _ _ 1 (T - 1)); lia. }
    lia.
  - exact Hleaf.
  - intros tid1 tid2 leaf H1 H2 E1 E2. simpl threads_per_leaf. fold r.
    rewrite (Hleaf tid1 H1) in E1. rewrite (Hleaf tid2 H2) in E2.
    injection E1 as E1. injection E2 as E2.
    assert (Hq : tid1 / r = tid2 / r) by lia.
    pose proof (Z.div_mod tid1 r ltac:(lia)). pose proof (Z.div_mod tid2 r ltac:(lia)).
    pose proof (Z.mod_pos_bound tid1 r ltac:(lia)).
    pose proof (Z.mod_pos_bound tid2 r ltac:(lia)).
    rewrite Hq in *. lia.
Qed.

Lemma threads_spread_over_leaves_witness :
  exists t : snzi,
    construct (fun _ => true) 2 2 8 = Ok t /\
    (8 <= 2 ^ 2 -> threads_per_leaf t = 1) /\
    (forall tid : Z,
       0 <= tid < 8 ->
       get_leaf_for_thread tid (start t []) =
         Ok (total_nodes t - total_leaf_nodes t + tid / threads_per_leaf t, start t [])) /\
    (forall tid1 tid2 leaf : Z,
       0 <= tid1 < 8 -> 0 <= tid2 < 8 ->
       get_leaf_for_thread tid1 (start t []) = Ok (leaf, start t []) ->
       get_leaf_for_thread tid2 (start t []) = Ok (leaf, start t []) ->
       Z.abs (tid1 - tid2) < threads_per_leaf t).
Proof.
  apply (threads_spread_over_leaves (fun _ => true) 2 2 8 []); try lia; reflexivity.
Defined.

End LeafFacts.

Section LocalOperations.
Import Word Snzi SnziSpec.

Lemma settle_hd_true (o : list bool) : hd false o = true -> settle (tl o) = settle o.
Proof. destruct o as [| [] o]; simpl; [discriminate | reflexivity | discriminate]. Qed.

Lemma settle_hd_false (o : list bool) : hd false o = false -> tl o = settle o.
Proof. destruct o as [| [] o]; simpl; [reflexivity | discriminate | reflexivity]. Qed.

(** The loop of [Arrive] on a counter that is not zero: as many rounds as
    the exchange fails, and the counter incremented. *)
Lemma Arrive_loop_exact (ann : bool) (pa : M unit) (i : Z) (spin : nat) :
  forall (w : world) (nd : node) (pArrInv : bool),
    others (tree w) !! Z.to_nat i = Some nd ->
    (X nd =? 0) && negb pArrInv = false ->
    (length (oracle w) < spin)%nat ->
    wp (Arrive_loop ann pa spin i pArrInv (X nd)) w
       (fun r w' =>
          r = (pArrInv, X nd) /\
          w' = with_node (with_oracle w (settle (oracle w))) i
                 {| X := wrap (X nd + 1); announce := announce nd; parent := parent nd |}).
Proof.
  induction spin as [| spin IH]; intros w nd pArrInv Hnd Hcond Hspin; [lia |].
  simpl Arrive_loop. unfold Arrive_body. rewrite Hcond.
  apply wp_bind, wp_ret.
  apply wp_bind, (wp_node_cas_weak i (X nd) _ nd); [assumption | reflexivity | |].
  - intros Hfail.
    assert (Hlen : (length (oracle (with_oracle w (tl (oracle w)))) < spin)%nat).
    { simpl. destruct (oracle w); simpl in *; [discriminate | lia]. }
    eapply wp_mono; [apply (IH _ nd pArrInv); [exact Hnd | exact Hcond | exact Hlen] |].
    intros r w' (Hr & ->). split; [exact Hr |].
    simpl oracle. rewrite (settle_hd_true _ Hfail). reflexivity.
  - intros Hok. apply wp_ret. split; [reflexivity |].
    rewrite (settle_hd_false _ Hok). reflexivity.
Qed.

(** The loop of [Depart] on a counter that is not one. *)
Lemma Depart_loop_exact (ann : bool) (i : Z) (spin : nat) :
  forall (w : world) (nd : node),
    others (tree w) !! Z.to_nat i = Some nd ->
    X nd <> 1 ->
    (length (oracle w) < spin)%nat ->
    wp (Depart_loop ann spin i (X nd)) w
       (fun r w' =>
          r = X nd /\
          w' = with_node (with_oracle w (if ann then oracle w else settle (oracle w))) i
                 {| X := wrap (X nd - 1); announce := announce nd; parent := parent nd |}).
Proof.
  induction spin as [| spin IH]; intros w nd Hnd Hne Hspin; [lia |].
  simpl Depart_loop.
  destruct (Z.eqb_spec (X nd) 1) as [| _]; [contradiction |].
  rewrite andb_false_r. apply wp_bind, wp_ret.
  destruct ann.
  - apply wp_bind, (wp_node_cas_strong i (X nd) _ nd); [assumption | reflexivity |].
    apply wp_ret. split; [reflexivity |]. destruct w; reflexivity.
  - apply wp_bind, (wp_node_cas_weak i (X nd) _ nd); [assumption | reflexivity | |].
    + intros Hfail.
      assert (Hlen : (length (oracle (with_oracle w (tl (oracle w)))) < spin)%nat).
      { simpl. destruct (oracle w); simpl in *; [discriminate | lia]. }
      eapply wp_mono; [apply (IH _ nd); [exact Hnd | exact Hne | exact Hlen] |].
      intros r w' (Hr & ->). split; [exact Hr |].
      simpl oracle. rewrite (settle_hd_true _ Hfail). reflexivity.
    + intros Hok. apply wp_ret. split; [reflexivity |].
      rewrite (settle_hd_false _ Hok). reflexivity.
Qed.

(** X10. The operations on a busy leaf are local. An arrival of a thread
    whose leaf has a non-zero counter, and a departure of a thread whose
    leaf has a counter other than one, subscript the node array once, at
    the leaf; they change the counter of the leaf and nothing else in the
    tree: the parent and the root are not visited, no flag is written, and
    the thread neither pauses nor yields. *)
Theorem busy_leaf_operations_are_local (ann : bool) (tid : Z) (w : world) (nd : node) :
  shape (tree w) ->
  leaf_of (tree w) tid <> 0 ->
  others (tree w) !! Z.to_nat (leaf_of (tree w) tid) = Some nd ->
  (X nd <> 0 ->
   tree_Arrive ann tid w =
     Ok (tt, {| tree := set_others (tree w)
                          (<[Z.to_nat (leaf_of (tree w) tid) :=
                               {| X := wrap (X nd + 1); announce := announce nd;
                                  parent := parent nd |}]> (others (tree w)));
                trace := Touch (leaf_of (tree w) tid) :: trace w;
                oracle := settle (oracle w) |})) /\
  (X nd <> 1 ->
   tree_Depart ann tid w =
     Ok (tt, {| tree := set_others (tree w)
                          (<[Z.to_nat (leaf_of (tree w) tid) :=
                               {| X := wrap (X nd - 1); announce := announce nd;
                                  parent := parent nd |}]> (others (tree w)));
                trace := Touch (leaf_of (tree w) tid) :: trace w;
                oracle := if ann then oracle w else settle (oracle w) |})).
Proof.
  intros Hs Hleaf Hnd.
  pose proof (leaf_of_range (tree w) tid Hs) as Hr.
  pose proof (shape_length _ Hs) as Hlen.
  pose proof (shape_leaves _ Hs) as Hleaves.
  set (i := leaf_of (tree w) tid) in *.
  assert (Hfuel : exists fuel : nat, depth_fuel w = S fuel).
  { unfold depth_fuel. destruct (others (tree w)); simpl in *; [lia | eauto]. }
  destruct Hfuel as [fuel Hfuel].
  split.
  - intros Hx.
    assert (Hwp : wp (tree_Arrive ann tid) w
              (fun _ w' =>
                 w' = {| tree := set_others (tree w)
                                   (<[Z.to_nat i :=
                                        {| X := wrap (X nd + 1); announce := announce nd;
                                           parent := parent nd |}]> (others (tree w)));
                         trace := Touch i :: trace w;
                         oracle := settle (oracle w) |})).
    { unfold tree_Arrive.
      apply wp_bind, wp_get_leaf_for_thread; [exact Hs |]. fold i.
      destruct (Z.eqb_spec i 0) as [| _]; [contradiction |].
      apply wp_bind, wp_subscript; [lia |].
      rewrite Hfuel. simpl node_Arrive.
      apply wp_bind, (wp_load_X i nd); [exact Hnd |].
      apply wp_bind. eapply wp_mono.
      { apply (Arrive_loop_exact ann _ i (spin_fuel w) _ nd false).
        - exact Hnd.
        - destruct (Z.eqb_spec (X nd) 0); [contradiction | reflexivity].
        - unfold spin_fuel. simpl. lia. }
      intros r w' (-> & ->). simpl andb. apply wp_ret. reflexivity. }
    destruct Hwp as ([] & w' & E & ->). exact E.
  - intros Hx.
    assert (Hwp : wp (tree_Depart ann tid) w
              (fun _ w' =>
                 w' = {| tree := set_others (tree w)
                                   (<[Z.to_nat i :=
                                        {| X := wrap (X nd - 1); announce := announce nd;
                                           parent := parent nd |}]> (others (tree w)));
                         trace := Touch i :: trace w;
                         oracle := if ann then oracle w else settle (oracle w) |})).
    { unfold tree_Depart.
      apply wp_bind, wp_get_leaf_for_thread; [exact Hs |]. fold i.
      destruct (Z.eqb_spec i 0) as [| _]; [contradiction |].
      apply wp_bind, wp_subscript; [lia |].
      rewrite Hfuel. simpl node_Depart.
      apply wp_bind, (wp_load_X i nd); [exact Hnd |].
      apply wp_bind. eapply wp_mono.
      { apply (Depart_loop_exact ann i (spin_fuel w) _ nd).
        - exact Hnd.
        - exact Hx.
        - unfold spin_fuel. simpl. lia. }
      intros r w' (-> & ->).
      destruct (Z.eqb_spec (X nd) 1) as [| _]; [contradiction |].
      apply wp_ret. reflexivity. }
    destruct Hwp as ([] & w' & E & ->). exact E.
Qed.

End LocalOperations.

Section VisitFacts.
Import Word Snzi SnziSpec SnziStatus SnziExamples.

Lemma shape_busy_tree : shape busy_tree.
Proof.
  split; simpl; try lia; try (unfold SIZE_MAX; lia).
  intros i nd Hi Hnd.
  destruct i as [| [| [| i]]]; simpl in Hnd; try lia; try discriminate;
    injection Hnd as <-; reflexivity.
Qed.

Lemma busy_leaf_operations_are_local_witness :
  tree_Arrive true 2 (start busy_tree [true; false]) =
    Ok (tt, {| tree := set_others busy_tree
                         (<[2%nat := {| X := 3; announce := true; parent := Some 0 |}]>
                            (others busy_tree));
               trace := [Touch 2]; oracle := [] |}) /\
  tree_Depart true 2 (start busy_tree [true; false]) =
    Ok (tt, {| tree := set_others busy_tree
                         (<[2%nat := {| X := 1; announce := true; parent := Some 0 |}]>
                            (others busy_tree));
               trace := [Touch 2]; oracle := [true; false] |}).
Proof.
  destruct (busy_leaf_operations_are_local true 2 (start busy_tree [true; false])
              {| X := 2; announce := true; parent := Some 0 |} shape_busy_tree)
    as [HA HD]; [vm_compute; discriminate | reflexivity |].
  split; [apply HA | apply HD]; simpl; lia.
Defined.

Lemma abs_ranged_length (t : snzi) :
  shape t -> Z.of_nat (length (c_nodes (abs t))) <= SIZE_MAX.
Proof.
  intros Hs. unfold abs. simpl. rewrite length_fmap.
  rewrite (shape_length _ Hs). apply (shape_nodes _ Hs).
Qed.

(** An arrival and the departure that matches it, one after the other. *)
Lemma visit_spec (v : variant) (tid : Z) (st : statuses) (w : world) :
  shape (tree w) -> ranged (abs (tree w)) ->
  (v = full_contention_handling ->
   paired (st tid) /\ Z.of_nat (length (oracle w)) <= INT_MAX) ->
  wp (run v [CallArrive tid; CallDepart tid] st) w
     (fun st' w' => steps w w' /\ abs (tree w') = abs (tree w) /\
                    (forall tid' : Z, paired (st tid') -> paired (st' tid'))).
Proof.
  intros Hs Hr Hv.
  pose proof (entry_range v (tree w) tid Hs) as He.
  pose proof (leaf_of_range (tree w) tid Hs) as Hl.
  pose proof (shape_length _ Hs) as Hlen.
  pose proof (shape_leaves _ Hs) as Hleaves.
  pose proof (shape_arity _ Hs) as HK.
  pose proof (abs_ranged_length _ Hs) as Hmax.
  assert (Hcancel : forall i : Z,
             0 <= i < Z.of_nat (length (others (tree w))) ->
             abs_Depart (arity (tree w)) (depth_fuel w) i
               (abs_Arrive (arity (tree w)) (depth_fuel w) i (abs (tree w))) =
             abs (tree w)).
  { intros i Hi. apply abs_Depart_Arrive; try assumption.
    - unfold abs. simpl. rewrite length_fmap. exact Hi.
    - unfold depth_fuel. lia. }
  assert (Hcases :
    (v = full_contention_handling /\ use_snzi_in_arrive (st tid) = false) \/
    (v = full_contention_handling -> use_snzi_in_arrive (st tid) = true)).
  { destruct v; [right; discriminate | right; discriminate |].
    destruct (use_snzi_in_arrive (st tid)); [right | left]; auto. }
  simpl run. apply wp_bind. simpl step. apply wp_bind.
  destruct Hcases as [[-> Ha] | Ha].
  - (* both calls go to the root *)
    destruct (Hv eq_refl) as [[Hp1 Hp2] Ho].
    eapply wp_mono; [apply Arrive_direct_spec; [exact Ha | exact Ho] |].
    intros c' w1 (Hc' & H1 & H2). apply wp_ret.
    apply wp_bind. simpl step. apply wp_bind. rewrite set_status_same.
    assert (Hd : use_snzi_in_depart c' = false) by (rewrite Hc'; simpl; congruence).
    eapply wp_mono; [apply Depart_direct_spec; exact Hd |].
    intros c'' w2 (Hc'' & H3 & H4). apply wp_ret. apply wp_ret.
    split; [eapply steps_trans; eassumption |]. split.
    + rewrite H4, H2, (steps_arity _ _ H1), (steps_depth_fuel _ _ H1).
      apply Hcancel. lia.
    + intros tid' Hp'. unfold set_status.
      destruct (tid' =? tid); [| exact Hp'].
      rewrite Hc'', Hc'. unfold paired. simpl.
      rewrite Ha, <- Hp1, Ha. simpl.
      destruct (use_snzi_tree_flag (st tid)
                || (MaxContentionNumFailures <=? Z.of_nat (failures (oracle w))));
        auto.
  - (* both calls go to the leaf of the thread *)
    eapply wp_mono; [apply Arrive_tree_spec; [exact Hs | exact Ha] |].
    intros c' w1 (-> & H1 & H2). apply wp_ret.
    apply wp_bind. simpl step. apply wp_bind. rewrite set_status_same.
    assert (Hd : v = full_contention_handling -> use_snzi_in_depart (st tid) = true).
    { intros E. destruct (Hv E) as [[Hp1 _] _]. rewrite <- Hp1. exact (Ha E). }
    eapply wp_mono;
      [apply Depart_tree_spec; [exact (steps_shape _ _ H1 Hs) | exact Hd] |].
    intros c'' w2 (-> & H3 & H4). apply wp_ret. apply wp_ret.
    split; [eapply steps_trans; eassumption |]. split.
    + rewrite H4, H2, (steps_arity _ _ H1), (steps_depth_fuel _ _ H1),
        (steps_leaf_of _ _ tid H1).
      apply Hcancel. lia.
    + intros tid' Hp'. unfold set_status.
      destruct (tid' =? tid) eqn:E; [| exact Hp'].
      apply Z.eqb_eq in E. subst tid'. exact Hp'.
Qed.

(** X11. A visit leaves the tree as it found it: in whatever state of the
    counters, for the three classes, [Arrive(tid)] followed by [Depart(tid)]
    restores the counter of the root and of every node, so that [Query()]
    answers after the visit what it answered before. *)
Theorem arrive_then_depart_restores_counters (v : variant) (tid : Z) (st : statuses)
    (w : world) :
  shape (tree w) -> ranged (abs (tree w)) ->
  (v = full_contention_handling ->
   paired (st tid) /\ Z.of_nat (length (oracle w)) <= INT_MAX) ->
  exists (st' : statuses) (w' : world) (b : bool),
    run v [CallArrive tid; CallDepart tid] st w = Ok (st', w') /\
    root (tree w') = root (tree w) /\
    X <$> others (tree w') = X <$> others (tree w) /\
    Query w = Ok (b, w) /\ Query w' = Ok (b, w').
Proof.
  intros Hs Hr Hv.
  destruct (visit_spec v tid st w Hs Hr Hv) as (st' & w' & E & _ & Habs & _).
  exists st', w', (negb (root (tree w) =? 0)). split; [exact E |].
  unfold abs in Habs. injection Habs as Hroot Hnodes.
  split; [exact Hroot |]. split; [exact Hnodes |].
  rewrite !Query_eq, Hroot. split; reflexivity.
Qed.

Lemma ranged_busy_tree : ranged (abs busy_tree).
Proof.
  split; [simpl; unfold SIZE_MAX; lia |].
  simpl. repeat constructor; unfold SIZE_MAX; lia.
Qed.

Lemma arrive_then_depart_restores_counters_witness :
  exists (st' : statuses) (w' : world) (b : bool),
    run semi_contention_handling [CallArrive 1; CallDepart 1] fresh_statuses
        (start busy_tree [true]) = Ok (st', w') /\
    root (tree w') = 2 /\
    X <$> others (tree w') = [0; 1; 2] /\
    Query (start busy_tree [true]) = Ok (b, start busy_tree [true]) /\
    Query w' = Ok (b, w').
Proof.
  apply (arrive_then_depart_restores_counters semi_contention_handling 1 fresh_statuses
           (start busy_tree [true]) shape_busy_tree ranged_busy_tree).
  discriminate.
Defined.

End VisitFacts.

Section FlagFacts.
Import Word Snzi SnziSpec SnziHistory SnziFlags.

Lemma quiet_refl (w : world) : quiet w w.
Proof. exists []. split; [reflexivity | constructor]. Qed.

Lemma quiet_trans (w1 w2 w3 : world) : quiet w1 w2 -> quiet w2 w3 -> quiet w1 w3.
Proof.
  intros (es1 & E1 & H1) (es2 & E2 & H2). exists (es2 ++ es1). split.
  - rewrite E2, E1. apply app_assoc.
  - apply Forall_app. split; assumption.
Qed.

Lemma quiet_same_trace (w w' : world) : trace w' = trace w -> quiet w w'.
Proof. intros E. exists []. split; [exact E | constructor]. Qed.

Lemma quiet_touch (w : world) (p : Z) : quiet w (with_events w [Touch p]).
Proof. exists [Touch p]. split; [reflexivity |]. repeat constructor. Qed.

Lemma climb_zero (K : Z) (fuel : nat) (i : Z) (w w' : world) :
  trace w' = trace w -> climb K fuel i w w'.
Proof. intros E. exists 0%nat. rewrite take_0. exact E. Qed.

Lemma climb_parent (K : Z) (fuel : nat) (i : Z) (w w' : world) :
  parent_index K i <> 0 ->
  climb K fuel (parent_index K i) (with_events w [Touch (parent_index K i)]) w' ->
  climb K (S fuel) i w w'.
Proof.
  intros Hp [k E]. exists (S k). simpl ancestors.
  destruct (Z.eqb_spec (parent_index K i) 0) as [| _]; [contradiction |].
  rewrite E. simpl. rewrite <- app_assoc. reflexivity.
Qed.

Lemma climb_ends (K : Z) (fuel : nat) (i : Z) (w w1 w2 w3 : world) :
  trace w1 = trace w -> climb K fuel i w1 w2 -> trace w3 = trace w2 ->
  climb K fuel i w w3.
Proof. intros E1 [k E] E3. exists k. rewrite E3, E, E1. reflexivity. Qed.

Lemma climb_quiet (K : Z) (fuel : nat) (i : Z) (w w' : world) :
  climb K fuel i w w' -> quiet w w'.
Proof.
  intros [k E]. eexists. split; [exact E |].
  apply Forall_forall. intros e He. apply list_elem_of_In, in_rev, in_map_iff in He.
  destruct He as (j & <- & _). exact I.
Qed.

Lemma visited_quiet (tid : Z) (w w' : world) : visited tid w w' -> quiet w w'.
Proof.
  intros [k E]. eexists. split; [exact E |].
  apply Forall_forall. intros e He. apply list_elem_of_In, in_rev, in_map_iff in He.
  destruct He as (j & <- & _). exact I.
Qed.

Lemma visited_root (tid : Z) (w w' : world) :
  trace w' = trace w -> visited tid w w'.
Proof. intros E. exists 0%nat. rewrite take_0. exact E. Qed.

Lemma visited_leaf (tid : Z) (w w' : world) :
  leaf_of (tree w) tid <> 0 ->
  climb (arity (tree w)) (depth_fuel w) (leaf_of (tree w) tid)
        (with_events w [Touch (leaf_of (tree w) tid)]) w' ->
  visited tid w w'.
Proof.
  intros Hl [k E]. exists (S k). unfold path.
  destruct (Z.eqb_spec (leaf_of (tree w) tid) 0) as [| _]; [contradiction |].
  rewrite E. simpl. rewrite <- app_assoc. reflexivity.
Qed.

Lemma ancestors_length (K : Z) (h : nat) :
  2 <= K ->
  forall (fuel : nat) (i : Z),
    i <= SIZE_MAX -> level_start K (S h) <= i < level_start K (S (S h)) ->
    (length (ancestors K fuel i) <= h)%nat.
Proof.
  intros HK. induction h as [| h IH]; intros fuel i Hmax Hi.
  - destruct fuel as [| fuel]; [simpl; lia |].
    pose proof (parent_index_level K 0 i HK Hmax Hi) as Hp. simpl in Hp.
    simpl ancestors.
    destruct (Z.eqb_spec (parent_index K i) 0) as [_ | NE]; [simpl; lia | lia].
  - destruct fuel as [| fuel]; [simpl; lia |].
    pose proof (parent_index_level K (S h) i HK Hmax Hi) as Hp.
    simpl ancestors.
    destruct (Z.eqb_spec (parent_index K i) 0) as [_ | NE]; [simpl; lia |].
    simpl length. apply le_n_S. apply IH; [| exact Hp].
    pose proof (level_start_nonneg K (S h) ltac:(lia)).
    assert (1 <= i) by lia.
    pose proof (parent_index_bounds K i ltac:(lia) ltac:(lia)). lia.
Qed.

Lemma framed_refl (m : Z) (w : world) : framed m w w.
Proof. intros j Hj. reflexivity. Qed.

Lemma framed_trans (m m1 m2 : Z) (w1 w2 w3 : world) :
  m1 <= m -> m2 <= m -> framed m1 w1 w2 -> framed m2 w2 w3 -> framed m w1 w3.
Proof.
  intros Hm1 Hm2 H1 H2 j Hj. rewrite H2 by lia. apply H1. lia.
Qed.

Lemma framed_with_node (w : world) (i : Z) (nd : node) :
  0 <= i -> framed i w (with_node w i nd).
Proof.
  intros Hi j Hj. simpl. apply list_lookup_insert_ne. lia.
Qed.

Lemma steps_settle (w : world) : steps w (with_oracle w (settle (oracle w))).
Proof.
  split; try reflexivity.
  - simpl. apply settle_length.
  - exists []. split; [reflexivity | constructor].
Qed.

Lemma with_node_twice (w : world) (i : Z) (nd nd' : node) :
  with_node (with_node w i nd) i nd' = with_node w i nd'.
Proof.
  unfold with_node, with_tree, set_others. simpl.
  rewrite list_insert_insert_eq. reflexivity.
Qed.

(** The loop of [Depart], whatever the counter: the flag is cleared when
    the counter is one and the class has the flag. *)
Lemma Depart_loop_world (ann : bool) (i : Z) (spin : nat) :
  forall (w : world) (nd : node),
    others (tree w) !! Z.to_nat i = Some nd ->
    (length (oracle w) < spin)%nat ->
    wp (Depart_loop ann spin i (X nd)) w
       (fun r w' =>
          r = X nd /\
          w' = with_node (with_oracle w (if ann then oracle w else settle (oracle w))) i
                 {| X := wrap (X nd - 1);
                    announce := if ann && (X nd =? 1) then false else announce nd;
                    parent := parent nd |}).
Proof.
  induction spin as [| spin IH]; intros w nd Hnd Hspin; [lia |].
  simpl Depart_loop. destruct ann; simpl andb.
  - destruct (Z.eqb_spec (X nd) 1) as [E1 | NE1].
    + apply wp_bind, (wp_store_announce i false nd); [exact Hnd |].
      apply wp_bind.
      apply (wp_node_cas_strong i (X nd) _
               {| X := X nd; announce := false; parent := parent nd |}).
      * simpl. apply list_lookup_insert_eq. eapply lookup_lt_Some; eassumption.
      * reflexivity.
      * apply wp_ret. split; [reflexivity |]. rewrite with_node_twice.
        destruct w; reflexivity.
    + apply wp_bind, wp_ret.
      apply wp_bind, (wp_node_cas_strong i (X nd) _ nd); [assumption | reflexivity |].
      apply wp_ret. split; [reflexivity |]. destruct w; reflexivity.
  - apply wp_bind, wp_ret.
    apply wp_bind, (wp_node_cas_weak i (X nd) _ nd); [assumption | reflexivity | |].
    + intros Hfail.
      assert (Hlen : (length (oracle (with_oracle w (tl (oracle w)))) < spin)%nat).
      { simpl. destruct (oracle w); simpl in *; [discriminate | lia]. }
      eapply wp_mono; [apply (IH _ nd); [exact Hnd | exact Hlen] |].
      intros r w' (Hr & ->). split; [exact Hr |].
      simpl oracle. rewrite (settle_hd_true _ Hfail). reflexivity.
    + intros Hok. apply wp_ret. split; [reflexivity |].
      rewrite (settle_hd_false _ Hok). reflexivity.
Qed.

(** The first round of the loop of [Arrive] on a counter that is zero and
    whose flag is not set: the flag is set, the parent is visited, and the
    counter becomes one after as many rounds as the exchange fails. *)
Lemma Arrive_loop_first (ann : bool) (pa : M unit) (i : Z) (spin : nat)
    (w : world) (nd : node) (R : world -> Prop) :
  others (tree w) !! Z.to_nat i = Some nd -> X nd = 0 -> announce nd = false ->
  (length (oracle w) < spin)%nat ->
  wp pa (if ann
         then with_node w i {| X := 0; announce := true; parent := parent nd |}
         else w)
     (fun _ w2 =>
        R w2 /\ (length (oracle w2) <= length (oracle w))%nat /\
        others (tree w2) !! Z.to_nat i =
          Some {| X := 0; announce := ann; parent := parent nd |}) ->
  wp (Arrive_loop ann pa spin i false 0) w
     (fun r w' =>
        r = (true, 0) /\
        exists w2 : world,
          R w2 /\
          w' = with_node (with_oracle w2 (settle (oracle w2))) i
                 {| X := 1; announce := ann; parent := parent nd |}).
Proof.
  intros Hnd HX Ha Hspin Hpa.
  destruct spin as [| spin]; [lia |].
  simpl Arrive_loop. unfold Arrive_body. simpl andb.
  apply wp_bind.
  apply (wp_seq _ _ _ (fun r w' => r = (true, 0) /\ w' = w)).
  { destruct ann.
    - apply wp_bind, (wp_load_announce i nd); [assumption |]. rewrite Ha.
      apply wp_ret. auto.
    - apply wp_ret. auto. }
  intros r w' [-> ->].
  apply (wp_seq _ _ _
           (fun _ w' => w' = if ann
                             then with_node w i
                                    {| X := 0; announce := true; parent := parent nd |}
                             else w)).
  { destruct ann.
    - apply (wp_store_announce i true nd); [assumption |]. rewrite HX. reflexivity.
    - apply wp_ret. reflexivity. }
  intros _ w' ->.
  eapply wp_seq; [exact Hpa |].
  intros _ w2 (HR & Hlen2 & Hnd2). apply wp_ret.
  apply wp_bind.
  apply (wp_node_cas_weak i 0 _ {| X := 0; announce := ann; parent := parent nd |});
    [exact Hnd2 | reflexivity | |].
  - intros Hfail.
    assert (Hlen : (length (oracle (with_oracle w2 (tl (oracle w2)))) < spin)%nat).
    { simpl. destruct (oracle w2); simpl in Hfail, Hlen2 |- *; [discriminate | lia]. }
    pose proof (Arrive_loop_exact ann pa i spin (with_oracle w2 (tl (oracle w2)))
                  {| X := 0; announce := ann; parent := parent nd |} true Hnd2
                  eq_refl Hlen) as Hloop.
    eapply wp_mono; [exact Hloop |].
    intros r w' (-> & ->). split; [reflexivity |]. exists w2. split; [exact HR |].
    simpl oracle. rewrite (settle_hd_true _ Hfail). reflexivity.
  - intros Hok. apply wp_ret. split; [reflexivity |]. exists w2. split; [exact HR |].
    rewrite (settle_hd_false _ Hok). reflexivity.
Qed.

Lemma steps_with_oracle_le (w : world) (o : list bool) :
  (length o <= length (oracle w))%nat -> steps w (with_oracle w o).
Proof.
  intros Hlen. split; try reflexivity; [exact Hlen |].
  exists []. split; [reflexivity | constructor].
Qed.

Lemma flagged_weaken (ann : bool) (n n' m m' : Z) (w : world) :
  n <= n' -> m' <= m -> flagged ann n m w -> flagged ann n' m' w.
Proof.
  intros Hn Hm H j nd Hj Hnd Ha.
  destruct (H j nd ltac:(lia) Hnd Ha) as [H1 H2]. split; [exact H1 | lia].
Qed.

Lemma flagged_same_nodes (ann : bool) (n m : Z) (w w' : world) :
  others (tree w') = others (tree w) -> flagged ann n m w -> flagged ann n m w'.
Proof. intros E H j nd Hj Hnd. rewrite E in Hnd. exact (H j nd Hj Hnd). Qed.

(** The flags below [i] after a call that worked on the nodes up to [p]. *)
Lemma flagged_join (ann : bool) (n p i : Z) (w w' : world) :
  p <= i -> flagged ann n i w -> framed p w w' -> flagged ann n p w' ->
  flagged ann n i w'.
Proof.
  intros Hp Hw Hf Hw' j nd Hj Hnd Ha.
  destruct (Z_le_gt_dec (Z.of_nat j) p) as [Hle | Hgt].
  - exact (Hw' j nd Hle Hnd Ha).
  - rewrite Hf in Hnd by lia. exact (Hw j nd Hj Hnd Ha).
Qed.

Lemma flagged_with_node (ann : bool) (n m i : Z) (w : world) (nd' : node) :
  0 <= i -> flagged ann n m w ->
  (announce nd' = true -> ann = true /\ 1 <= X nd' <= n) ->
  flagged ann n m (with_node w i nd').
Proof.
  intros Hi Hw Hnd' j nd Hj Hnd Ha. simpl in Hnd.
  destruct (Nat.eq_dec j (Z.to_nat i)) as [-> | Hne].
  - destruct (others (tree w) !! Z.to_nat i) as [nd0 |] eqn:E.
    + rewrite list_lookup_insert_eq in Hnd by (eapply lookup_lt_Some; exact E).
      injection Hnd as <-. exact (Hnd' Ha).
    + rewrite list_insert_ge in Hnd by (apply lookup_ge_None_1; exact E).
      rewrite E in Hnd. discriminate.
  - rewrite list_lookup_insert_ne in Hnd by lia. exact (Hw j nd Hj Hnd Ha).
Qed.

(** [node::Depart] keeps the flags in step with the counters, and the
    thread does not wait. *)
Lemma node_Depart_flags (ann : bool) (K N : Z) (spin : nat) (fuel : nat) :
  forall (i : Z) (w : world) (n : Z),
    ready K N spin w -> 1 <= i < N -> (Z.to_nat i <= fuel)%nat ->
    n <= SIZE_MAX -> flagged ann n i w ->
    wp (node_Depart ann spin fuel i) w
       (fun _ w' =>
          steps w w' /\ climb K fuel i w w' /\ framed i w w' /\ flagged ann n i w').
Proof.
  induction fuel as [| fuel IH]; intros i w n Hr Hi Hfuel Hn Hfl; [lia |].
  destruct (ready_lookup K N spin w i Hr ltac:(lia)) as [nd Hnd].
  assert (HK : 1 <= K).
  { destruct Hr as (Hs & Ha & _). rewrite <- Ha. apply (shape_arity _ Hs). }
  assert (HN : N <= SIZE_MAX).
  { destruct Hr as (Hs & _ & Hn' & _). rewrite <- Hn'. apply (shape_nodes _ Hs). }
  assert (Hspin : (length (oracle w) < spin)%nat) by (destruct Hr as (_ & _ & _ & Ho); exact Ho).
  pose proof (parent_index_bounds K i HK ltac:(lia)) as Hp.
  simpl node_Depart.
  apply wp_bind, (wp_load_X i nd); [exact Hnd |].
  eapply wp_seq; [apply (Depart_loop_world ann i spin w nd Hnd Hspin) |].
  intros r w1 (-> & Hw1). cbv beta.
  set (nd' := {| X := wrap (X nd - 1);
                 announce := if ann && (X nd =? 1) then false else announce nd;
                 parent := parent nd |}) in *.
  set (o' := if ann then oracle w else settle (oracle w)) in *.
  assert (Hlen' : (length o' <= length (oracle w))%nat).
  { subst o'. destruct ann; [lia | apply settle_length]. }
  assert (Hs1 : steps w w1).
  { rewrite Hw1. eapply steps_trans; [apply (steps_with_oracle_le w o' Hlen') |].
    apply (steps_with_node _ i nd); [exact Hnd | reflexivity]. }
  assert (Hq1 : trace w1 = trace w) by (rewrite Hw1; reflexivity).
  assert (Hf1 : framed i w w1).
  { rewrite Hw1. apply (framed_with_node (with_oracle w o') i nd'). lia. }
  assert (Hfl1 : flagged ann n i w1).
  { rewrite Hw1. apply flagged_with_node; [lia | exact Hfl |].
    subst nd'. simpl. intros Ha.
    destruct (ann && (X nd =? 1)) eqn:E; [discriminate |].
    destruct (Hfl (Z.to_nat i) nd ltac:(lia) Hnd Ha) as [-> Hx].
    simpl in E. apply Z.eqb_neq in E.
    split; [reflexivity |]. rewrite wrap_small by lia. lia. }
  pose proof (ready_steps K N spin w w1 Hr Hs1) as Hr1.
  destruct (Z.eqb_spec (X nd) 1) as [E1 | NE1];
    [| apply wp_ret; split; [exact Hs1 |]; split; [apply climb_zero; exact Hq1 | auto]].
  apply (to_parent_spec _ _ K N spin i w1); [exact Hr1 | exact Hi | |].
  - intros Hp0. apply wp_root_Depart.
    split; [eapply steps_trans; [exact Hs1 | apply steps_with_root] |].
    split; [apply climb_zero; exact Hq1 |].
    split; [exact Hf1 |].
    apply (flagged_same_nodes ann n i w1); [reflexivity | exact Hfl1].
  - intros Hpi.
    assert (Hst : steps w1 (with_events w1 [Touch (parent_index K i)]))
      by (apply (steps_touch K N spin); [exact Hr1 | lia]).
    eapply wp_mono.
    { apply (IH (parent_index K i) _ n); [| lia | lia | exact Hn |].
      - eapply ready_steps; [exact Hr1 | exact Hst].
      - apply (flagged_same_nodes ann n _ w1); [reflexivity |].
        apply (flagged_weaken ann n n i); [lia | lia | exact Hfl1]. }
    intros _ w2 (Hs2 & Hq2 & Hf2 & Hfl2).
    split; [eapply steps_trans; [exact Hs1 | eapply steps_trans; eassumption] |].
    split.
    { apply (climb_ends K (S fuel) i w w1 w2 w2 Hq1); [| reflexivity].
      apply climb_parent; [lia | exact Hq2]. }
    assert (Hf12 : framed (parent_index K i) w1 w2).
    { intros j Hj. rewrite Hf2 by exact Hj. reflexivity. }
    split.
    + apply (framed_trans i i (parent_index K i) w w1 w2); [lia | lia | exact Hf1 | exact Hf12].
    + apply (flagged_join ann n (parent_index K i) i w1 w2); [lia | exact Hfl1 | exact Hf12 | exact Hfl2].
Qed.

(** [node::Arrive] keeps the flags in step with the counters, and the
    thread does not wait. *)
Lemma node_Arrive_flags (ann : bool) (K N : Z) (spin : nat) (fuel : nat) :
  forall (i : Z) (w : world) (n : Z),
    ready K N spin w -> 1 <= i < N -> (Z.to_nat i <= fuel)%nat ->
    0 <= n < SIZE_MAX -> flagged ann n i w ->
    wp (node_Arrive ann spin fuel i) w
       (fun _ w' =>
          steps w w' /\ climb K fuel i w w' /\ framed i w w' /\
          flagged ann (n + 1) i w').
Proof.
  induction fuel as [| fuel IH]; intros i w n Hr Hi Hfuel Hn Hfl; [lia |].
  destruct (ready_lookup K N spin w i Hr ltac:(lia)) as [nd Hnd].
  assert (HK : 1 <= K).
  { destruct Hr as (Hs & Ha & _). rewrite <- Ha. apply (shape_arity _ Hs). }
  assert (HN : N <= SIZE_MAX).
  { destruct Hr as (Hs & _ & Hn' & _). rewrite <- Hn'. apply (shape_nodes _ Hs). }
  assert (Hspin : (length (oracle w) < spin)%nat) by (destruct Hr as (_ & _ & _ & Ho); exact Ho).
  pose proof (parent_index_bounds K i HK ltac:(lia)) as Hp.
  simpl node_Arrive.
  apply wp_bind, (wp_load_X i nd); [exact Hnd |].
  destruct (Z.eqb_spec (X nd) 0) as [E0 | NE0].
  - (* the counter is zero: the flag is not set *)
    assert (Ha : announce nd = false).
    { destruct (announce nd) eqn:Ea; [| reflexivity].
      destruct (Hfl (Z.to_nat i) nd ltac:(lia) Hnd Ea) as [_ Hx]. lia. }
    rewrite E0.
    set (nd1 := {| X := 0; announce := true; parent := parent nd |}).
    set (w1 := if ann then with_node w i nd1 else w).
    assert (Hw1 : steps w w1 /\ trace w1 = trace w /\ framed i w w1 /\
                  others (tree w1) !! Z.to_nat i =
                    Some {| X := 0; announce := ann; parent := parent nd |} /\
                  flagged ann n (parent_index K i) w1).
    { subst w1. destruct ann.
      - split; [apply (steps_with_node w i nd); [exact Hnd | reflexivity] |].
        split; [reflexivity |].
        split; [apply framed_with_node; lia |].
        split; [simpl; apply list_lookup_insert_eq; eapply lookup_lt_Some; exact Hnd |].
        intros j nd0 Hj Hnd0. simpl in Hnd0.
        rewrite list_lookup_insert_ne in Hnd0 by lia.
        apply (Hfl j nd0); [lia | exact Hnd0].
      - split; [apply steps_refl |]. split; [reflexivity |].
        split; [apply framed_refl |].
        split; [rewrite Hnd; destruct nd; simpl in *; subst; reflexivity |].
        apply (flagged_weaken false n n i); [lia | lia | exact Hfl]. }
    destruct Hw1 as (Hs1 & Hq1 & Hf1 & Hnd1 & Hfl1).
    pose proof (ready_steps K N spin w w1 Hr Hs1) as Hr1.
    eapply wp_seq.
    { apply (Arrive_loop_first ann _ i spin w nd
               (fun w2 => steps w1 w2 /\ climb K (S fuel) i w1 w2 /\
                          framed (parent_index K i) w1 w2 /\
                          flagged ann (n + 1) (parent_index K i) w2)
               Hnd E0 Ha Hspin).
      fold nd1. fold w1.
      assert (Hpost : forall w2 : world,
                 steps w1 w2 -> framed (parent_index K i) w1 w2 ->
                 (length (oracle w2) <= length (oracle w))%nat /\
                 others (tree w2) !! Z.to_nat i =
                   Some {| X := 0; announce := ann; parent := parent nd |}).
      { intros w2 Hs2 Hf2. split.
        - pose proof (steps_oracle _ _ Hs2). pose proof (steps_oracle _ _ Hs1). lia.
        - rewrite Hf2 by lia. exact Hnd1. }
      apply (to_parent_spec _ _ K N spin i w1); [exact Hr1 | exact Hi | |].
      - intros Hp0. apply wp_root_Arrive.
        assert (Hsr : steps w1 (with_root w1 (wrap (root (tree w1) + 1))))
          by apply steps_with_root.
        assert (Hfr : framed (parent_index K i) w1 (with_root w1 (wrap (root (tree w1) + 1))))
          by (intros j Hj; reflexivity).
        split; [| apply Hpost; assumption].
        split; [exact Hsr |]. split; [apply climb_zero; reflexivity |].
        split; [exact Hfr |].
        apply (flagged_same_nodes ann (n + 1) _ w1); [reflexivity |].
        apply (flagged_weaken ann n (n + 1) (parent_index K i)); [lia | lia | exact Hfl1].
      - intros Hpi.
        assert (Hst : steps w1 (with_events w1 [Touch (parent_index K i)]))
          by (apply (steps_touch K N spin); [exact Hr1 | lia]).
        eapply wp_mono.
        { apply (IH (parent_index K i) _ n); [| lia | lia | exact Hn |].
          - eapply ready_steps; [exact Hr1 | exact Hst].
          - apply (flagged_same_nodes ann n _ w1); [reflexivity | exact Hfl1]. }
        intros _ w2 (Hs2 & Hq2 & Hf2 & Hfl2).
        assert (Hs12 : steps w1 w2) by (eapply steps_trans; eassumption).
        assert (Hf12 : framed (parent_index K i) w1 w2).
        { intros j Hj. rewrite Hf2 by exact Hj. reflexivity. }
        split; [| apply Hpost; assumption].
        split; [exact Hs12 |].
        split; [apply climb_parent; [lia | exact Hq2] |].
        split; [exact Hf12 | exact Hfl2]. }
    intros r w' (-> & w2 & (Hs2 & Hq2 & Hf2 & Hfl2) & ->). simpl andb. cbv iota.
    apply wp_ret.
    assert (Hnd2 : others (tree w2) !! Z.to_nat i =
                     Some {| X := 0; announce := ann; parent := parent nd |}).
    { rewrite Hf2 by lia. exact Hnd1. }
    set (nd3 := {| X := 1; announce := ann; parent := parent nd |}).
    assert (Hs3 : steps w2 (with_node (with_oracle w2 (settle (oracle w2))) i nd3)).
    { eapply steps_trans; [apply steps_settle |].
      apply (steps_with_node _ i {| X := 0; announce := ann; parent := parent nd |});
        [exact Hnd2 | reflexivity]. }
    split; [eapply steps_trans; [exact Hs1 | eapply steps_trans; eassumption] |].
    split.
    { apply (climb_ends K (S fuel) i w w1 w2 _ Hq1 Hq2). reflexivity. }
    assert (Hf3 : framed i w2 (with_node (with_oracle w2 (settle (oracle w2))) i nd3)).
    { apply (framed_with_node (with_oracle w2 (settle (oracle w2))) i nd3). lia. }
    split.
    + apply (framed_trans i i i w w2); [lia | lia | | exact Hf3].
      apply (framed_trans i i (parent_index K i) w w1 w2); [lia | lia | exact Hf1 | exact Hf2].
    + assert (Hw1j : forall j : nat,
                 j <> Z.to_nat i -> others (tree w1) !! j = others (tree w) !! j).
      { intros j Hj. subst w1. destruct ann; [| reflexivity].
        simpl. apply list_lookup_insert_ne. lia. }
      intros j nd0 Hj Hnd0 Ha0. simpl in Hnd0.
      destruct (Nat.eq_dec j (Z.to_nat i)) as [-> | Hne].
      * rewrite list_lookup_insert_eq in Hnd0 by (eapply lookup_lt_Some; exact Hnd2).
        injection Hnd0 as <-. simpl in Ha0. subst ann. simpl. split; [reflexivity | lia].
      * rewrite list_lookup_insert_ne in Hnd0 by lia.
        destruct (Z_le_gt_dec (Z.of_nat j) (parent_index K i)) as [Hle | Hgt].
        -- exact (Hfl2 j nd0 Hle Hnd0 Ha0).
        -- rewrite Hf2, Hw1j in Hnd0 by lia.
           destruct (Hfl j nd0 Hj Hnd0 Ha0) as [H1 H2]. split; [exact H1 | lia].
  - (* the counter is not zero *)
    eapply wp_seq.
    { apply (Arrive_loop_exact ann _ i spin w nd false Hnd).
      - apply Z.eqb_neq in NE0. rewrite NE0. reflexivity.
      - exact Hspin. }
    intros r w' (-> & ->). simpl andb. cbv iota. apply wp_ret.
    set (nd' := {| X := wrap (X nd + 1); announce := announce nd; parent := parent nd |}).
    split.
    { eapply steps_trans; [apply steps_settle |].
      apply (steps_with_node _ i nd); [exact Hnd | reflexivity]. }
    split; [apply climb_zero; reflexivity |].
    split; [apply (framed_with_node (with_oracle w (settle (oracle w))) i nd'); lia |].
    apply flagged_with_node; [lia | |].
    + apply (flagged_same_nodes ann (n + 1) i w); [reflexivity |].
      apply (flagged_weaken ann n (n + 1) i); [lia | lia | exact Hfl].
    + subst nd'. simpl. intros Ha.
      destruct (Hfl (Z.to_nat i) nd ltac:(lia) Hnd Ha) as [H1 H2].
      split; [exact H1 |]. rewrite wrap_small by lia. lia.
Qed.

Lemma tree_Arrive_flags (ann : bool) (tid : Z) (w : world) (n : Z) :
  shape (tree w) -> 0 <= n < SIZE_MAX -> flagged ann n (total_nodes (tree w)) w ->
  wp (tree_Arrive ann tid) w
     (fun _ w' =>
        steps w w' /\ visited tid w w' /\
        flagged ann (n + 1) (total_nodes (tree w)) w').
Proof.
  intros Hs Hn Hfl. unfold tree_Arrive.
  pose proof (leaf_of_range _ tid Hs) as Hl. pose proof (shape_leaves _ Hs).
  pose proof (shape_length _ Hs) as Hlen.
  pose proof (ready_start w Hs) as Hr.
  apply wp_bind, wp_get_leaf_for_thread; [exact Hs |].
  destruct (Z.eqb_spec (leaf_of (tree w) tid) 0) as [E | NE].
  - apply wp_root_Arrive. split; [apply steps_with_root |].
    split; [apply visited_root; reflexivity |].
    apply (flagged_same_nodes ann (n + 1) _ w); [reflexivity |].
    apply (flagged_weaken ann n (n + 1) (total_nodes (tree w))); [lia | lia | exact Hfl].
  - apply wp_bind, wp_subscript; [lia |].
    set (leaf := leaf_of (tree w) tid) in *.
    assert (Hst : steps w (with_events w [Touch leaf])).
    { eapply steps_touch; [exact Hr | lia]. }
    eapply wp_mono.
    { eapply (node_Arrive_flags ann _ _ (spin_fuel w) (depth_fuel w) leaf _ n).
      - eapply ready_steps; [exact Hr | exact Hst].
      - lia.
      - unfold depth_fuel. lia.
      - exact Hn.
      - apply (flagged_same_nodes ann n _ w); [reflexivity |].
        apply (flagged_weaken ann n n (total_nodes (tree w))); [lia | lia | exact Hfl]. }
    intros _ w' (Hs' & Hq' & Hf' & Hfl').
    split; [eapply steps_trans; eassumption |].
    split; [apply visited_leaf; [exact NE | exact Hq'] |].
    apply (flagged_join ann (n + 1) leaf (total_nodes (tree w)) w w');
      [lia | | | exact Hfl'].
    + apply (flagged_weaken ann n (n + 1) (total_nodes (tree w))); [lia | lia | exact Hfl].
    + intros j Hj. rewrite Hf' by exact Hj. reflexivity.
Qed.

Lemma tree_Depart_flags (ann : bool) (tid : Z) (w : world) (n : Z) :
  shape (tree w) -> n <= SIZE_MAX -> flagged ann n (total_nodes (tree w)) w ->
  wp (tree_Depart ann tid) w
     (fun _ w' =>
        steps w w' /\ visited tid w w' /\ flagged ann n (total_nodes (tree w)) w').
Proof.
  intros Hs Hn Hfl. unfold tree_Depart.
  pose proof (leaf_of_range _ tid Hs) as Hl. pose proof (shape_leaves _ Hs).
  pose proof (shape_length _ Hs) as Hlen.
  pose proof (ready_start w Hs) as Hr.
  apply wp_bind, wp_get_leaf_for_thread; [exact Hs |].
  destruct (Z.eqb_spec (leaf_of (tree w) tid) 0) as [E | NE].
  - apply wp_root_Depart. split; [apply steps_with_root |].
    split; [apply visited_root; reflexivity |].
    apply (flagged_same_nodes ann n _ w); [reflexivity | exact Hfl].
  - apply wp_bind, wp_subscript; [lia |].
    set (leaf := leaf_of (tree w) tid) in *.
    assert (Hst : steps w (with_events w [Touch leaf])).
    { eapply steps_touch; [exact Hr | lia]. }
    eapply wp_mono.
    { eapply (node_Depart_flags ann _ _ (spin_fuel w) (depth_fuel w) leaf _ n).
      - eapply ready_steps; [exact Hr | exact Hst].
      - lia.
      - unfold depth_fuel. lia.
      - exact Hn.
      - apply (flagged_same_nodes ann n _ w); [reflexivity |].
        apply (flagged_weaken ann n n (total_nodes (tree w))); [lia | lia | exact Hfl]. }
    intros _ w' (Hs' & Hq' & Hf' & Hfl').
    split; [eapply steps_trans; eassumption |].
    split; [apply visited_leaf; [exact NE | exact Hq'] |].
    apply (flagged_join ann n leaf (total_nodes (tree w)) w w');
      [lia | exact Hfl | | exact Hfl'].
    intros j Hj. rewrite Hf' by exact Hj. reflexivity.
Qed.

Lemma Arrive_not_full (v : variant) (tid : Z) (cont : contention_status) :
  v <> full_contention_handling ->
  Arrive v tid cont = bind (tree_Arrive (has_announce v) tid) (fun _ => ret cont).
Proof. destruct v; intros Hv; try reflexivity. contradiction. Qed.

Lemma Depart_not_full (v : variant) (tid : Z) (cont : contention_status) :
  v <> full_contention_handling ->
  Depart v tid cont = bind (tree_Depart (has_announce v) tid) (fun _ => ret cont).
Proof. destruct v; intros Hv; try reflexivity. contradiction. Qed.

(** A history on one of the two classes without direct operations. *)
Lemma run_flags (v : variant) (cs : list call) :
  v <> full_contention_handling ->
  forall (n : Z) (st : statuses) (w : world),
    shape (tree w) -> 0 <= n -> n + arrivals cs <= SIZE_MAX ->
    flagged (has_announce v) n (total_nodes (tree w)) w ->
    wp (run v cs st) w
       (fun _ w' =>
          steps w w' /\ quiet w w' /\
          flagged (has_announce v) (n + arrivals cs) (total_nodes (tree w)) w').
Proof.
  intros Hv. induction cs as [| c cs IH]; intros n st w Hs Hn Hb Hfl.
  - simpl. apply wp_ret. split; [apply steps_refl |]. split; [apply quiet_refl |].
    rewrite Z.add_0_r. exact Hfl.
  - pose proof (arrivals_nonneg cs) as Hcs.
    simpl run. apply wp_bind.
    destruct c as [tid | tid |]; simpl step; simpl arrivals in *.
    + apply wp_bind.
      assert (Hstep : wp (Arrive v tid (st tid)) w
                (fun _ w1 => steps w w1 /\ quiet w w1 /\
                             flagged (has_announce v) (n + 1) (total_nodes (tree w)) w1)).
      { rewrite (Arrive_not_full v tid (st tid) Hv). apply wp_bind.
        eapply wp_mono; [apply (tree_Arrive_flags _ tid w n); [exact Hs | lia | exact Hfl] |].
        intros u w1 (H1 & H2 & H3). apply wp_ret.
        split; [exact H1 |]. split; [exact (visited_quiet _ _ _ H2) | exact H3]. }
      eapply wp_mono; [exact Hstep |].
      intros c' w1 (H1 & H2 & H3). apply wp_ret.
      eapply wp_mono.
      { apply (IH (n + 1) (set_status st tid c') w1).
        - exact (steps_shape _ _ H1 Hs).
        - lia.
        - lia.
        - rewrite (steps_nodes _ _ H1). exact H3. }
      intros st' w' (H4 & H5 & H6).
      split; [eapply steps_trans; eassumption |].
      split; [eapply quiet_trans; eassumption |].
      rewrite (steps_nodes _ _ H1) in H6.
      replace (n + (1 + arrivals cs)) with (n + 1 + arrivals cs) by lia. exact H6.
    + apply wp_bind.
      assert (Hstep : wp (Depart v tid (st tid)) w
                (fun _ w1 => steps w w1 /\ quiet w w1 /\
                             flagged (has_announce v) n (total_nodes (tree w)) w1)).
      { rewrite (Depart_not_full v tid (st tid) Hv). apply wp_bind.
        eapply wp_mono; [apply (tree_Depart_flags _ tid w n); [exact Hs | lia | exact Hfl] |].
        intros u w1 (H1 & H2 & H3). apply wp_ret.
        split; [exact H1 |]. split; [exact (visited_quiet _ _ _ H2) | exact H3]. }
      eapply wp_mono; [exact Hstep |].
      intros c' w1 (H1 & H2 & H3). apply wp_ret.
      eapply wp_mono.
      { apply (IH n (set_status st tid c') w1).
        - exact (steps_shape _ _ H1 Hs).
        - lia.
        - lia.
        - rewrite (steps_nodes _ _ H1). exact H3. }
      intros st' w' (H4 & H5 & H6).
      split; [eapply steps_trans; eassumption |].
      split; [eapply quiet_trans; eassumption |].
      rewrite (steps_nodes _ _ H1) in H6. exact H6.
    + apply wp_bind. exists (negb (root (tree w) =? 0)), w.
      split; [reflexivity |]. apply wp_ret.
      apply (IH n st w); assumption.
Qed.

(** X12. A thread that runs alone never waits. On a freshly constructed
    tree of the two classes without direct operations, whatever the calls
    (matched or not), no call executes a [pause] or yields: the only events
    are subscripts of the node array; and a node whose flag [announce] is
    set has a counter that is not zero. *)
Theorem thread_alone_never_waits (alloc : Z -> bool) (v : variant) (K H T : Z)
    (cs : list call) (o : list bool) :
  2 <= K -> 0 <= H -> K ^ (H + 1) <= 2 ^ 64 -> 1 <= T < 2 ^ 53 ->
  alloc ((K ^ (H + 1) - 1) / (K - 1)) = true ->
  v <> full_contention_handling ->
  arrivals cs <= SIZE_MAX ->
  exists (t : snzi) (st : statuses) (w : world),
    construct alloc K H T = Ok t /\
    run v cs fresh_statuses (start t o) = Ok (st, w) /\
    (forall e : event, In e (trace w) -> exists i : Z, e = Touch i) /\
    (forall (i : nat) (nd : node),
       others (tree w) !! i = Some nd -> announce nd = true ->
       has_announce v = true /\ X nd <> 0).
Proof.
  intros HK HH Hpow HT Halloc Hv Harr.
  rewrite (construct_spec alloc K H T HK HH Hpow HT Halloc).
  pose proof (construct_shape K H T HK HH Hpow ltac:(lia)) as Hs.
  set (t := {| arity := K; total_nodes := (K ^ (H + 1) - 1) / (K - 1) |}) in *.
  destruct (run_flags v cs Hv 0 fresh_statuses (start t o) Hs ltac:(lia) ltac:(lia))
    as (st & w & Hrun & Hst & Hq & Hfl).
  - intros j nd _ Hnd Ha. simpl in Hnd.
    apply set_parents_lookup in Hnd. destruct Hnd as (_ & _ & Ha' & _). congruence.
  - exists t, st, w. split; [reflexivity |]. split; [exact Hrun |]. split.
    + destruct Hq as (es & Etr & Hes). simpl in Etr. rewrite app_nil_r in Etr.
      intros e He. rewrite Etr in He. rewrite Forall_forall in Hes.
      apply list_elem_of_In in He. specialize (Hes e He).
      destruct e; simpl in Hes; try contradiction. eauto.
    + intros i nd Hnd Ha.
      pose proof (shape_length _ (steps_shape _ _ Hst Hs)) as Hlen.
      pose proof (lookup_lt_Some _ _ _ Hnd) as Hi.
      pose proof (steps_nodes _ _ Hst) as HN. simpl tree in HN, Hfl.
      destruct (Hfl i nd ltac:(lia) Hnd Ha) as [H1 H2].
      split; [exact H1 | lia].
Qed.

Lemma thread_alone_never_waits_witness :
  exists (t : snzi) (st : statuses) (w : world),
    construct (fun _ => true) 2 2 8 = Ok t /\
    run semi_contention_handling
        [CallDepart 5; CallArrive 0; CallArrive 7; CallDepart 0; CallArrive 5]
        fresh_statuses (start t [true; true; false; true]) = Ok (st, w) /\
    (forall e : event, In e (trace w) -> exists i : Z, e = Touch i) /\
    (forall (i : nat) (nd : node),
       others (tree w) !! i = Some nd -> announce nd = true ->
       has_announce semi_contention_handling = true /\ X nd <> 0).
Proof.
  apply (thread_alone_never_waits (fun _ => true) semi_contention_handling 2 2 8
           [CallDepart 5; CallArrive 0; CallArrive 7; CallDepart 0; CallArrive 5]
           [true; true; false; true]);
    try lia; try reflexivity; try discriminate.
Defined.

(** X20. A call stays on the way from the caller's leaf to the root. On a
    freshly constructed tree of the two classes without direct operations,
    after any calls of a thread running alone, both [Arrive(tid)] and
    [Depart(tid)] return, and the events of the call are subscripts of the
    node array at the first nodes of the way of [tid] (its leaf, the parent
    of the leaf, and so on), in that order and each one once: at most [H]
    subscripts, and none at all in a tree of height 0. *)
Theorem call_subscripts_way_to_root (alloc : Z -> bool) (v : variant) (K H T : Z)
    (cs : list call) (o : list bool) (tid : Z) :
  2 <= K -> 0 <= H -> K ^ (H + 1) <= 2 ^ 64 -> 1 <= T < 2 ^ 53 ->
  alloc ((K ^ (H + 1) - 1) / (K - 1)) = true ->
  v <> full_contention_handling ->
  arrivals cs < SIZE_MAX ->
  exists (t : snzi) (st : statuses) (w : world),
    construct alloc K H T = Ok t /\
    run v cs fresh_statuses (start t o) = Ok (st, w) /\
    path (tree w) tid = path t tid /\
    (length (path t tid) <= Z.to_nat H)%nat /\
    (exists (c' : contention_status) (w' : world),
       Arrive v tid (st tid) w = Ok (c', w') /\ visited tid w w') /\
    (exists (c' : contention_status) (w' : world),
       Depart v tid (st tid) w = Ok (c', w') /\ visited tid w w').
Proof.
  intros HK HH Hpow HT Halloc Hv Harr.
  rewrite (construct_spec alloc K H T HK HH Hpow HT Halloc).
  pose proof (construct_shape K H T HK HH Hpow ltac:(lia)) as Hs.
  destruct (nodes_count_value K H HK HH) as (EN & ES & H0 & Hl).
  set (t := {| arity := K; total_nodes := (K ^ (H + 1) - 1) / (K - 1) |}) in *.
  pose proof (arrivals_nonneg cs) as Hcs.
  destruct (run_flags v cs Hv 0 fresh_statuses (start t o) Hs ltac:(lia) ltac:(lia))
    as (st & w & Hrun & Hst & Hq & Hfl).
  { intros j nd _ Hnd Ha. simpl in Hnd.
    apply set_parents_lookup in Hnd. destruct Hnd as (_ & _ & Ha' & _). congruence. }
  pose proof (steps_shape _ _ Hst Hs) as Hsw.
  pose proof (steps_nodes _ _ Hst) as HN.
  exists t, st, w. split; [reflexivity |]. split; [exact Hrun |]. split.
  { unfold path. rewrite (steps_leaf_of _ _ tid Hst), (steps_arity _ _ Hst),
      (steps_length _ _ Hst). reflexivity. }
  split.
  { pose proof (leaf_of_range t tid Hs) as Hr.
    pose proof (shape_nodes _ Hs) as Hmax.
    change (total_nodes t) with ((K ^ (H + 1) - 1) / (K - 1)) in Hr, Hmax.
    change (total_leaf_nodes t) with (K ^ H) in Hr.
    unfold path. change (arity t) with K.
    destruct (Z.eqb_spec (leaf_of t tid) 0) as [_ | NE]; [simpl; lia |].
    destruct (Z.to_nat H) as [| h] eqn:EH.
    - simpl in EN, ES. lia.
    - simpl length. apply le_n_S. apply ancestors_length; [exact HK | lia | lia]. }
  split.
  - rewrite (Arrive_not_full v tid (st tid) Hv).
    destruct (tree_Arrive_flags (has_announce v) tid w (0 + arrivals cs) Hsw ltac:(lia))
      as (u & w' & Hrun' & _ & Hv' & _).
    { rewrite HN. exact Hfl. }
    exists (st tid), w'. split; [| exact Hv'].
    unfold bind. rewrite Hrun'. reflexivity.
  - rewrite (Depart_not_full v tid (st tid) Hv).
    destruct (tree_Depart_flags (has_announce v) tid w (0 + arrivals cs) Hsw ltac:(lia))
      as (u & w' & Hrun' & _ & Hv' & _).
    { rewrite HN. exact Hfl. }
    exists (st tid), w'. split; [| exact Hv'].
    unfold bind. rewrite Hrun'. reflexivity.
Qed.

Lemma call_subscripts_way_to_root_witness :
  exists (t : snzi) (st : statuses) (w : world),
    construct (fun _ => true) 2 2 8 = Ok t /\
    run semi_contention_handling [CallArrive 0; CallArrive 7; CallDepart 0]
        fresh_statuses (start t [true; false]) = Ok (st, w) /\
    path (tree w) 5 = path t 5 /\
    (length (path t 5) <= Z.to_nat 2)%nat /\
    (exists (c' : contention_status) (w' : world),
       Arrive semi_contention_handling 5 (st 5) w = Ok (c', w') /\ visited 5 w w') /\
    (exists (c' : contention_status) (w' : world),
       Depart semi_contention_handling 5 (st 5) w = Ok (c', w') /\ visited 5 w w').
Proof.
  apply (call_subscripts_way_to_root (fun _ => true) semi_contention_handling 2 2 8
           [CallArrive 0; CallArrive 7; CallDepart 0] [true; false] 5);
    try lia; try reflexivity; try discriminate.
Defined.

End FlagFacts.

Section ConstructedObjects.
Import Word Snzi SnziSpec.








End ConstructedObjects.

Section PerfEvalFacts.
Import Word Snzi SnziSpec PerfEval.

Lemma wait_for_flag_spec (m : nat) (rest : list bool) (w : world) :
  wait_for_flag (repeat false m ++ true :: rest) w = Ok (tt, w).
Proof. induction m as [| m IH]; simpl; [reflexivity | exact IH]. Qed.

Lemma tree_visit_spec {A : Type} (tid : Z) (w : world) (k : M A)
    (Q : A -> world -> Prop) :
  shape (tree w) -> ranged (abs (tree w)) ->
  (forall w' : world, steps w w' -> abs (tree w') = abs (tree w) -> wp k w' Q) ->
  wp (tree_Arrive true tid ;;; tree_Depart true tid ;;; k) w Q.
Proof.
  intros Hs Hr HQ.
  pose proof (leaf_of_range (tree w) tid Hs) as Hl.
  pose proof (shape_length _ Hs) as Hlen.
  pose proof (shape_leaves _ Hs) as Hleaves.
  apply wp_bind. eapply wp_mono; [apply (tree_Arrive_spec true tid w Hs) |].
  intros u1 w1 (H1 & H2).
  apply wp_bind.
  eapply wp_mono; [apply (tree_Depart_spec true tid w1 (steps_shape _ _ H1 Hs)) |].
  intros u2 w2 (H3 & H4). apply HQ; [eapply steps_trans; eassumption |].
  rewrite H4, H2, (steps_arity _ _ H1), (steps_depth_fuel _ _ H1),
    (steps_leaf_of _ _ tid H1).
  apply abs_Depart_Arrive.
  - apply (shape_arity _ Hs).
  - exact Hr.
  - apply abs_ranged_length. exact Hs.
  - rewrite abs_length. lia.
  - unfold depth_fuel. lia.
Qed.

Lemma wrap_wrap_succ (x : Z) : wrap (wrap x + 1) = wrap (x + 1).
Proof. unfold wrap. apply Zplus_mod_idemp_l. Qed.

Lemma visit_loop_spec (id : Z) (n : nat) (rest : list bool) :
  forall (visits : Z) (w : world),
    shape (tree w) -> ranged (abs (tree w)) ->
    wp (visit_loop (repeat true n ++ false :: rest) id (wrap visits)) w
       (fun r w' =>
          r = wrap (visits + Z.of_nat n) /\ steps w w' /\ abs (tree w') = abs (tree w)).
Proof.
  induction n as [| n IH]; intros visits w Hs Hr.
  - simpl. apply wp_ret. rewrite Z.add_0_r.
    split; [reflexivity |]. split; [apply steps_refl | reflexivity].
  - simpl repeat. simpl app. simpl visit_loop.
    apply tree_visit_spec; [exact Hs | exact Hr |].
    intros w1 H1 H2.
    apply wp_bind. exists (negb (root (tree w1) =? 0)), w1. split; [reflexivity |].
    rewrite wrap_wrap_succ.
    eapply wp_mono.
    { apply (IH (visits + 1) w1); [exact (steps_shape _ _ H1 Hs) | rewrite H2; exact Hr]. }
    intros r w' (-> & H3 & H4).
    split; [f_equal; lia |]. split; [eapply steps_trans; eassumption | congruence].
Qed.

(** X14. The benchmark's thread, run alone: for every parameter setting
    and every number of threads of the benchmark and every thread
    identifier it uses, the object is constructed, the thread job returns
    once the flag is raised and the clock has run out, it reports the
    number of its visits (modulo [2^64]), and it leaves every counter of
    the tree at zero. *)
Theorem thread_job_visits_and_leaves (alloc : Z -> bool) (K H T id : Z) (m n : nat)
    (flag_rest clock_rest : list bool) (o : list bool) :
  In (K, H) (combine K_params H_params) -> In T num_threads -> 0 <= id < T ->
  alloc ((K ^ (H + 1) - 1) / (K - 1)) = true ->
  exists (t : snzi) (w : world),
    construct alloc K H T = Ok t /\
    thread_job (repeat false m ++ true :: flag_rest)
               (repeat true n ++ false :: clock_rest) id (start t o)
      = Ok (wrap (Z.of_nat n), w) /\
    root (tree w) = 0 /\
    Forall (fun nd => X nd = 0) (others (tree w)) /\
    Query w = Ok (false, w).
Proof.
  intros HKH HT Hid Halloc.
  assert (Hbounds : 2 <= K /\ 0 <= H /\ K ^ (H + 1) <= 2 ^ 64 /\ 1 <= T < 2 ^ 53).
  { simpl in HKH, HT.
    assert (1 <= T <= 8) by (repeat (destruct HT as [<- | HT]; [lia |]); destruct HT).
    repeat (destruct HKH as [[= <- <-] | HKH];
            [split; [lia |]; split; [lia |]; split; [vm_compute; discriminate | lia] |]).
    destruct HKH. }
  destruct Hbounds as (HK & HH & Hpow & HT').
  rewrite (construct_spec alloc K H T HK HH Hpow HT' Halloc).
  pose proof (construct_shape K H T HK HH Hpow ltac:(lia)) as Hs.
  pose proof (construct_counters K H T) as Habs.
  set (t := {| arity := K; total_nodes := (K ^ (H + 1) - 1) / (K - 1) |}) in *.
  assert (Hr : ranged (abs t)).
  { rewrite Habs. split; [simpl; unfold SIZE_MAX; lia |].
    simpl. apply Forall_replicate. unfold SIZE_MAX. lia. }
  destruct (visit_loop_spec id n clock_rest 0 (start t o) Hs Hr)
    as (r & w & E & -> & _ & Ha).
  exists t, w. split; [reflexivity |].
  unfold thread_job, bind. rewrite wait_for_flag_spec.
  change (wrap 0) with 0 in E. rewrite E. simpl Z.add.
  split; [reflexivity |].
  simpl tree in Ha. rewrite Habs in Ha. unfold abs in Ha. injection Ha as Hroot Hnodes.
  split; [exact Hroot |]. split.
  - apply Forall_forall. intros nd Hnd.
    apply list_elem_of_In, (in_map X) in Hnd.
    change (map X (others (tree w))) with (X <$> others (tree w)) in Hnd.
    rewrite Hnodes in Hnd. apply list_elem_of_In, elem_of_replicate in Hnd. tauto.
  - rewrite Query_eq, Hroot. reflexivity.
Qed.

Lemma thread_job_visits_and_leaves_witness :
  exists (t : snzi) (w : world),
    construct (fun _ => true) 4 1 8 = Ok t /\
    thread_job (repeat false 2 ++ true :: [])
               (repeat true 3 ++ false :: [true]) 7 (start t [true; false])
      = Ok (wrap (Z.of_nat 3), w) /\
    root (tree w) = 0 /\
    Forall (fun nd => X nd = 0) (others (tree w)) /\
    Query w = Ok (false, w).
Proof.
  apply (thread_job_visits_and_leaves (fun _ => true) 4 1 8 7 2 3 [] [true] [true; false]);
    [simpl; tauto | simpl; tauto | lia | reflexivity].
Defined.

End PerfEvalFacts.

Section AffinityFacts.
Import Affinity.

Lemma small_cases (n : Z) : 0 <= n <= 8 ->
  n = 0 \/ n = 1 \/ n = 2 \/ n = 3 \/ n = 4 \/ n = 5 \/ n = 6 \/ n = 7 \/ n = 8.
Proof. lia. Qed.

Ltac split_small x :=
  let H := fresh "H" in
  destruct (small_cases x ltac:(lia)) as [-> | H];
  [| repeat (destruct H as [-> | H]); try subst x].

Lemma assign_core_of (ndebug : bool) (os : Z -> bool) (n id : Z) :
  1 <= n <= 8 -> 0 <= id < n ->
  assign ndebug os n id = set_affinity os (core_of n id) /\ 0 <= core_of n id <= 7.
Proof.
  intros Hn Hid. split_small n; try lia; split_small id; try lia;
    (split; [simpl; rewrite ?andb_false_r; reflexivity | vm_compute; split; discriminate]).
Qed.

Lemma core_of_increasing (n id1 id2 : Z) :
  1 <= n <= 8 -> 0 <= id1 < id2 -> id2 < n -> core_of n id1 < core_of n id2.
Proof.
  intros Hn H1 H2. split_small n; try lia; split_small id1; try lia;
    split_small id2; try lia; reflexivity.
Qed.

Lemma assign_outside (os : Z -> bool) (n id : Z) :
  1 <= n <= 8 -> ~ 0 <= id < n -> assign false os n id = AssertionFailure.
Proof.
  intros Hn Hid. split_small n; try lia.
  all: destruct id as [| p | p]; try (exfalso; lia); try reflexivity.
  all: do 4 (try destruct p as [p | p |]); try reflexivity; exfalso; lia.
Qed.

(** X15. The table of [affinity] gives the threads of a run cores of their
    own: for 1 to 8 threads and a thread identifier below that number the
    call asks the system for one core among 0..7 (and throws when the
    system refuses); a larger identifier gets a larger core, so that no two
    threads are bound to the same core; with the assertions enabled, an
    identifier outside the range fails one. *)
Theorem affinity_gives_each_thread_its_core (ndebug : bool) (os : Z -> bool) (n : Z) :
  1 <= n <= 8 ->
  (forall id : Z,
     0 <= id < n ->
     exists core : Z,
       0 <= core <= 7 /\
       assign ndebug os n id = (if os core then Pinned core else RuntimeError)) /\
  (forall id1 id2 core1 core2 : Z,
     0 <= id1 < id2 -> id2 < n ->
     assign ndebug os n id1 = Pinned core1 ->
     assign ndebug os n id2 = Pinned core2 ->
     core1 < core2) /\
  (forall id : Z, ~ 0 <= id < n -> assign false os n id = AssertionFailure).
Proof.
  intros Hn. split; [| split].
  - intros id Hid. destruct (assign_core_of ndebug os n id Hn Hid) as [E Hc].
    exists (core_of n id). split; [exact Hc | exact E].
  - intros id1 id2 core1 core2 H12 H2 E1 E2.
    destruct (assign_core_of ndebug os n id1 Hn ltac:(lia)) as [E1' _].
    destruct (assign_core_of ndebug os n id2 Hn ltac:(lia)) as [E2' _].
    rewrite E1' in E1. rewrite E2' in E2. unfold set_affinity in E1, E2.
    destruct (os (core_of n id1)); [| discriminate].
    destruct (os (core_of n id2)); [| discriminate].
    injection E1 as <-. injection E2 as <-.
    apply core_of_increasing; assumption.
  - intros id Hid. apply assign_outside; assumption.
Qed.

Lemma affinity_gives_each_thread_its_core_witness :
  exists core1 core2 : Z,
    assign false (fun _ => true) 5 3 = Pinned core1 /\
    assign false (fun _ => true) 5 4 = Pinned core2 /\
    core1 < core2 /\
    assign false (fun _ => true) 5 5 = AssertionFailure.
Proof.
  destruct (affinity_gives_each_thread_its_core false (fun _ => true) 5 ltac:(lia))
    as (_ & Hinj & Hout).
  exists 4, 6. split; [reflexivity |]. split; [reflexivity |].
  split; [apply (Hinj 3 4 4 6); [lia | lia | reflexivity | reflexivity] |].
  apply Hout. lia.
Defined.

End AffinityFacts.

Section OracleFacts.
Import Word Snzi SnziSpec SnziHistory SnziRuns.

Lemma run_abs (v : variant) (w0 : world) :
  shape (tree w0) -> v <> full_contention_handling ->
  forall (cs : list call) (st : statuses) (w : world),
    steps w0 w ->
    wp (run v cs st) w
       (fun _ w' =>
          steps w w' /\
          abs (tree w') =
            abs_run (arity (tree w0)) (depth_fuel w0) (leaf_of (tree w0)) cs (abs (tree w))).
Proof.
  intros Hs0 Hv. induction cs as [| c cs IH]; intros st w Hst.
  - simpl. apply wp_ret. split; [apply steps_refl | reflexivity].
  - pose proof (steps_shape _ _ Hst Hs0) as Hs.
    simpl run. apply wp_bind.
    destruct c as [tid | tid |]; simpl step; simpl abs_run.
    + rewrite (Arrive_not_full v tid _ Hv). apply wp_bind, wp_bind.
      eapply wp_mono; [apply (tree_Arrive_spec _ tid w Hs) |].
      intros u w1 (H1 & E1). apply wp_ret, wp_ret.
      eapply wp_mono; [apply (IH _ w1); eapply steps_trans; eassumption |].
      intros st' w' (H2 & E2). split; [eapply steps_trans; eassumption |].
      rewrite E2, E1, (steps_arity _ _ Hst), (steps_depth_fuel _ _ Hst),
        (steps_leaf_of _ _ tid Hst). reflexivity.
    + rewrite (Depart_not_full v tid _ Hv). apply wp_bind, wp_bind.
      eapply wp_mono; [apply (tree_Depart_spec _ tid w Hs) |].
      intros u w1 (H1 & E1). apply wp_ret, wp_ret.
      eapply wp_mono; [apply (IH _ w1); eapply steps_trans; eassumption |].
      intros st' w' (H2 & E2). split; [eapply steps_trans; eassumption |].
      rewrite E2, E1, (steps_arity _ _ Hst), (steps_depth_fuel _ _ Hst),
        (steps_leaf_of _ _ tid Hst). reflexivity.
    + apply wp_bind. exists (negb (root (tree w) =? 0)), w.
      split; [reflexivity |]. apply wp_ret. apply (IH st w Hst).
Qed.

(** X16. The spurious failures of [compare_exchange_weak] delay a thread
    and change nothing else: on the two classes without direct operations,
    whatever the calls, two runs that differ only in the exchanges that
    fail return, and end with the same counter in the root and in every
    node, hence with the same answer of [Query()]. *)
Theorem spurious_failures_do_not_change_counters (alloc : Z -> bool) (v : variant)
    (K H T : Z) (cs : list call) (o1 o2 : list bool) :
  2 <= K -> 0 <= H -> K ^ (H + 1) <= 2 ^ 64 -> 1 <= T < 2 ^ 53 ->
  alloc ((K ^ (H + 1) - 1) / (K - 1)) = true ->
  v <> full_contention_handling ->
  exists (t : snzi) (st1 st2 : statuses) (w1 w2 : world) (b : bool),
    construct alloc K H T = Ok t /\
    run v cs fresh_statuses (start t o1) = Ok (st1, w1) /\
    run v cs fresh_statuses (start t o2) = Ok (st2, w2) /\
    root (tree w1) = root (tree w2) /\
    X <$> others (tree w1) = X <$> others (tree w2) /\
    Query w1 = Ok (b, w1) /\ Query w2 = Ok (b, w2).
Proof.
  intros HK HH Hpow HT Halloc Hv.
  rewrite (construct_spec alloc K H T HK HH Hpow HT Halloc).
  pose proof (construct_shape K H T HK HH Hpow ltac:(lia)) as Hs.
  set (t := {| arity := K; total_nodes := (K ^ (H + 1) - 1) / (K - 1) |}) in *.
  destruct (run_abs v (start t o1) Hs Hv cs fresh_statuses (start t o1) (steps_refl _))
    as (st1 & w1 & E1 & _ & A1).
  destruct (run_abs v (start t o2) Hs Hv cs fresh_statuses (start t o2) (steps_refl _))
    as (st2 & w2 & E2 & _ & A2).
  assert (Habs : abs (tree w1) = abs (tree w2)) by (rewrite A1, A2; reflexivity).
  unfold abs in Habs. injection Habs as Hroot Hnodes.
  exists t, st1, st2, w1, w2, (negb (root (tree w1) =? 0)).
  split; [reflexivity |]. split; [exact E1 |]. split; [exact E2 |].
  split; [exact Hroot |]. split; [exact Hnodes |].
  rewrite !Query_eq, Hroot. split; reflexivity.
Qed.

Lemma spurious_failures_do_not_change_counters_witness :
  exists (t : snzi) (st1 st2 : statuses) (w1 w2 : world) (b : bool),
    construct (fun _ => true) 3 1 6 = Ok t /\
    run semi_contention_handling [CallArrive 5; CallArrive 0; CallDepart 5; CallQuery]
        fresh_statuses (start t []) = Ok (st1, w1) /\
    run semi_contention_handling [CallArrive 5; CallArrive 0; CallDepart 5; CallQuery]
        fresh_statuses (start t [true; true; false; true; true; true]) = Ok (st2, w2) /\
    root (tree w1) = root (tree w2) /\
    X <$> others (tree w1) = X <$> others (tree w2) /\
    Query w1 = Ok (b, w1) /\ Query w2 = Ok (b, w2).
Proof.
  apply (spurious_failures_do_not_change_counters (fun _ => true) semi_contention_handling
           3 1 6 [CallArrive 5; CallArrive 0; CallDepart 5; CallQuery]
           [] [true; true; false; true; true; true]);
    try lia; try reflexivity; try discriminate.
Defined.

End OracleFacts.

Section EscalationFacts.
Import Word Snzi SnziSpec SnziHistory.

Lemma failures_five (o : list bool) :
  failures (true :: true :: true :: true :: true :: o) = (5 + failures o)%nat.
Proof. reflexivity. Qed.

(** X17. In the full class a departure can be stranded. When the first of
    two nested arrivals of a thread meets five failed exchanges, the second
    arrival and the first departure still go to the root, and the second
    departure goes to the leaf of the thread, whose counter was never
    incremented: after the two departures the root still holds one, the
    leaf holds [2^64 - 1], and [Query()] returns true although every
    arrival is matched. *)
Theorem escalation_between_nested_arrivals_strands_a_departure (alloc : Z -> bool)
    (K H T tid : Z) (o : list bool) :
  2 <= K -> 1 <= H -> K ^ (H + 1) <= 2 ^ 64 -> 1 <= T < 2 ^ 53 ->
  alloc ((K ^ (H + 1) - 1) / (K - 1)) = true ->
  Z.of_nat (length o) + 6 <= INT_MAX ->
  exists (t : snzi) (st : statuses) (w : world) (leaf : Z) (nd : node),
    construct alloc K H T = Ok t /\
    run full_contention_handling
        [CallArrive tid; CallArrive tid; CallDepart tid; CallDepart tid]
        fresh_statuses
        (start t (true :: true :: true :: true :: true :: false :: o)) = Ok (st, w) /\
    get_leaf_for_thread tid (start t []) = Ok (leaf, start t []) /\
    others (tree w) !! Z.to_nat leaf = Some nd /\ X nd = SIZE_MAX /\
    root (tree w) = 1 /\
    Query w = Ok (true, w).
Proof.
  intros HK HH Hpow HT Halloc Ho.
  rewrite (construct_spec alloc K H T HK ltac:(lia) Hpow HT Halloc).
  pose proof (construct_shape K H T HK ltac:(lia) Hpow ltac:(lia)) as Hs.
  pose proof (construct_counters K H T) as Habs.
  destruct (nodes_count_value K H HK ltac:(lia)) as (HN & HN' & Hls & HL).
  set (t := {| arity := K; total_nodes := (K ^ (H + 1) - 1) / (K - 1) |}) in *.
  set (o5 := true :: true :: true :: true :: true :: false :: o).
  set (w0 := start t o5).
  pose proof (leaf_of_range t tid Hs) as Hleaf.
  pose proof (shape_length _ Hs) as Hlen.
  assert (Hleaf1 : 1 <= leaf_of t tid).
  { simpl total_nodes in Hleaf. simpl total_leaf_nodes in Hleaf.
    rewrite HN, HN' in Hleaf.
    assert (1 <= level_start K (Z.to_nat H)).
    { replace (Z.to_nat H) with (S (Z.to_nat (H - 1))) by lia. simpl.
      pose proof (level_start_nonneg K (Z.to_nat (H - 1)) ltac:(lia)). nia. }
    lia. }
  (* the first arrival: five failures *)
  assert (Hrun : wp (run full_contention_handling
                       [CallArrive tid; CallArrive tid; CallDepart tid; CallDepart tid]
                       fresh_statuses) w0
                   (fun _ w =>
                      steps w0 w /\
                      abs (tree w) =
                        abs_Depart K (depth_fuel w0) (leaf_of t tid)
                          {| c_root := 1; c_nodes := c_nodes (abs t) |})).
  { simpl run. apply wp_bind. simpl step. apply wp_bind.
    eapply wp_mono.
    { apply (Arrive_direct_spec tid fresh_status w0); [reflexivity |].
      subst w0 o5. simpl. lia. }
    intros c1 w1 (Hc1 & H1 & A1). apply wp_ret.
    assert (Ec1 : c1 = {| use_snzi_in_arrive := false; use_snzi_in_depart := false;
                          use_snzi_tree_flag := true |}).
    { rewrite Hc1. subst w0 o5. simpl oracle. rewrite failures_five. simpl.
      unfold MaxContentionNumFailures.
      destruct (Z.leb_spec 5 (Z.of_nat (5 + failures (false :: o)))); [reflexivity | lia]. }
    (* the second arrival *)
    apply wp_bind. simpl step. apply wp_bind. rewrite set_status_same.
    eapply wp_mono.
    { apply (Arrive_direct_spec tid c1 w1); [rewrite Ec1; reflexivity |].
      pose proof (steps_oracle _ _ H1). subst w0 o5. simpl in *. lia. }
    intros c2 w2 (Hc2 & H2 & A2). apply wp_ret.
    assert (Ec2 : c2 = c1).
    { rewrite Hc2, Ec1. reflexivity. }
    (* the first departure *)
    apply wp_bind. simpl step. apply wp_bind. rewrite set_status_same.
    eapply wp_mono.
    { apply (Depart_direct_spec tid c2 w2). rewrite Ec2, Ec1. reflexivity. }
    intros c3 w3 (Hc3 & H3 & A3). apply wp_ret.
    assert (Ec3 : c3 = {| use_snzi_in_arrive := true; use_snzi_in_depart := true;
                          use_snzi_tree_flag := true |}).
    { rewrite Hc3, Ec2, Ec1. reflexivity. }
    (* the second departure *)
    assert (H03 : steps w0 w3).
    { eapply steps_trans; [exact H1 |]. eapply steps_trans; eassumption. }
    apply wp_bind. simpl step. apply wp_bind. rewrite set_status_same.
    eapply wp_mono.
    { apply (Depart_tree_spec full_contention_handling tid c3 w3).
      - exact (steps_shape _ _ H03 Hs).
      - intros _. rewrite Ec3. reflexivity. }
    intros c4 w4 (Hc4 & H4 & A4). apply wp_ret. apply wp_ret.
    split; [exact (steps_trans _ _ _ H03 H4) |].
    rewrite A4, (steps_arity _ _ H03), (steps_depth_fuel _ _ H03),
      (steps_leaf_of _ _ tid H03).
    f_equal.
    rewrite A3, A2, A1, (steps_arity _ _ H1), (steps_depth_fuel _ _ H1).
    assert (H02 : steps w0 w2) by exact (steps_trans _ _ _ H1 H2).
    rewrite (steps_arity _ _ H02), (steps_depth_fuel _ _ H02).
    rewrite abs_Depart_root, !abs_Arrive_root.
    cbn [c_root c_nodes].
    subst w0. simpl tree. rewrite Habs. reflexivity. }
  destruct Hrun as (st & w & Erun & Hst & Ha).
  assert (Hfuel : exists fuel : nat, depth_fuel w0 = S fuel).
  { unfold depth_fuel. subst w0. simpl tree.
    destruct (others t); simpl in *; [lia | eauto]. }
  destruct Hfuel as [fuel Hfuel].
  rewrite Hfuel, abs_Depart_node in Ha by lia.
  assert (Hc0 : count_at {| c_root := 1; c_nodes := c_nodes (abs t) |} (leaf_of t tid) = 0).
  { rewrite Habs. apply count_at_replicate. }
  rewrite Hc0 in Ha. simpl Z.eqb in Ha. cbv iota in Ha.
  change (wrap (0 - 1)) with SIZE_MAX in Ha.
  assert (Hroot : root (tree w) = 1).
  { change (root (tree w)) with (c_root (abs (tree w))). rewrite Ha. reflexivity. }
  assert (Hnodes : X <$> others (tree w) =
                   <[Z.to_nat (leaf_of t tid) := SIZE_MAX]> (X <$> others t)).
  { change (X <$> others (tree w)) with (c_nodes (abs (tree w))). rewrite Ha. reflexivity. }
  assert (Hnd : exists nd : node,
             others (tree w) !! Z.to_nat (leaf_of t tid) = Some nd /\ X nd = SIZE_MAX).
  { assert (E : (X <$> others (tree w)) !! Z.to_nat (leaf_of t tid) = Some SIZE_MAX).
    { rewrite Hnodes. apply list_lookup_insert_eq.
      rewrite length_fmap. lia. }
    rewrite list_lookup_fmap in E.
    destruct (others (tree w) !! Z.to_nat (leaf_of t tid)) as [nd |]; [| discriminate].
    injection E as E. eauto. }
  destruct Hnd as (nd & Hnd & HX).
  exists t, st, w, (leaf_of t tid), nd.
  split; [reflexivity |]. split; [exact Erun |]. split.
  - destruct (wp_get_leaf_for_thread tid (start t [])
                (fun r w' => r = leaf_of t tid /\ w' = start t []) Hs (conj eq_refl eq_refl))
      as (r & w' & E & -> & ->).
    exact E.
  - split; [exact Hnd |]. split; [exact HX |]. split; [exact Hroot |].
    rewrite Query_eq, Hroot. reflexivity.
Qed.

Lemma escalation_between_nested_arrivals_strands_a_departure_witness :
  exists (t : snzi) (st : statuses) (w : world) (leaf : Z) (nd : node),
    construct (fun _ => true) 2 1 4 = Ok t /\
    run full_contention_handling
        [CallArrive 3; CallArrive 3; CallDepart 3; CallDepart 3]
        fresh_statuses
        (start t (true :: true :: true :: true :: true :: false :: [true])) = Ok (st, w) /\
    get_leaf_for_thread 3 (start t []) = Ok (leaf, start t []) /\
    others (tree w) !! Z.to_nat leaf = Some nd /\ X nd = SIZE_MAX /\
    root (tree w) = 1 /\
    Query w = Ok (true, w).
Proof.
  apply (escalation_between_nested_arrivals_strands_a_departure (fun _ => true) 2 1 4 3
           [true]); try lia; try reflexivity.
  vm_compute. discriminate.
Defined.

Lemma pow_int_loop_forever (fuel : nat) :
  forall b i acc : Z,
    0 <= i <= SIZE_MAX -> pow_int_loop fuel b SIZE_MAX i acc = OutOfFuel.
Proof.
  induction fuel as [| fuel IH]; intros b i acc Hi; simpl;
    destruct (Z.leb_spec i SIZE_MAX); try lia; [reflexivity |].
  apply IH. apply wrap_range.
Qed.

(** X18. The height [2^64 - 1] is accepted and never served: the test
    [i <= e] of the loop of [pow_int] cannot fail for the largest exponent,
    so that, however long it runs, the loop does not end, and neither does
    the constructor (which has computed a node count of zero by then). *)
Theorem constructor_never_returns_for_largest_height (alloc : Z -> bool) (K T : Z) :
  2 <= K <= SIZE_MAX ->
  nodes_count K SIZE_MAX = Ok 0 /\
  (forall (fuel : nat) (i acc : Z),
     0 <= i <= SIZE_MAX -> pow_int_loop fuel K SIZE_MAX i acc = OutOfFuel) /\
  leaves_count K SIZE_MAX = OutOfFuel /\
  construct alloc K SIZE_MAX T = OutOfFuel.
Proof.
  intros HK.
  assert (Hn : nodes_count K SIZE_MAX = Ok 0).
  { unfold nodes_count. destruct (Z.eqb_spec K 1); [lia |].
    change (wrap (SIZE_MAX + 1)) with 0. unfold pow_int. simpl.
    change (wrap (1 - 1)) with 0. reflexivity. }
  assert (Hl : leaves_count K SIZE_MAX = OutOfFuel).
  { unfold leaves_count, pow_int. apply pow_int_loop_forever. unfold SIZE_MAX. lia. }
  split; [exact Hn |]. split; [intros; apply pow_int_loop_forever; assumption |].
  split; [exact Hl |].
  unfold construct. destruct (Z.ltb_spec K 2); [lia |].
  rewrite Hn, Hl. reflexivity.
Qed.

Lemma constructor_never_returns_for_largest_height_witness :
  construct (fun _ => true) 2 SIZE_MAX 4 = OutOfFuel.
Proof.
  apply (constructor_never_returns_for_largest_height (fun _ => true) 2 4).
  unfold SIZE_MAX. lia.
Defined.

End EscalationFacts.

Section AlternationFacts.
Import Word Snzi SnziSpec SnziHistory SnziStatus SnziAlternation.

Lemma is_inside_false (tid : Z) (inside : list Z) :
  is_inside tid inside = false -> ~ In tid inside.
Proof.
  unfold is_inside. intros H Hin.
  assert (existsb (Z.eqb tid) inside = true).
  { apply existsb_exists. exists tid. split; [exact Hin | apply Z.eqb_refl]. }
  congruence.
Qed.

Lemma remove_one_In (tid : Z) :
  forall inside inside' : list Z,
    remove_one tid inside = Some inside' ->
    List.NoDup inside ->
    In tid inside /\ ~ In tid inside' /\ List.NoDup inside' /\
    (forall x : Z, In x inside' -> In x inside).
Proof.
  induction inside as [| a inside IH]; intros inside' H Hnd; simpl in H; [discriminate |].
  inversion Hnd as [| a' l' Hnotin Hnd']; subst.
  destruct (Z.eqb_spec a tid) as [-> | Hne].
  - injection H as <-. split; [left; reflexivity |]. split; [exact Hnotin |].
    split; [exact Hnd' |]. intros x Hx. right. exact Hx.
  - destruct (remove_one tid inside) as [r |] eqn:E; [| discriminate].
    injection H as <-. destruct (IH r eq_refl Hnd') as (H1 & H2 & H3 & H4).
    split; [right; exact H1 |]. split.
    + intros [Ha | Hr]; [congruence | contradiction].
    + split.
      * constructor; [| exact H3]. intros Ha. apply Hnotin. apply H4. exact Ha.
      * intros x [-> | Hx]; [left; reflexivity | right; apply H4; exact Hx].
Qed.

Lemma waiting_at_nonneg (e : Z -> Z) (inside : list Z) (i : Z) : 0 <= waiting_at e inside i.
Proof.
  induction inside as [| tid inside IH]; simpl; [lia |]. destruct (e tid =? i); lia.
Qed.

Lemma waiting_at_ext (e e' : Z -> Z) (inside : list Z) (i : Z) :
  (forall tid : Z, In tid inside -> e' tid = e tid) ->
  waiting_at e' inside i = waiting_at e inside i.
Proof.
  induction inside as [| tid inside IH]; intros H; simpl; [reflexivity |].
  rewrite (H tid) by (left; reflexivity). rewrite IH; [reflexivity |].
  intros tid' Hin. apply H. right. exact Hin.
Qed.

Lemma waiting_at_cons (e : Z -> Z) (tid : Z) (inside : list Z) (i : Z) :
  waiting_at e (tid :: inside) i = upd (waiting_at e inside) (e tid) 1 i.
Proof.
  simpl. unfold upd. rewrite (Z.eqb_sym i). destruct (e tid =? i); lia.
Qed.

Lemma waiting_at_remove_one (e : Z -> Z) (tid : Z) :
  forall inside inside' : list Z,
    remove_one tid inside = Some inside' ->
    1 <= waiting_at e inside (e tid) /\
    forall i : Z, waiting_at e inside' i = upd (waiting_at e inside) (e tid) (-1) i.
Proof.
  induction inside as [| a inside IH]; intros inside' H; simpl in H; [discriminate |].
  destruct (Z.eqb_spec a tid) as [-> | Hne].
  - injection H as <-. simpl. rewrite Z.eqb_refl.
    pose proof (waiting_at_nonneg e inside (e tid)).
    split; [lia |]. intros i. unfold upd. rewrite (Z.eqb_sym i).
    destruct (e tid =? i); lia.
  - destruct (remove_one tid inside) as [r |] eqn:E; [| discriminate].
    injection H as <-. destruct (IH r eq_refl) as [H1 H2]. simpl.
    split; [destruct (e a =? e tid); lia |].
    intros i. rewrite H2. unfold upd. destruct (i =? e tid); lia.
Qed.

Lemma entry_of_range (t : snzi) (st : statuses) (tid : Z) :
  shape t -> 0 <= entry_of t st tid < Z.of_nat (length (others t)).
Proof.
  intros Hs. pose proof (leaf_of_range t tid Hs). pose proof (shape_leaves _ Hs).
  pose proof (shape_length _ Hs). unfold entry_of.
  destruct (use_snzi_in_depart (st tid)); lia.
Qed.

(** [Arrive] and [Depart] of the full class on a coherent status. *)
Lemma Arrive_full_spec (tid : Z) (cont : contention_status) (w : world) :
  shape (tree w) -> paired cont -> Z.of_nat (length (oracle w)) <= INT_MAX ->
  wp (Arrive full_contention_handling tid cont) w
     (fun cont' w' =>
        use_snzi_in_depart cont' = use_snzi_in_depart cont /\ paired cont' /\
        steps w w' /\
        abs (tree w') =
          abs_Arrive (arity (tree w)) (depth_fuel w)
            (if use_snzi_in_depart cont then leaf_of (tree w) tid else 0) (abs (tree w))).
Proof.
  intros Hs Hp Ho. pose proof Hp as [Hp1 Hp2].
  destruct (use_snzi_in_arrive cont) eqn:Ea.
  - eapply wp_mono; [apply Arrive_tree_spec; [exact Hs | intros _; exact Ea] |].
    intros c' w' (-> & H1 & H2). rewrite <- Hp1.
    split; [reflexivity |]. split; [exact Hp |]. auto.
  - eapply wp_mono; [apply Arrive_direct_spec; [exact Ea | exact Ho] |].
    intros c' w' (-> & H1 & H2). rewrite <- Hp1. simpl.
    split; [reflexivity |]. split; [| auto].
    split; simpl; rewrite ?Ea; [reflexivity | discriminate].
Qed.

Lemma Depart_full_spec (tid : Z) (cont : contention_status) (w : world) :
  shape (tree w) -> paired cont ->
  wp (Depart full_contention_handling tid cont) w
     (fun cont' w' =>
        paired cont' /\ steps w w' /\
        abs (tree w') =
          abs_Depart (arity (tree w)) (depth_fuel w)
            (if use_snzi_in_depart cont then leaf_of (tree w) tid else 0) (abs (tree w))).
Proof.
  intros Hs Hp. pose proof Hp as [Hp1 Hp2].
  destruct (use_snzi_in_depart cont) eqn:Ed.
  - eapply wp_mono; [apply Depart_tree_spec; [exact Hs | intros _; exact Ed] |].
    intros c' w' (-> & H1 & H2). split; [exact Hp |]. auto.
  - eapply wp_mono; [apply Depart_direct_spec; exact Ed |].
    intros c' w' (-> & H1 & H2). split; [| auto].
    split; simpl; rewrite Hp1, ?Ed; simpl; auto.
Qed.

(** A history of the full class in which the threads alternate. *)
Lemma run_alternating (w0 : world) :
  shape (tree w0) ->
  forall (cs : list call) (inside inside' : list Z) (n : Z) (st : statuses) (w : world),
    steps w0 w ->
    List.NoDup inside ->
    (forall tid : Z, paired (st tid)) ->
    counted (arity (tree w0)) n (waiting_at (entry_of (tree w0) st) inside) (abs (tree w)) ->
    0 <= n -> n + arrivals cs <= SIZE_MAX ->
    Z.of_nat (length (oracle w)) <= INT_MAX ->
    alternating cs inside = Some inside' ->
    wp (run full_contention_handling cs st) w
       (fun st' w' =>
          steps w w' /\
          counted (arity (tree w0)) (n + arrivals cs)
                  (waiting_at (entry_of (tree w0) st') inside') (abs (tree w'))).
Proof.
  intros Hs0.
  induction cs as [| c cs IH]; intros inside inside' n st w Hst Hnd Hp Hc Hn Hb Ho Halt.
  - simpl in Halt. injection Halt as <-. simpl. apply wp_ret.
    split; [apply steps_refl |]. rewrite Z.add_0_r. exact Hc.
  - pose proof (steps_shape _ _ Hst Hs0) as Hs.
    pose proof (shape_arity _ Hs0) as HK.
    pose proof (shape_length _ Hs) as Hlen. pose proof (shape_nodes _ Hs) as Hmax.
    pose proof (arrivals_nonneg cs) as Hcs.
    simpl run. apply wp_bind.
    destruct c as [tid | tid |]; simpl step; simpl in Halt; simpl arrivals in *.
    + (* Arrive *)
      destruct (is_inside tid inside) eqn:Ein; [discriminate |].
      apply is_inside_false in Ein.
      apply wp_bind. eapply wp_mono.
      { apply (Arrive_full_spec tid (st tid) w Hs (Hp tid) Ho). }
      intros c' w1 (Hd & Hp' & H1 & H2). apply wp_ret.
      rewrite (steps_arity _ _ Hst), (steps_depth_fuel _ _ Hst),
        (steps_leaf_of _ _ tid Hst) in H2.
      fold (entry_of (tree w0) st tid) in H2.
      assert (He : forall tid' : Z,
                 entry_of (tree w0) (set_status st tid c') tid' = entry_of (tree w0) st tid').
      { intros tid'. unfold entry_of, set_status.
        destruct (Z.eqb_spec tid' tid) as [-> |]; [rewrite Hd |]; reflexivity. }
      eapply wp_mono.
      { apply (IH (tid :: inside) inside' (n + 1) (set_status st tid c') w1).
        - eapply steps_trans; eassumption.
        - constructor; assumption.
        - intros tid'. unfold set_status. destruct (tid' =? tid); [exact Hp' | apply Hp].
        - rewrite H2.
          apply (counted_ext _ _
                   (upd (waiting_at (entry_of (tree w0) st) inside)
                        (entry_of (tree w0) st tid) 1)).
          { intros i. rewrite waiting_at_cons, He.
            unfold upd. rewrite (waiting_at_ext _ _ inside i (fun x _ => He x)).
            reflexivity. }
          apply abs_Arrive_counted; try assumption; try lia.
          * rewrite abs_length. lia.
          * rewrite abs_length, (steps_length _ _ Hst). apply entry_of_range. exact Hs0.
          * unfold depth_fuel. pose proof (entry_of_range (tree w0) st tid Hs0). lia.
        - lia.
        - lia.
        - pose proof (steps_oracle _ _ H1). lia.
        - exact Halt. }
      intros st' w' (H3 & H4). split; [eapply steps_trans; eassumption |].
      replace (n + (1 + arrivals cs)) with (n + 1 + arrivals cs) by lia. exact H4.
    + (* Depart *)
      destruct (remove_one tid inside) as [r |] eqn:Er; [| discriminate].
      destruct (remove_one_In tid inside r Er Hnd) as (Hin & Hnotin & Hnd' & _).
      destruct (waiting_at_remove_one (entry_of (tree w0) st) tid inside r Er) as [Hw1 Hw2].
      apply wp_bind. eapply wp_mono.
      { apply (Depart_full_spec tid (st tid) w Hs (Hp tid)). }
      intros c' w1 (Hp' & H1 & H2). apply wp_ret.
      rewrite (steps_arity _ _ Hst), (steps_depth_fuel _ _ Hst),
        (steps_leaf_of _ _ tid Hst) in H2.
      fold (entry_of (tree w0) st tid) in H2.
      eapply wp_mono.
      { apply (IH r inside' n (set_status st tid c') w1).
        - eapply steps_trans; eassumption.
        - exact Hnd'.
        - intros tid'. unfold set_status. destruct (tid' =? tid); [exact Hp' | apply Hp].
        - rewrite H2.
          apply (counted_ext _ _
                   (upd (waiting_at (entry_of (tree w0) st) inside)
                        (entry_of (tree w0) st tid) (-1))).
          { intros i. rewrite <- Hw2. apply waiting_at_ext.
            intros tid' Hin'. unfold entry_of, set_status.
            destruct (Z.eqb_spec tid' tid) as [-> |]; [contradiction | reflexivity]. }
          apply abs_Depart_counted; try assumption; try lia.
          * rewrite abs_length. lia.
          * rewrite abs_length, (steps_length _ _ Hst). apply entry_of_range. exact Hs0.
          * unfold depth_fuel. pose proof (entry_of_range (tree w0) st tid Hs0). lia.
        - lia.
        - lia.
        - pose proof (steps_oracle _ _ H1). lia.
        - exact Halt. }
      intros st' w' (H3 & H4). split; [eapply steps_trans; eassumption | exact H4].
    + (* Query *)
      apply wp_bind. exists (negb (root (tree w) =? 0)), w.
      split; [reflexivity |]. apply wp_ret.
      apply (IH inside inside' n st w); assumption.
Qed.

Lemma alternating_length (cs : list call) :
  forall inside inside' : list Z,
    alternating cs inside = Some inside' ->
    Z.of_nat (length inside') = Z.of_nat (length inside) + arrivals cs - departures cs.
Proof.
  induction cs as [| c cs IH]; intros inside inside' H; simpl in H.
  - injection H as <-. simpl. lia.
  - destruct c as [tid | tid |]; simpl arrivals; simpl departures.
    + destruct (is_inside tid inside); [discriminate |].
      rewrite (IH _ _ H). simpl length. lia.
    + destruct (remove_one tid inside) as [r |] eqn:E; [| discriminate].
      rewrite (IH _ _ H). rewrite (remove_one_length _ _ _ E). lia.
    + rewrite (IH _ _ H). lia.
Qed.

(** X19. The full class serves the threads that do not nest their
    arrivals, whatever exchanges fail and whenever the threads are sent from
    the root to the leaves: on a freshly constructed tree, after a history
    in which every thread alternates [Arrive] and [Depart], [Query()]
    returns true exactly when some thread is inside. *)
Theorem full_class_serves_alternating_threads (alloc : Z -> bool) (K H T : Z)
    (cs : list call) (o : list bool) (inside : list Z) :
  2 <= K -> 0 <= H -> K ^ (H + 1) <= 2 ^ 64 -> 1 <= T < 2 ^ 53 ->
  alloc ((K ^ (H + 1) - 1) / (K - 1)) = true ->
  Z.of_nat (length o) <= INT_MAX ->
  arrivals cs <= SIZE_MAX ->
  alternating cs [] = Some inside ->
  exists (t : snzi) (st : statuses) (w : world),
    construct alloc K H T = Ok t /\
    run full_contention_handling cs fresh_statuses (start t o) = Ok (st, w) /\
    Z.of_nat (length inside) = arrivals cs - departures cs /\
    Query w = Ok (departures cs <? arrivals cs, w).
Proof.
  intros HK HH Hpow HT Halloc Ho Harr Halt.
  rewrite (construct_spec alloc K H T HK HH Hpow HT Halloc).
  pose proof (construct_shape K H T HK HH Hpow ltac:(lia)) as Hs.
  pose proof (construct_counters K H T) as Habs.
  set (t := {| arity := K; total_nodes := (K ^ (H + 1) - 1) / (K - 1) |}) in *.
  destruct (run_alternating (start t o) Hs cs [] inside 0 fresh_statuses (start t o))
    as (st & w & Hrun & Hst & Hc).
  - apply steps_refl.
  - constructor.
  - intros tid. split; [reflexivity | discriminate].
  - simpl tree. rewrite Habs. apply counted_zero.
  - lia.
  - lia.
  - exact Ho.
  - exact Halt.
  - exists t, st, w. split; [reflexivity |]. split; [exact Hrun |].
    pose proof (alternating_length cs [] inside Halt) as Hlen. simpl length in Hlen.
    split; [lia |].
    rewrite Query_eq. do 2 f_equal.
    pose proof (steps_length _ _ Hst) as Hl. simpl tree in Hl, Hc.
    pose proof (shape_length _ Hs) as HN. pose proof (shape_nodes _ Hs) as Hmax.
    pose proof (shape_leaves _ Hs) as Hleaves.
    assert (Hroot : c_root (abs (tree w)) <> 0 <-> inside <> []).
    { rewrite (counted_root_iff K (arrivals cs) (waiting_at (entry_of t st) inside)
                 (abs (tree w)));
        [| lia | rewrite abs_length; lia | exact Hc].
      rewrite abs_length, Hl. split.
      - intros (i & _ & Hi) ->. simpl in Hi. lia.
      - destruct inside as [| tid inside]; [contradiction |]. intros _.
        exists (entry_of t st tid). split; [apply entry_of_range; exact Hs |].
        simpl. rewrite Z.eqb_refl.
        pose proof (waiting_at_nonneg (entry_of t st) inside (entry_of t st tid)). lia. }
    change (c_root (abs (tree w))) with (root (tree w)) in Hroot.
    destruct (Z.eqb_spec (root (tree w)) 0) as [E | E]; simpl.
    + symmetry. apply Z.ltb_ge.
      destruct inside as [| a inside]; [simpl in Hlen; lia |].
      exfalso. apply (proj2 Hroot); [discriminate | exact E].
    + symmetry. apply Z.ltb_lt.
      destruct inside as [| a inside]; [exfalso; apply (proj1 Hroot E); reflexivity |].
      simpl length in Hlen. lia.
Qed.

Lemma full_class_serves_alternating_threads_witness :
  exists (t : snzi) (st : statuses) (w : world),
    construct (fun _ => true) 2 1 4 = Ok t /\
    run full_contention_handling
        [CallArrive 3; CallDepart 3; CallArrive 3; CallArrive 0; CallDepart 3]
        fresh_statuses
        (start t [true; true; true; true; true; false; true]) = Ok (st, w) /\
    Z.of_nat (length [0]) = 3 - 2 /\
    Query w = Ok (true, w).
Proof.
  apply (full_class_serves_alternating_threads (fun _ => true) 2 1 4
           [CallArrive 3; CallDepart 3; CallArrive 3; CallArrive 0; CallDepart 3]
           [true; true; true; true; true; false; true] [0]);
    try lia; try reflexivity; try discriminate.
Defined.

End AlternationFacts.
